(** * DesInt: the design-signal classification engine of [src/server/scraper.js]

    A shallow embedding of the pure scoring and selection code of
    [DesignScraper]: the colour predicates evaluated in the page
    ([isNeutral]), [classifyColors] with its local helpers
    ([getColorVibrancy], [isNeutralOrDark], [addScore],
    [isValidBrandColor]) and the ranking half of [extractLogo]; then the
    callbacks that run in the page ([rgbToHex], [extractHexColors], the
    collection of colours, logo candidates, fonts and hero content, over
    a document given by the results of its queries) and the keyword
    analysis of [src/server/analyzer.js] that consumes the hero content.

    JavaScript numbers are IEEE-754 binary64 values; they are modelled by
    Rocq's primitive [float], which is the same format with the same
    round-to-nearest-even operations, so every definition below evaluates
    to the very double the source computes.  A string is the sequence
    of its code units, one [ascii] each, so the strings modelled are those
    whose code units are below 256 (colour strings are ["#rrggbb"]).  A
    JavaScript [Map] is an association list kept in insertion order.  The
    plain objects used as counters are association lists kept in
    insertion order too: that is how an object enumerates keys that are
    neither array indices nor names it inherits, and the colour strings
    the page produces all start with [#]; what is stated about the order
    of a counter assumes such keys. *)

From Stdlib Require Import Floats ZArith QArith List String Ascii Bool Lia.
From Stdlib Require Import Permutation Sorted.
Import ListNotations.

#[local] Set Warnings "-inexact-float".
#[local] Open Scope string_scope.
#[local] Open Scope list_scope.
#[local] Open Scope float_scope.

(** ** JavaScript primitives used by the scraper *)

Module JS.

(** [ToBoolean] on a number: [0], [-0] and [NaN] are falsy. *)
Definition truthy (x : float) : bool :=
  negb (x =? 0) && negb (is_nan x).

(** [x || 0] on a possibly missing number. *)
Definition or_zero (x : option float) : float :=
  match x with
  | Some v => if truthy v then v else 0
  | None => 0
  end.

(** [ToBoolean] on a string: only the empty string is falsy. *)
Definition truthy_str (s : string) : bool :=
  match s with
  | EmptyString => false
  | String _ _ => true
  end.

(** [a || b] where [a] is a string or [undefined]. *)
Definition or_str (a b : option string) : option string :=
  match a with
  | Some s => if truthy_str s then a else b
  | None => b
  end.

(** [Math.max] and [Math.min] of two numbers: [NaN] is contagious and
    [+0] is larger than [-0]. *)
Definition max2 (a b : float) : float :=
  if is_nan a || is_nan b then nan
  else if a <? b then b
  else if b <? a then a
  else if get_sign a then b else a.

Definition min2 (a b : float) : float :=
  if is_nan a || is_nan b then nan
  else if a <? b then a
  else if b <? a then b
  else if get_sign a then a else b.

Definition Math_max (r g b : float) : float := max2 (max2 r g) b.
Definition Math_min (r g b : float) : float := min2 (min2 r g) b.

(** The Number value of a mathematical integer (round to nearest even). *)
Definition of_Z (n : Z) : float :=
  SF2Prim (binary_normalize prec emax n 0 false).

Definition hex_digit (c : ascii) : option Z :=
  let n := Z.of_nat (nat_of_ascii c) in
  if (48 <=? n)%Z && (n <=? 57)%Z then Some (n - 48)%Z
  else if (97 <=? n)%Z && (n <=? 102)%Z then Some (n - 87)%Z
  else if (65 <=? n)%Z && (n <=? 70)%Z then Some (n - 55)%Z
  else None.

(** [StrWhiteSpaceChar], which is also the class [\s] of a regular
    expression and what [trim] strips, among the code units below 256:
    TAB, LF, VT, FF, CR, SP and NBSP ([U+00A0]). *)
Definition is_space (c : ascii) : bool :=
  let n := nat_of_ascii c in
  ((9 <=? n)%nat && (n <=? 13)%nat) || (n =? 32)%nat || (n =? 160)%nat.

Fixpoint skip_spaces (s : string) : string :=
  match s with
  | String c s' => if is_space c then skip_spaces s' else s
  | EmptyString => s
  end.

(** Value of the longest prefix of hexadecimal digits; [acc] is the
    value read so far ([None]: no digit yet). *)
Fixpoint hex_prefix (s : string) (acc : option Z) : option Z :=
  match s with
  | String c s' =>
      match hex_digit c with
      | Some d =>
          hex_prefix s' (Some (16 * match acc with Some a => a | None => 0 end + d)%Z)
      | None => acc
      end
  | EmptyString => acc
  end.

(** [parseInt(s, 16)]: leading white space, an optional sign, an
    optional [0x] prefix, then the longest run of hexadecimal digits;
    [NaN] when that run is empty. *)
Definition parseInt16 (s : string) : float :=
  let s := skip_spaces s in
  let '(neg, s) :=
    match s with
    | String "-" r => (true, r)
    | String "+" r => (false, r)
    | _ => (false, s)
    end in
  let s :=
    match s with
    | String "0" (String "x" r) => r
    | String "0" (String "X" r) => r
    | _ => s
    end in
  match hex_prefix s None with
  | None => nan
  | Some n => if neg then - of_Z n else of_Z n
  end.

(** [s.slice(i, j)] for [0 <= i <= j]. *)
Definition slice (i j : nat) (s : string) : string := substring i (j - i) s.

(** [toLowerCase] on one code unit below 256: the capitals [A] to [Z] and
    [U+00C0] to [U+00DE], the multiplication sign [U+00D7] excepted, move
    up by 32. *)
Definition lower (c : ascii) : ascii :=
  let n := nat_of_ascii c in
  if ((65 <=? n)%nat && (n <=? 90)%nat)
     || ((192 <=? n)%nat && (n <=? 222)%nat && negb (n =? 215)%nat)
  then ascii_of_nat (n + 32) else c.

Fixpoint toLowerCase (s : string) : string :=
  match s with
  | String c s' => String (lower c) (toLowerCase s')
  | EmptyString => EmptyString
  end.

(** [Array.prototype.sort(cmp)], a stable sort: [x] is moved behind [y]
    only when [cmp(x, y) > 0].  [after x y] is that test.  The language
    fixes the result for a consistent comparator, which the differences
    of scores, areas and counts are as long as none is [NaN]; that is the
    case modelled. *)
Section Sort.
Context {A : Type} (after : A -> A -> bool).

Fixpoint insert (x : A) (l : list A) : list A :=
  match l with
  | [] => [x]
  | y :: l' => if after x y then y :: insert x l' else x :: l
  end.

Fixpoint sort (l : list A) : list A :=
  match l with
  | [] => []
  | x :: l' => insert x (sort l')
  end.

(** [x] may stay in front of [y]. *)
Definition in_order (x y : A) : Prop := after x y = false.
End Sort.

(** [[...new Set(l)]]: the distinct strings of [l], each at its first
    occurrence. *)
Fixpoint distinct (l : list string) : list string :=
  match l with
  | [] => []
  | x :: l' => x :: filter (fun y => negb (String.eqb x y)) (distinct l')
  end.

(** [l.slice(i, j)] on an array. *)
Definition slice_list {A : Type} (i j : nat) (l : list A) : list A :=
  firstn (j - i) (skipn i l).

End JS.

(** ** Colour primitives *)

(** The three channels read by [parseInt(hex.slice(..), 16)]. *)
Definition channels (hex : string) : float * float * float :=
  (JS.parseInt16 (JS.slice 1 3 hex),
   JS.parseInt16 (JS.slice 3 5 hex),
   JS.parseInt16 (JS.slice 5 7 hex)).

(** [max === 0 ? 0 : (max - min) / max] *)
Definition saturation (hex : string) : float :=
  let '(r, g, b) := channels hex in
  let max := JS.Math_max r g b in
  let min := JS.Math_min r g b in
  if max =? 0 then 0 else (max - min) / max.

(** [(0.299 * r + 0.587 * g + 0.114 * b) / 255] *)
Definition luminance (hex : string) : float :=
  let '(r, g, b) := channels hex in
  (0.299 * r + 0.587 * g + 0.114 * b) / 255.

(** [isNeutral], evaluated in the page while colours are collected. *)
Definition isNeutral (hex : string) : bool :=
  if negb (JS.truthy_str hex) then true
  else saturation hex <? 0.15.

(** ** Insertion-ordered maps

    [Map] and plain objects keyed by colour strings or category names
    enumerate their keys in insertion order (the keys are never array
    indices: colour strings produced by the page start with [#]). *)

Module Assoc.
Section WithKey.
Context {K V : Type} (eqb : K -> K -> bool).

Fixpoint get (k : K) (m : list (K * V)) : option V :=
  match m with
  | [] => None
  | (k', v) :: m' => if eqb k k' then Some v else get k m'
  end.

Definition has (k : K) (m : list (K * V)) : bool :=
  match get k m with Some _ => true | None => false end.

(** [m[k] = v]: overwrite in place, or append a new key. *)
Fixpoint set (k : K) (v : V) (m : list (K * V)) : list (K * V) :=
  match m with
  | [] => [(k, v)]
  | (k', v') :: m' =>
      if eqb k k' then (k', v) :: m' else (k', v') :: set k v m'
  end.
End WithKey.
End Assoc.

(** ** Data model of [classifyColors] *)

Inductive category := button | link | background | border | svg | accent.

Definition category_eqb (a b : category) : bool :=
  match a, b with
  | button, button | link, link | background, background
  | border, border | svg, svg | accent, accent => true
  | _, _ => false
  end.

(** Entries of [colorData.buttons], [.backgrounds], [.svgColors] and
    [.accentElements]; [links], [text] and [borders] are plain colour
    strings. *)
Record ButtonCandidate :=
  { btn_color : string; btn_area : float; btn_isVisible : bool }.
Record BackgroundCandidate :=
  { bg_color : string; bg_area : float; bg_isHero : bool }.
Record SvgCandidate :=
  { svg_color : string; svg_inHeader : bool; svg_area : float }.
Record AccentCandidate :=
  { acc_color : string; acc_area : float }.

Record ColorData :=
  { buttons : list ButtonCandidate;
    links : list string;
    backgrounds : list BackgroundCandidate;
    text : list string;
    borders : list string;
    svgColors : list SvgCandidate;
    accentElements : list AccentCandidate }.

(** A value of the [colorScores] map. *)
Record ScoreEntry :=
  { total : float;
    categories : list (category * float);
    vibrancy : float }.

Definition ScoreMap := list (string * ScoreEntry).

Record PaletteEntry :=
  { color : string; score : float; usage : list category }.

Module Palette.
Record t :=
  { primary : option string;
    secondary : option string;
    background : string;
    backgrounds : list string;
    text : string;
    textColors : list string;
    accent : option string;
    palette : list PaletteEntry }.
End Palette.

(** ** [classifyColors] *)

Definition getColorVibrancy (hex : string) : float :=
  if negb (JS.truthy_str hex) then 0
  else
    let saturation := saturation hex in
    let luminance := luminance hex in
    let luminancePenalty :=
      if (luminance <? 0.15) || (0.85 <? luminance) then 0.3 else 1 in
    saturation * luminancePenalty.

Definition isNeutralOrDark (hex : string) : bool :=
  if negb (JS.truthy_str hex) then true
  else (saturation hex <? 0.25) || (luminance hex <? 0.15).

Definition isValidBrandColor (hex : string) : bool :=
  if negb (JS.truthy_str hex) then false
  else
    let luminance := luminance hex in
    if (0.95 <? luminance) || (luminance <? 0.05) then false
    else (0.1 <? saturation hex) || ((0.1 <? luminance) && (luminance <? 0.9)).

(** [entry.total += score;
     entry.categories[category] = (entry.categories[category] || 0) + score] *)
Definition bump (score : float) (cat : category) (entry : ScoreEntry) : ScoreEntry :=
  {| total := total entry + score;
     categories :=
       Assoc.set category_eqb cat
         (JS.or_zero (Assoc.get category_eqb cat (categories entry)) + score)
         (categories entry);
     vibrancy := vibrancy entry |}.

Definition addScore (color : string) (score : float) (cat : category)
    (colorScores : ScoreMap) : ScoreMap :=
  if negb (JS.truthy_str color) then colorScores
  else
    let normalized := JS.toLowerCase color in
    let entry :=
      match Assoc.get String.eqb normalized colorScores with
      | Some e => e
      | None =>
          {| total := 0; categories := []; vibrancy := getColorVibrancy normalized |}
      end in
    Assoc.set String.eqb normalized (bump score cat entry) colorScores.

(** [counts[color] = (counts[color] || 0) + 1] over a list of colours;
    [counts] is a plain object, listed by [Object.entries] in insertion
    order as long as the colours start with [#]. *)
Definition countColors (l : list string) : list (string * float) :=
  fold_left
    (fun counts c =>
       Assoc.set String.eqb c (JS.or_zero (Assoc.get String.eqb c counts) + 1) counts)
    l [].

Definition buttonScore (btn : ButtonCandidate) : float :=
  let vibrancy := getColorVibrancy (btn_color btn) in
  let baseScore := if btn_isVisible btn then 100 else 50 in
  let areaBonus := JS.min2 (btn_area btn / 1000) 50 in
  let vibrancyBonus := vibrancy * 100 in
  baseScore + areaBonus + vibrancyBonus.

Definition linkScore (c : string) (count : float) : float :=
  count * 10 + getColorVibrancy c * 30.

Definition backgroundScore (bg : BackgroundCandidate) : float :=
  if bg_isHero bg then 30 else 15.

Definition borderScore (c : string) (count : float) : float :=
  count * 15 + getColorVibrancy c * 40.

Definition svgScore (s : SvgCandidate) : float :=
  let headerBonus := if svg_inHeader s then 150 else 50 in
  let vibrancyBonus := getColorVibrancy (svg_color s) * 80 in
  headerBonus + vibrancyBonus.

Definition accentScore (a : AccentCandidate) : float :=
  60 + getColorVibrancy (acc_color a) * 60.

(** The six scoring loops, in source order. *)
Definition scoreButtons (cd : ColorData) (m : ScoreMap) : ScoreMap :=
  fold_left (fun m btn => addScore (btn_color btn) (buttonScore btn) button m)
    (buttons cd) m.

Definition scoreLinks (cd : ColorData) (m : ScoreMap) : ScoreMap :=
  fold_left (fun m '(c, count) => addScore c (linkScore c count) link m)
    (countColors (links cd)) m.

Definition scoreBackgrounds (cd : ColorData) (m : ScoreMap) : ScoreMap :=
  fold_left (fun m bg => addScore (bg_color bg) (backgroundScore bg) background m)
    (backgrounds cd) m.

Definition scoreBorders (cd : ColorData) (m : ScoreMap) : ScoreMap :=
  fold_left
    (fun m '(c, count) =>
       if 0.3 <? getColorVibrancy c then addScore c (borderScore c count) border m
       else m)
    (countColors (borders cd)) m.

Definition scoreSvgs (cd : ColorData) (m : ScoreMap) : ScoreMap :=
  fold_left (fun m s => addScore (svg_color s) (svgScore s) svg m)
    (svgColors cd) m.

Definition scoreAccents (cd : ColorData) (m : ScoreMap) : ScoreMap :=
  fold_left (fun m a => addScore (acc_color a) (accentScore a) accent m)
    (accentElements cd) m.

(** The score map when all loops have run. *)
Definition colorScores (cd : ColorData) : ScoreMap :=
  scoreAccents cd (scoreSvgs cd (scoreBorders cd
    (scoreBackgrounds cd (scoreLinks cd (scoreButtons cd []))))).

(** [.sort((a, b) => b[1].total - a[1].total)] *)
Definition byTotalDesc (a b : string * ScoreEntry) : bool :=
  0 <? total (snd b) - total (snd a).

Definition sortedColors (cd : ColorData) : list (string * ScoreEntry) :=
  JS.sort byTotalDesc
    (filter (fun '(c, _) => isValidBrandColor c) (colorScores cd)).

(** [data.categories.<cat>] as a condition. *)
Definition cat_truthy (cat : category) (data : ScoreEntry) : bool :=
  match Assoc.get category_eqb cat (categories data) with
  | Some v => JS.truthy v
  | None => false
  end.

(** [data.categories.button && data.categories.button > 50] *)
Definition button_over_50 (data : ScoreEntry) : bool :=
  match Assoc.get category_eqb button (categories data) with
  | Some v => JS.truthy v && (50 <? v)
  | None => false
  end.

Definition primaryColor (sorted : list (string * ScoreEntry))
    : option (string * ScoreEntry) :=
  match find (fun '(c, data) => button_over_50 data && negb (isNeutralOrDark c)) sorted with
  | Some x => Some x
  | None =>
      match find (fun '(c, data) => negb (isNeutralOrDark c) && (50 <? total data)) sorted with
      | Some x => Some x
      | None => find (fun '(_, data) => button_over_50 data) sorted
      end
  end.

(** [color !== found?.[0]] *)
Definition differs (c : string) (found : option (string * ScoreEntry)) : bool :=
  match found with
  | Some (c', _) => negb (String.eqb c c')
  | None => true
  end.

Definition secondaryColor (sorted : list (string * ScoreEntry))
    (primaryColor : option (string * ScoreEntry)) : option (string * ScoreEntry) :=
  match
    find (fun '(c, data) =>
            differs c primaryColor
            && (cat_truthy link data || cat_truthy button data || cat_truthy border data)
            && negb (isNeutralOrDark c)) sorted
  with
  | Some x => Some x
  | None =>
      find (fun '(c, data) =>
              differs c primaryColor && (cat_truthy link data || cat_truthy button data))
        sorted
  end.

Definition accentColor (sorted : list (string * ScoreEntry))
    (primaryColor secondaryColor : option (string * ScoreEntry))
    : option (string * ScoreEntry) :=
  find (fun '(c, _) =>
          differs c primaryColor && differs c secondaryColor && negb (isNeutralOrDark c))
    sorted.

(** [.sort((a, b) => b.area - a.area)] *)
Definition byAreaDesc (a b : BackgroundCandidate) : bool :=
  0 <? bg_area b - bg_area a.

Definition bgColors (cd : ColorData) : list string :=
  map bg_color
    (JS.slice_list 0 3
       (JS.sort byAreaDesc (filter (fun bg => 50000 <? bg_area bg) (backgrounds cd)))).

(** [.sort((a, b) => b[1] - a[1])] *)
Definition byCountDesc (a b : string * float) : bool :=
  0 <? snd b - snd a.

Definition textColors (cd : ColorData) : list string :=
  map fst (JS.slice_list 0 2 (JS.sort byCountDesc (countColors (text cd)))).

(** [found?.[0]] and [sorted[i]?.[0]] *)
Definition key_of (found : option (string * ScoreEntry)) : option string :=
  option_map fst found.

Definition key_at (i : nat) (sorted : list (string * ScoreEntry)) : option string :=
  option_map fst (nth_error sorted i).

(** [a || "default"] on an optional string. *)
Definition or_default (a : option string) (d : string) : string :=
  match JS.or_str a (Some d) with Some s => s | None => d end.

Definition paletteEntry (x : string * ScoreEntry) : PaletteEntry :=
  {| color := fst x; score := total (snd x); usage := map fst (categories (snd x)) |}.

Definition classifyColors (cd : ColorData) : Palette.t :=
  let sorted := sortedColors cd in
  let primaryColor := primaryColor sorted in
  let secondaryColor := secondaryColor sorted primaryColor in
  let bgColors := bgColors cd in
  let textColors := textColors cd in
  let accentColor := accentColor sorted primaryColor secondaryColor in
  {| Palette.primary :=
       JS.or_str (JS.or_str (key_of primaryColor) (key_at 0 sorted)) None;
     Palette.secondary :=
       JS.or_str (JS.or_str (key_of secondaryColor) (key_at 1 sorted)) None;
     Palette.background := or_default (hd_error bgColors) "#ffffff";
     Palette.backgrounds := JS.distinct bgColors;
     Palette.text := or_default (hd_error textColors) "#000000";
     Palette.textColors := JS.distinct textColors;
     Palette.accent :=
       JS.or_str (JS.or_str (key_of accentColor) (key_at 2 sorted)) None;
     Palette.palette := map paletteEntry (JS.slice_list 0 8 sorted) |}.

(** ** The role cascades in the words of the specification

    [ranked] is the filtered, score-descending list.  A category that never
    received a score has subtotal [0]. *)

Definition subtotal (cat : category) (e : ScoreEntry) : float :=
  match Assoc.get category_eqb cat (categories e) with
  | Some v => v
  | None => 0
  end.

(** A subtotal counts as nonzero when it is a number other than zero. *)
Definition nonzero (x : float) : bool := JS.truthy x.

Module Spec.
Definition ranked := list (string * ScoreEntry).

Definition first_color (p : string -> ScoreEntry -> bool) (l : ranked)
    : option string :=
  option_map fst (find (fun x => p (fst x) (snd x)) l).

Definition orelse {A : Type} (a b : option A) : option A :=
  match a with Some _ => a | None => b end.

(** The three predicates of the primary rule, in order. *)
Definition primary_match (l : ranked) : option string :=
  orelse
    (first_color (fun c e => (50 <? subtotal button e) && negb (isNeutralOrDark c)) l)
    (orelse
       (first_color (fun c e => negb (isNeutralOrDark c) && (50 <? total e)) l)
       (first_color (fun _ e => 50 <? subtotal button e) l)).

Definition primary (l : ranked) : option string :=
  orelse (primary_match l) (option_map fst (nth_error l 0)).

Definition is_not (excluded : option string) (c : string) : bool :=
  match excluded with
  | Some c' => negb (String.eqb c c')
  | None => true
  end.

Definition signalled (e : ScoreEntry) : bool :=
  nonzero (subtotal link e) || nonzero (subtotal button e)
  || nonzero (subtotal border e).

(** The secondary rule exactly as the specification words it:
    [chosen] is the colour reported as primary, and nothing is reported
    when both searches fail. *)
Definition secondary_as_claimed (l : ranked) (chosen : option string)
    : option string :=
  orelse
    (first_color (fun c e => is_not chosen c && signalled e
                             && negb (isNeutralOrDark c)) l)
    (first_color (fun c e => is_not chosen c && signalled e) l).

(** The secondary rule of the code: the colour left out is the one the
    three primary predicates matched, the relaxed search looks at link
    and button only, and the second ranked entry is the last resort. *)
Definition secondary_match (l : ranked) : option string :=
  orelse
    (first_color (fun c e => is_not (primary_match l) c && signalled e
                             && negb (isNeutralOrDark c)) l)
    (first_color (fun c e => is_not (primary_match l) c
                             && (nonzero (subtotal link e)
                                 || nonzero (subtotal button e))) l).

Definition secondary (l : ranked) : option string :=
  orelse (secondary_match l) (option_map fst (nth_error l 1)).

(** The accent rule as the specification words it. *)
Definition accent_as_claimed (l : ranked) (prim sec : option string)
    : option string :=
  first_color (fun c _ => is_not prim c && is_not sec c
                          && negb (isNeutralOrDark c)) l.

(** The accent rule of the code. *)
Definition accent_match (l : ranked) : option string :=
  first_color (fun c _ => is_not (primary_match l) c
                          && is_not (secondary_match l) c
                          && negb (isNeutralOrDark c)) l.

Definition accent (l : ranked) : option string :=
  orelse (accent_match l) (option_map fst (nth_error l 2)).
End Spec.

(** ** Data model and ranking of [extractLogo]

    The page returns [logoData]; the part of [extractLogo] that runs in
    Node scores, sorts and reports it. *)

Inductive LogoFormat := fmt_svg | fmt_png | fmt_other.
Inductive LogoKind := kind_img | kind_svg | kind_favicon.

(** [src] is [null] for a favicon link without [href]. *)
Record LogoCandidate :=
  { logo_type : LogoKind;
    logo_src : option string;
    logo_width : float;
    logo_height : float;
    logo_inHeader : bool;
    logo_hasLogoKeyword : bool;
    logo_format : LogoFormat }.

Record LogoAlternative :=
  { alt_url : option string; alt_format : LogoFormat }.

Module Logo.
Record t :=
  { url : option string;
    format : option LogoFormat;
    width : option float;
    height : option float;
    alternatives : list LogoAlternative }.
End Logo.

(** The body of the [.map((logo) => ...)] callback: the value of [score]
    when the object [{ ...logo, score }] is built. *)
Definition logoScore (logo : LogoCandidate) : float :=
  let score := 0 in
  let score :=
    match logo_format logo with
    | fmt_svg => score + 50
    | fmt_png => score + 30
    | fmt_other => score
    end in
  let area := logo_width logo * logo_height logo in
  let score := if (500 <? area) && (area <? 50000) then score + 30 else score in
  let score := if logo_inHeader logo then score + 40 else score in
  let score := if logo_hasLogoKeyword logo then score + 30 else score in
  score.

(** [.sort((a, b) => b.score - a.score)] on the scored candidates. *)
Definition byScoreDesc (a b : LogoCandidate * float) : bool :=
  0 <? snd b - snd a.

Definition scored (logoData : list LogoCandidate) : list (LogoCandidate * float) :=
  JS.sort byScoreDesc (map (fun logo => (logo, logoScore logo)) logoData).

(** [x || null] on a number. *)
Definition num_or_null (x : float) : option float :=
  if JS.truthy x then Some x else None.

Definition extractLogo (logoData : list LogoCandidate) : Logo.t :=
  let scored := scored logoData in
  let best := nth_error scored 0 in
  {| Logo.url :=
       match best with
       | Some (l, _) => JS.or_str (logo_src l) None
       | None => None
       end;
     Logo.format := option_map (fun x => logo_format (fst x)) best;
     Logo.width :=
       match best with Some (l, _) => num_or_null (logo_width l) | None => None end;
     Logo.height :=
       match best with Some (l, _) => num_or_null (logo_height l) | None => None end;
     Logo.alternatives :=
       map (fun x => {| alt_url := logo_src (fst x); alt_format := logo_format (fst x) |})
         (JS.slice_list 1 4 scored) |}.

(** The score in the words of the specification, as an integer. *)
Module LogoSpec.
Definition formatBonus (l : LogoCandidate) : Z :=
  match logo_format l with fmt_svg => 50 | fmt_png => 30 | fmt_other => 0 end.
Definition areaBonus (l : LogoCandidate) : Z :=
  let area := logo_width l * logo_height l in
  if (500 <? area) && (area <? 50000) then 30 else 0.
Definition headerBonus (l : LogoCandidate) : Z :=
  if logo_inHeader l then 40 else 0.
Definition keywordBonus (l : LogoCandidate) : Z :=
  if logo_hasLogoKeyword l then 30 else 0.
Definition score (l : LogoCandidate) : Z :=
  (formatBonus l + areaBonus l + headerBonus l + keywordBonus l)%Z.
End LogoSpec.

(** ** Well-formed colour strings

    The page only produces ["#"] followed by six hexadecimal digits
    ([rgbToHex] and [extractHexColors]); [rgb_of_hex] reads such a string
    as three integers and rejects every other string. *)

Definition hex_pair (c1 c2 : ascii) : option Z :=
  match JS.hex_digit c1, JS.hex_digit c2 with
  | Some a, Some b => Some (16 * a + b)%Z
  | _, _ => None
  end.

Definition rgb_of_hex (hex : string) : option (Z * Z * Z) :=
  match hex with
  | String "#" (String r1 (String r2 (String g1 (String g2
      (String b1 (String b2 EmptyString)))))) =>
      match hex_pair r1 r2, hex_pair g1 g2, hex_pair b1 b2 with
      | Some r, Some g, Some b => Some (r, g, b)
      | _, _, _ => None
      end
  | _ => None
  end.

Definition well_formed (hex : string) : bool :=
  match rgb_of_hex hex with Some _ => true | None => false end.

(** Saturation as the specification defines it, in exact arithmetic:
    [(max - min) / max], and [0] when [max = 0]. *)
Definition exact_saturation (r g b : Z) : Q :=
  let mx := Z.max (Z.max r g) b in
  let mn := Z.min (Z.min r g) b in
  if (mx =? 0)%Z then 0%Q else ((mx - mn) # Z.to_pos mx)%Q.

(** Tables for exhaustive checks: every character, the hexadecimal digits,
    and every channel value next to its double. *)
Definition all_ascii : list ascii := map ascii_of_nat (seq 0 256).
Definition hex_chars : list ascii := list_ascii_of_string "0123456789abcdefABCDEF".
Definition all_bytes : list Z := map Z.of_nat (seq 0 256).
Definition byte_table : list (Z * float) := map (fun n => (n, JS.of_Z n)) all_bytes.

(** [max === 0 ? 0 : (max - min) / max] on the doubles of the extremes. *)
Definition saturation_of (max min : float) : float :=
  if max =? 0 then 0 else (max - min) / max.

(** The double computed for the saturation of channel extremes [mx >= mn]. *)
Definition byte_saturation (mx mn : Z) : float :=
  saturation_of (JS.of_Z mx) (JS.of_Z mn).

(** ** The sequence of [addScore] calls

    Every update of the score map is one call [addScore(color, score,
    category)]; [scoreCalls] lists the calls [classifyColors] makes, in
    order. *)

Record ScoreCall :=
  { call_color : string; call_score : float; call_category : category }.

Definition applyCalls (cs : list ScoreCall) (m : ScoreMap) : ScoreMap :=
  fold_left (fun m c => addScore (call_color c) (call_score c) (call_category c) m) cs m.

Definition scoreCalls (cd : ColorData) : list ScoreCall :=
  map (fun btn => Build_ScoreCall (btn_color btn) (buttonScore btn) button) (buttons cd)
  ++ map (fun x => Build_ScoreCall (fst x) (linkScore (fst x) (snd x)) link)
       (countColors (links cd))
  ++ map (fun bg => Build_ScoreCall (bg_color bg) (backgroundScore bg) background)
       (backgrounds cd)
  ++ map (fun x => Build_ScoreCall (fst x) (borderScore (fst x) (snd x)) border)
       (filter (fun x => 0.3 <? getColorVibrancy (fst x)) (countColors (borders cd)))
  ++ map (fun s => Build_ScoreCall (svg_color s) (svgScore s) svg) (svgColors cd)
  ++ map (fun a => Build_ScoreCall (acc_color a) (accentScore a) accent)
       (accentElements cd).

(** The calls that reach the entry of key [k]. *)
Definition reaches (k : string) (c : ScoreCall) : bool :=
  JS.truthy_str (call_color c) && String.eqb (JS.toLowerCase (call_color c)) k.

Definition calls_for (k : string) (cs : list ScoreCall) : list ScoreCall :=
  filter (reaches k) cs.

Definition in_category (cat : category) (c : ScoreCall) : bool :=
  category_eqb cat (call_category c).

(** [total] after the calls [l]: a left-to-right sum of doubles from 0. *)
Definition running_total (l : list ScoreCall) : float :=
  fold_left (fun acc c => acc + call_score c) l 0.

(** [categories[cat]] after the calls [l]: missing until the first call of
    that category, then [(old || 0) + score] at each one. *)
Definition running_subtotal (cat : category) (l : list ScoreCall) : option float :=
  fold_left
    (fun acc c => if in_category cat c then Some (JS.or_zero acc + call_score c) else acc)
    l None.

Definition all_categories : list category :=
  [button; link; background; border; svg; accent].

(** [sum(categoryTotals.values())], summed in key order from 0. *)
Definition sum_subtotals (e : ScoreEntry) : float :=
  fold_left (fun acc x => acc + snd x) (categories e) 0.

(** What one entry records after the calls [cs]. *)
Definition records (cs : list ScoreCall) (x : string * ScoreEntry) : Prop :=
  let l := calls_for (fst x) cs in
  total (snd x) = running_total l
  /\ (forall cat, Assoc.get category_eqb cat (categories (snd x)) = running_subtotal cat l)
  /\ Permutation l (List.concat (map (fun cat => filter (in_category cat) l) all_categories)).

(** The left-to-right sum of doubles, from 0. *)
Definition double_sum (l : list float) : float :=
  fold_left (fun acc x => acc + x) l 0.

(** The scores that the calls [l] add under [cat], in call order. *)
Definition scores_under (cat : category) (l : list ScoreCall) : list float :=
  map call_score (filter (in_category cat) l).

(** What one entry records after the calls [cs] once no subtotal
    restarts: the total is the positive sum of all its scores, a subtotal
    is the sum of the scores of its category, and an entry scored under a
    single category holds that one subtotal, equal to the total. *)
Definition settled (cs : list ScoreCall) (x : string * ScoreEntry) : Prop :=
  let l := calls_for (fst x) cs in
  total (snd x) = double_sum (map call_score l)
  /\ (0 <? total (snd x)) = true
  /\ (forall cat,
        Assoc.get category_eqb cat (categories (snd x))
        = match scores_under cat l with
          | [] => None
          | scores => Some (double_sum scores)
          end)
  /\ (forall cat,
        Forall (fun c => call_category c = cat) l ->
        categories (snd x) = [(cat, total (snd x))]
        /\ total (snd x) = sum_subtotals (snd x)).

(** ** Background colours in the words of the specification *)

Definition large_backgrounds (cd : ColorData) : list BackgroundCandidate :=
  filter (fun bg => 50000 <? bg_area bg) (backgrounds cd).

(** "Top 3 distinct colors", read literally: the first three distinct
    colours of the sorted candidates. *)
Definition backgrounds_as_claimed (cd : ColorData) : list string :=
  firstn 3 (JS.distinct (map bg_color (JS.sort byAreaDesc (large_backgrounds cd)))).

(** ** Inputs as the page produces them

    Colours are well-formed and a button has a non-negative area. *)

Definition well_formed_input (cd : ColorData) : bool :=
  forallb (fun b => well_formed (btn_color b) && (0 <=? btn_area b)) (buttons cd)
  && forallb well_formed (links cd)
  && forallb well_formed (borders cd)
  && forallb (fun s => well_formed (svg_color s)) (svgColors cd)
  && forallb (fun a => well_formed (acc_color a)) (accentElements cd).

(** The least score one call of each category can add. *)
Definition floor_of (cat : category) : float :=
  match cat with
  | button => 50
  | link => 10
  | background => 15
  | border => 15
  | svg => 50
  | accent => 60
  end.

(** The luminance penalties and the weights applied to a vibrancy. *)
Definition penalties : list float := [0.3; 1].
Definition vibrancy_weights : list float := [100; 30; 40; 80; 60].

(** An entry whose total and recorded subtotals are all positive. *)
Definition healthy (e : ScoreEntry) : Prop :=
  (0 <? total e) = true
  /\ categories e <> []
  /\ NoDup (map fst (categories e))
  /\ Forall (fun x => (0 <? snd x) = true) (categories e).

(** ** Auxiliary notions for the proofs *)

(** *** Binary64 values

    A double other than NaN has a rank in [Z * Z * Z]; ranks are ordered
    lexicographically. *)

Module Binary64.
#[local] Open Scope Z_scope.

Abbreviation finite_pos m e := (S754_finite false m e).
Abbreviation digits m := (Z.pos (digits2_pos m)).

Definition lex_le (e1 m1 e2 m2 : Z) : Prop := e1 < e2 \/ (e1 = e2 /\ m1 <= m2).

Definition rank (x : spec_float) : Z * Z * Z :=
  match x with
  | S754_nan => (0, 0, 0)
  | S754_zero _ => (0, 0, 0)
  | S754_infinity true => (-2, 0, 0)
  | S754_infinity false => (2, 0, 0)
  | S754_finite false m e => (1, e, Z.pos m)
  | S754_finite true m e => (-1, - e, Z.neg m)
  end.

Definition lex_lt (a b : Z * Z * Z) : Prop :=
  let '(a1, a2, a3) := a in
  let '(b1, b2, b3) := b in
  a1 < b1 \/ (a1 = b1 /\ (a2 < b2 \/ (a2 = b2 /\ a3 < b3))).

Definition is_number (x : spec_float) : Prop := x <> S754_nan.

(** Zero or above: a zero, a positive finite value or [+infinity]. *)
Definition nonneg (x : spec_float) : Prop :=
  match x with
  | S754_zero _ | S754_infinity false | S754_finite false _ _ => True
  | _ => False
  end.

End Binary64.

(** [x] is a number that is at least zero (so not NaN). *)
Definition nonneg (x : float) : Prop := (0 <=? x) = true.

(** [c] is a positive finite double. *)
Definition positive_finite (c : float) : Prop :=
  exists m e, Prim2SF c = S754_finite false m e.

(** *** Invariants *)

(** An optional key that is not the empty string. *)
Definition opt_truthy (a : option string) : Prop :=
  match a with Some s => JS.truthy_str s = true | None => True end.

Definition keys_truthy (m : list (string * ScoreEntry)) : Prop :=
  Forall (fun x => JS.truthy_str (fst x) = true) m.

(** The sixteen multiples of ten a logo score can take. *)
Definition logo_score_values : list Z :=
  map (fun k => (10 * Z.of_nat k)%Z) (seq 0 16).

(** A scored candidate carries the score of its candidate. *)
Definition well_scored (x : LogoCandidate * float) : Prop :=
  snd x = logoScore (fst x).

(** What the map holds after a sequence of calls. *)
Definition tracks (cs : list ScoreCall) (m : ScoreMap) : Prop :=
  NoDup (map fst m)
  /\ forall k,
       match Assoc.get String.eqb k m with
       | None => calls_for k cs = []
       | Some e =>
           total e = running_total (calls_for k cs)
           /\ forall cat,
                Assoc.get category_eqb cat (categories e)
                = running_subtotal cat (calls_for k cs)
       end.

(** A background candidate that passes the area filter. *)
Definition large (bg : BackgroundCandidate) : Prop := (50000 <? bg_area bg) = true.

(** ** Concrete inputs used as examples *)

Definition no_candidates : ColorData :=
  {| buttons := []; links := []; backgrounds := []; text := []; borders := [];
     svgColors := []; accentElements := [] |}.

Definition section_bg (c : string) (area : float) (hero : bool) : BackgroundCandidate :=
  {| bg_color := c; bg_area := area; bg_isHero := hero |}.

Definition cta (c : string) : ButtonCandidate :=
  {| btn_color := c; btn_area := 8000; btn_isVisible := true |}.

(** A page with an orange button and one tinted section. *)
Definition button_and_tinted_section : ColorData :=
  {| buttons := [cta "#ff5000"]; links := [];
     backgrounds := [section_bg "#336699" 2073600 true];
     text := []; borders := []; svgColors := []; accentElements := [] |}.

(** A page with an orange button, blue links and one grey section. *)
Definition button_links_and_grey_section : ColorData :=
  {| buttons := [cta "#ff5000"]; links := ["#336699"; "#336699"];
     backgrounds := [section_bg "#808080" 1036800 false];
     text := []; borders := []; svgColors := []; accentElements := [] |}.

(** A page with an orange button, blue links and borders, a green header
    logo, a white hero and black text. *)
Definition sample_page : ColorData :=
  {| buttons := [cta "#ff5000"]; links := ["#336699"; "#336699"];
     backgrounds := [section_bg "#ffffff" 2073600 true];
     text := ["#000000"; "#000000"; "#333333"]; borders := ["#336699"];
     svgColors := [ {| svg_color := "#22aa55"; svg_inHeader := true; svg_area := 1600 |} ];
     accentElements := [] |}.

(** A page with one muted link colour: saturation 0.171875, so the page
    keeps it ([isNeutral] is false) while [isNeutralOrDark] holds. *)
Definition one_muted_link : ColorData :=
  {| buttons := []; links := ["#80806a"]; backgrounds := []; text := [];
     borders := []; svgColors := []; accentElements := [] |}.

(** A brand colour on one visible button and on three header SVG shapes. *)
Definition brand_on_button_and_logo : ColorData :=
  {| buttons := [ {| btn_color := "#336699"; btn_area := 8000; btn_isVisible := true |} ];
     links := []; backgrounds := []; text := []; borders := [];
     svgColors :=
       repeat {| svg_color := "#336699"; svg_inHeader := true; svg_area := 100 |} 3;
     accentElements := [] |}.

(** Two buttons of one brand colour and nothing else. *)
Definition two_buttons : ColorData :=
  {| buttons := [ {| btn_color := "#336699"; btn_area := 8000; btn_isVisible := true |};
                  {| btn_color := "#336699"; btn_area := 4321; btn_isVisible := false |} ];
     links := []; backgrounds := []; text := []; borders := []; svgColors := [];
     accentElements := [] |}.

(** A page with two white sections, a light one and a dark one. *)
Definition white_page_with_footer : ColorData :=
  {| buttons := []; links := [];
     backgrounds := [section_bg "#ffffff" 2073600 true; section_bg "#ffffff" 1500000 false;
                     section_bg "#f5f5f5" 1000000 false; section_bg "#222222" 500000 false];
     text := []; borders := []; svgColors := []; accentElements := [] |}.

(** ** Counting occurrences

    [counts[c] = (counts[c] || 0) + 1] and [entry.count++] add one to a
    double.  The count reached after [n] additions is [tally_value n]; it
    is checked to grow strictly with [n] up to [tally_bound], which is far
    more elements than a page holds. *)

Definition tally_value (n : nat) : float := Nat.iter n (fun x => x + 1) 0.

Definition tally_bound : nat := 10 ^ 6.

(** [x < x + 1], then the same of [x + 1], [fuel] times over. *)
Fixpoint rising (fuel : nat) (x : float) : bool :=
  match fuel with
  | O => true
  | S fuel' => (x <? x + 1) && rising fuel' (x + 1)
  end.

(** The number of times [c] occurs in [l]. *)
Definition occurrences (l : list string) (c : string) : nat :=
  count_occ string_dec l c.

(** [ranked] lists the distinct names of [names] by descending number of
    occurrences, names that occur equally often in the order in which they
    are first seen. *)
Definition by_frequency (names ranked : list string) : Prop :=
  Permutation ranked (JS.distinct names)
  /\ StronglySorted (fun a b => (occurrences names b <= occurrences names a)%nat) ranked
  /\ forall n, filter (fun c => (occurrences names c =? n)%nat) ranked
               = filter (fun c => (occurrences names c =? n)%nat) (JS.distinct names).

(** A colour string as the page produces it starts with [#].  Such a key
    of a plain object is neither an array index nor a name the object
    inherits, so [Object.entries] lists it where it was first added. *)
Definition hash_key (c : string) : bool :=
  match c with
  | String "#" _ => true
  | _ => false
  end.
(** ** String methods and patterns used in the page

    The callbacks passed to [page.evaluate] read computed styles and
    attributes as strings.  A regular expression is modelled by the
    matcher it denotes on strings of code units below 256. *)

Module JSString.

(** [s.startsWith(p)] *)
Definition startsWith (p s : string) : bool := String.prefix p s.

(** [s.includes(p)] *)
Fixpoint includes (p s : string) : bool :=
  String.prefix p s
  || match s with
     | String _ s' => includes p s'
     | EmptyString => false
     end.

(** [\d] *)
Definition is_digit (c : ascii) : bool :=
  let n := nat_of_ascii c in (48 <=? n)%nat && (n <=? 57)%nat.

(** [\w] *)
Definition is_word (c : ascii) : bool :=
  let n := nat_of_ascii c in
  ((48 <=? n)%nat && (n <=? 57)%nat) || ((65 <=? n)%nat && (n <=? 90)%nat)
  || (n =? 95)%nat || ((97 <=? n)%nat && (n <=? 122)%nat).

(** [[0-9a-fA-F]] *)
Definition is_hex (c : ascii) : bool :=
  match JS.hex_digit c with Some _ => true | None => false end.

(** The longest run of characters satisfying [p] at the head of [s], and
    what follows it. *)
Fixpoint span (p : ascii -> bool) (s : string) : string * string :=
  match s with
  | String c s' =>
      if p c then let '(run, rest) := span p s' in (String c run, rest)
      else (EmptyString, s)
  | EmptyString => (EmptyString, EmptyString)
  end.

(** A greedy [(\d+)]: when what follows cannot start with a digit, giving
    up digits never helps, so the longest run is the only candidate. *)
Definition digits1 (s : string) : option (string * string) :=
  match span is_digit s with
  | (EmptyString, _) => None
  | (run, rest) => Some (run, rest)
  end.

(** A literal prefix. *)
Fixpoint literal (p s : string) : option string :=
  match p, s with
  | EmptyString, _ => Some s
  | String a p', String b s' => if Ascii.eqb a b then literal p' s' else None
  | String _ _, EmptyString => None
  end.

(** [\s*] *)
Definition spaces (s : string) : string := JS.skip_spaces s.

(** Value of the longest prefix of decimal digits ([None]: no digit). *)
Fixpoint dec_prefix (s : string) (acc : option Z) : option Z :=
  match s with
  | String c s' =>
      if is_digit c then
        dec_prefix s'
          (Some (10 * match acc with Some a => a | None => 0 end
                 + (Z.of_nat (nat_of_ascii c) - 48))%Z)
      else acc
  | EmptyString => acc
  end.

(** [parseInt(s)] without a radix: leading white space, an optional sign,
    then base 16 after a [0x] prefix and base 10 otherwise; [NaN] when no
    digit follows.  The value is the nearest double of the integer read. *)
Definition parseInt (s : string) : float :=
  let s := JS.skip_spaces s in
  let '(neg, s) :=
    match s with
    | String "-" r => (true, r)
    | String "+" r => (false, r)
    | _ => (false, s)
    end in
  let value :=
    match s with
    | String "0" (String "x" r) => JS.hex_prefix r None
    | String "0" (String "X" r) => JS.hex_prefix r None
    | _ => dec_prefix s None
    end in
  match value with
  | None => nan
  | Some n => if neg then - JS.of_Z n else JS.of_Z n
  end.

Definition hex_char (d : Z) : ascii :=
  if (d <? 10)%Z then ascii_of_nat (Z.to_nat (48 + d))
  else ascii_of_nat (Z.to_nat (87 + d)).

(** The hexadecimal digits of [n > 0] in front of [acc]; [fuel] bounds the
    number of digits. *)
Fixpoint hex_digits (fuel : nat) (n : Z) (acc : string) : string :=
  match fuel with
  | O => acc
  | S fuel' =>
      if (n <=? 0)%Z then acc
      else hex_digits fuel' (n / 16)%Z (String (hex_char (n mod 16)%Z) acc)
  end.

Definition hex_of_Z (n : Z) : string :=
  if (n <=? 0)%Z then "0"
  else hex_digits (S (Z.to_nat (Z.log2 n))) n EmptyString.

(** [x.toString(16)] on [NaN], an infinity or an integral Number, the
    values [parseInt] returns. *)
Definition toString16 (x : float) : string :=
  match Prim2SF x with
  | S754_nan => "NaN"
  | S754_infinity s => if s then "-Infinity" else "Infinity"
  | S754_zero _ => "0"
  | S754_finite s m e =>
      let magnitude :=
        if (0 <=? e)%Z then (Z.pos m * 2 ^ e)%Z else (Z.pos m / 2 ^ (- e))%Z in
      ((if s then "-" else "") ++ hex_of_Z magnitude)%string
  end.

(** [s.padStart(n, c)] for a one-character [c]. *)
Definition padStart (n : nat) (c : ascii) (s : string) : string :=
  (string_of_list_ascii (repeat c (n - String.length s)) ++ s)%string.

(** [s.trim()] *)
Fixpoint trimEnd (s : string) : string :=
  match s with
  | String c s' =>
      match trimEnd s' with
      | EmptyString => if JS.is_space c then EmptyString else String c EmptyString
      | t => String c t
      end
  | EmptyString => EmptyString
  end.

Definition trim (s : string) : string := trimEnd (JS.skip_spaces s).

(** [/logo/i.test(s)] and [/brand/i.test(s)]: the word, made of
    lower-case ASCII letters, occurs in [s] in any mix of cases. *)
Definition test_i (word s : string) : bool := includes word (JS.toLowerCase s).

End JSString.

(** ** Colour strings read in the page *)

(** [\((\d+),\s*(\d+),\s*(\d+)] at the head of [s]: the three captured
    groups. *)
Definition rgb_after_paren (s : string) : option (string * string * string) :=
  match JSString.literal "(" s with
  | None => None
  | Some s =>
      match JSString.digits1 s with
      | None => None
      | Some (r, s) =>
          match JSString.literal "," s with
          | None => None
          | Some s =>
              match JSString.digits1 (JSString.spaces s) with
              | None => None
              | Some (g, s) =>
                  match JSString.literal "," s with
                  | None => None
                  | Some s =>
                      match JSString.digits1 (JSString.spaces s) with
                      | None => None
                      | Some (b, _) => Some (r, g, b)
                      end
                  end
              end
          end
      end
  end.

(** [rgb.match(/rgba?\((\d+),\s*(\d+),\s*(\d+)/)] at the head of [s];
    [a?] is tried with the [a] first. *)
Definition rgb_groups (s : string) : option (string * string * string) :=
  match JSString.literal "rgb" s with
  | None => None
  | Some s =>
      match
        match JSString.literal "a" s with
        | Some s' => rgb_after_paren s'
        | None => None
        end
      with
      | Some m => Some m
      | None => rgb_after_paren s
      end
  end.

(** The leftmost match of the pattern in [s]. *)
Fixpoint rgb_match (s : string) : option (string * string * string) :=
  match rgb_groups s with
  | Some m => Some m
  | None =>
      match s with
      | String _ s' => rgb_match s'
      | EmptyString => None
      end
  end.

(** [parseInt(x).toString(16).padStart(2, "0")] *)
Definition hex_byte (x : string) : string :=
  JSString.padStart 2 "0" (JSString.toString16 (JSString.parseInt x)).

Definition rgbToHex (rgb : string) : option string :=
  if negb (JS.truthy_str rgb) || String.eqb rgb "transparent"
     || String.eqb rgb "rgba(0, 0, 0, 0)"
  then None
  else
    match rgb_match rgb with
    | None => None
    | Some (r, g, b) => Some ("#" ++ String.concat "" (map hex_byte [r; g; b]))%string
    end.

(** [n] characters of [[0-9a-fA-F]] at the head of [s], and the rest. *)
Fixpoint hex_run (n : nat) (s : string) : option (string * string) :=
  match n with
  | O => Some (EmptyString, s)
  | S n' =>
      match s with
      | String c s' =>
          if JSString.is_hex c then
            match hex_run n' s' with
            | Some (run, rest) => Some (String c run, rest)
            | None => None
            end
          else None
      | EmptyString => None
      end
  end.

(** [\b] after a hexadecimal digit: the end of the string or a character
    that is not a word character. *)
Definition word_boundary (rest : string) : bool :=
  match rest with
  | String c _ => negb (JSString.is_word c)
  | EmptyString => true
  end.

(** [#([0-9a-fA-F]{6}|[0-9a-fA-F]{3})\b] at the head of [s]: the matched
    text and the rest.  The six-digit alternative is tried first. *)
Definition hex_here (s : string) : option (string * string) :=
  match s with
  | String "#" t =>
      let three :=
        match hex_run 3 t with
        | Some (run, rest) =>
            if word_boundary rest then Some (String "#" run, rest) else None
        | None => None
        end in
      match hex_run 6 t with
      | Some (run, rest) =>
          if word_boundary rest then Some (String "#" run, rest) else three
      | None => three
      end
  | _ => None
  end.

(** [str.match(hexPattern)] with the [g] flag: every match, left to right,
    each search resuming where the last match ended.  A step consumes at
    least one character, so [fuel] above the length is never exhausted. *)
Fixpoint hex_matches (fuel : nat) (s : string) : list string :=
  match fuel with
  | O => []
  | S fuel' =>
      match hex_here s with
      | Some (m, rest) => m :: hex_matches fuel' rest
      | None =>
          match s with
          | String _ s' => hex_matches fuel' s'
          | EmptyString => []
          end
      end
  end.

(** [c.length === 4 ? "#" + c[1] + c[1] + c[2] + c[2] + c[3] + c[3]
                     : c.toLowerCase()] *)
Definition expand (c : string) : string :=
  match c with
  | String _ (String c1 (String c2 (String c3 EmptyString))) =>
      String "#" (String c1 (String c1 (String c2 (String c2
        (String c3 (String c3 EmptyString))))))
  | _ => JS.toLowerCase c
  end.

Definition extractHexColors (str : string) : list string :=
  if negb (JS.truthy_str str) then []
  else map expand (hex_matches (S (String.length str)) str).

(** ["rgb(r, g, b)"] and ["rgba(r, g, b, a)"], the forms in which a
    browser serialises a computed colour. *)
Fixpoint dec_digits (fuel : nat) (n : Z) (acc : string) : string :=
  match fuel with
  | O => acc
  | S fuel' =>
      if (n <=? 0)%Z then acc
      else dec_digits fuel' (n / 10)%Z
             (String (ascii_of_nat (Z.to_nat (48 + n mod 10))) acc)
  end.

Definition decimal (n : Z) : string :=
  if (n <=? 0)%Z then "0"
  else dec_digits (S (Z.to_nat (Z.log2 n))) n EmptyString.

Definition css_rgb (r g b : Z) : string :=
  ("rgb(" ++ decimal r ++ ", " ++ decimal g ++ ", " ++ decimal b ++ ")")%string.

Definition css_rgba (r g b : Z) (alpha : string) : string :=
  ("rgba(" ++ decimal r ++ ", " ++ decimal g ++ ", " ++ decimal b ++ ", "
   ++ alpha ++ ")")%string.

(** The channels a computed colour names, when it names any. *)
Definition css_channels (s : string) : option (Z * Z * Z) :=
  match rgb_match s with
  | Some (r, g, b) =>
      match JSString.dec_prefix r None, JSString.dec_prefix g None,
            JSString.dec_prefix b None with
      | Some r, Some g, Some b => Some (r, g, b)
      | _, _, _ => None
      end
  | None => None
  end.

(** A computed colour whose channels, if any, are at most 255. *)
Definition in_gamut (s : string) : bool :=
  match css_channels s with
  | Some (r, g, b) => (r <=? 255)%Z && (g <=? 255)%Z && (b <=? 255)%Z
  | None => true
  end.

(** Every character of [s] satisfies [p]. *)
Fixpoint every (p : ascii -> bool) (s : string) : bool :=
  match s with
  | String c s' => p c && every p s'
  | EmptyString => true
  end.

(** A nonempty string of decimal digits, as [(\d+)] captures. *)
Definition digit_string (x : string) : bool :=
  JS.truthy_str x && every JSString.is_digit x.

(** A channel value. *)
Definition is_byte (n : Z) : Prop := (0 <= n <= 255)%Z.

(** A string that does not begin with white space. *)
Definition no_leading_space (s : string) : Prop :=
  match s with
  | String c _ => JS.is_space c = false
  | EmptyString => True
  end.
(** ** [parseFloat]

    The value of a decimal literal is the double nearest to it; the
    quotient of two integers is rounded once, as [SpecFloat] rounds the
    quotient of two mantissas. *)

Module JSNumber.

(** The double nearest to [m / d], for [m >= 0] and [d > 0]. *)
Definition of_ratio (m d : Z) : float :=
  if (m =? 0)%Z then 0
  else
    let '(q, e, l) := SFdiv_core_binary prec emax m 0 d 0 in
    SF2Prim (binary_round_aux prec emax false q e l).

(** The double nearest to [m * 10 ^ e] for [m >= 0]. *)
Definition of_decimal (m e : Z) : float :=
  if (0 <=? e)%Z then JS.of_Z (m * 10 ^ e) else of_ratio m (10 ^ (- e)).

(** [SignedInteger] at the head of [s]: its value, if there is one. *)
Definition signed_integer (s : string) : option Z :=
  match s with
  | String "-" r => option_map Z.opp (JSString.dec_prefix r None)
  | String "+" r => JSString.dec_prefix r None
  | _ => JSString.dec_prefix s None
  end.

(** [ExponentPart] at the head of [s], [0] when there is none. *)
Definition exponent_part (s : string) : Z :=
  match s with
  | String "e" r | String "E" r =>
      match signed_integer r with Some e => e | None => 0%Z end
  | _ => 0%Z
  end.

(** [StrUnsignedDecimalLiteral] other than [Infinity]: the longest prefix
    of the forms [digits], [digits.], [digits.digits] and [.digits], each
    with an optional exponent. *)
Definition unsigned_decimal (s : string) : option float :=
  let '(int_digits, r1) := JSString.span JSString.is_digit s in
  let '(frac_digits, r2) :=
    match r1 with
    | String "." r => JSString.span JSString.is_digit r
    | _ => (EmptyString, r1)
    end in
  match JSString.dec_prefix (int_digits ++ frac_digits) None with
  | None => None
  | Some m =>
      Some (of_decimal m (exponent_part r2 - Z.of_nat (String.length frac_digits)))
  end.

(** [parseFloat(s)]: leading white space, an optional sign, then
    [Infinity] or the longest decimal literal; [NaN] when there is
    none. *)
Definition parseFloat (s : string) : float :=
  let s := JS.skip_spaces s in
  let '(neg, s) :=
    match s with
    | String "-" r => (true, r)
    | String "+" r => (false, r)
    | _ => (false, s)
    end in
  let magnitude :=
    if JSString.startsWith "Infinity" s then Some infinity
    else unsigned_decimal s in
  match magnitude with
  | None => nan
  | Some x => if neg then - x else x
  end.

End JSNumber.

(** ** The page as the callbacks see it

    The callbacks passed to [page.evaluate] query the document and read,
    for each element, its computed style, its bounding box and a few
    attributes.  A document is modelled by what those queries return. *)

Module Page.

(** [el.getBoundingClientRect()] *)
Record Rect := { width : float; height : float; top : float }.

(** An element: [window.getComputedStyle(el)], its bounding box, and
    [el.getAttribute("fill")] and [el.getAttribute("stroke")] ([None] for
    [null]). *)
Record Element :=
  { backgroundColor : string;
    color : string;
    borderColor : string;
    fill : string;
    rect : Rect;
    fillAttr : option string;
    strokeAttr : option string }.

(** An inline [svg]: the element itself, whether
    [svg.closest('header, nav, ...')] is not [null], and
    [svg.querySelectorAll("*")]. *)
Record Svg :=
  { svg : Element; inHeader : bool; svgElements : list Element }.

(** An [img]: [src] and the other properties are strings, empty when
    absent; [dataSrc] is [img.getAttribute("data-src")]; [inHeaderNav] is
    [img.closest('header, nav, ...') !== null]. *)
Record Img :=
  { src : string;
    dataSrc : option string;
    alt : string;
    className : string;
    id : string;
    inHeaderNav : bool;
    naturalWidth : float;
    naturalHeight : float;
    imgRect : Rect }.

(** An [svg] inside a header or navigation container: its bounding box and
    [encodeURIComponent(serializer.serializeToString(svg))]. *)
Record HeaderSvg := { svgRect : Rect; encoded : string }.

(** The computed font of an element: [style.fontFamily], [style.fontSize]
    and [style.fontWeight]. *)
Record Font := { fontFamily : string; fontSize : string; fontWeight : string }.

(** The first [h1]: its text and, for [h1.nextElementSibling], the tag
    name and the text. *)
Record Heading := { textContent : string; next : option (string * string) }.

(** The hero section: the text of its first [h1, h2, h3] and of its first
    [p], when it has one. *)
Record Hero := { heroHeading : option string; heroParagraph : option string }.

(** The results of the queries, each list in document order; [accents]
    holds one list per entry of [accentSelectors]; [headerNav] holds, for
    each header or navigation container, the [svg]s inside it; [headings]
    and [bodyElements] hold the computed fonts of the [h1] to [h6] and of
    the [p, span, li, a, div] elements. *)
Record Document :=
  { buttons : list Element;
    links : list Element;
    sections : list Element;
    textElements : list Element;
    allElements : list Element;
    svgs : list Svg;
    accents : list (list Element);
    innerHeight : float;
    origin : string;
    images : list Img;
    headerNav : list (list HeaderSvg);
    favicon : option string;
    h1 : option Heading;
    heroSection : option Hero;
    metaDescription : option string;
    title : string;
    headings : list Font;
    bodyElements : list Font }.

End Page.

(** ** [extractColors]: what the page collects *)

(** [rect.width * rect.height] *)
Definition area (r : Page.Rect) : float := Page.width r * Page.height r.

(** [const c = rgbToHex(style); if (c && ...)]: the colour, when it is
    neither [null] nor empty. *)
Definition computed (style : string) : option string :=
  JS.or_str (rgbToHex style) None.

(** [if (!isNeutral(c)) push(c)] *)
Definition vivid (c : string) : list string :=
  if isNeutral c then [] else [c].

(** [const c = rgbToHex(style); if (c && !isNeutral(c)) push(c)] *)
Definition vividComputed (style : string) : list string :=
  match computed style with
  | Some c => vivid c
  | None => []
  end.

Definition buttonsOf (d : Page.Document) : list ButtonCandidate :=
  flat_map
    (fun btn =>
       let rect := Page.rect btn in
       match computed (Page.backgroundColor btn) with
       | Some bgColor =>
           if (50 <? Page.width rect) && (20 <? Page.height rect) then
             [ {| btn_color := bgColor;
                  btn_area := area rect;
                  btn_isVisible :=
                    (Page.top rect <? Page.innerHeight d) && (0 <? Page.top rect) |} ]
           else []
       | None => []
       end)
    (Page.buttons d).

Definition linksOf (d : Page.Document) : list string :=
  flat_map (fun link => vividComputed (Page.color link)) (Page.links d).

Definition backgroundsOf (d : Page.Document) : list BackgroundCandidate :=
  flat_map
    (fun section =>
       let rect := Page.rect section in
       match computed (Page.backgroundColor section) with
       | Some bgColor =>
           if (200 <? Page.width rect) && (100 <? Page.height rect) then
             [ {| bg_color := bgColor;
                  bg_area := area rect;
                  bg_isHero := Page.top rect <? 200 |} ]
           else []
       | None => []
       end)
    (Page.sections d).

Definition textOf (d : Page.Document) : list string :=
  flat_map
    (fun el => match computed (Page.color el) with Some c => [c] | None => [] end)
    (Page.textElements d).

Definition bordersOf (d : Page.Document) : list string :=
  flat_map (fun el => vividComputed (Page.borderColor el)) (Page.allElements d).

(** [attr && attr !== "none" && attr !== "transparent"] *)
Definition paints (attr : option string) : option string :=
  match attr with
  | Some a =>
      if JS.truthy_str a && negb (String.eqb a "none")
         && negb (String.eqb a "transparent")
      then Some a else None
  | None => None
  end.

(** The colours pushed for one element inside an [svg]. *)
Definition shapeColors (el : Page.Element) : list string :=
  match paints (Page.fillAttr el) with
  | Some fill => flat_map vivid (extractHexColors fill) ++ vividComputed (Page.fill el)
  | None => []
  end
  ++ match paints (Page.strokeAttr el) with
     | Some stroke => flat_map vivid (extractHexColors stroke)
     | None => []
     end.

Definition svgColorsOf (d : Page.Document) : list SvgCandidate :=
  flat_map
    (fun s =>
       map (fun c => {| svg_color := c;
                        svg_inHeader := Page.inHeader s;
                        svg_area := area (Page.rect (Page.svg s)) |})
         (flat_map shapeColors (Page.svgElements s)
          ++ vividComputed (Page.fill (Page.svg s))
          ++ vividComputed (Page.color (Page.svg s))))
    (Page.svgs d).

Definition accentElementsOf (d : Page.Document) : list AccentCandidate :=
  flat_map
    (fun el =>
       map (fun c => {| acc_color := c; acc_area := area (Page.rect el) |})
         (vividComputed (Page.backgroundColor el) ++ vividComputed (Page.color el)))
    (List.concat (Page.accents d)).

(** The object the callback returns.  (A button also carries its text,
    which [classifyColors] never reads.) *)
Definition colorData (d : Page.Document) : ColorData :=
  {| buttons := buttonsOf d;
     links := linksOf d;
     backgrounds := backgroundsOf d;
     text := textOf d;
     borders := bordersOf d;
     svgColors := svgColorsOf d;
     accentElements := accentElementsOf d |}.

Definition extractColors (d : Page.Document) : Palette.t :=
  classifyColors (colorData d).

(** Every computed colour the callback reads has channels of at most 255,
    as a browser guarantees. *)
Definition element_in_gamut (el : Page.Element) : bool :=
  in_gamut (Page.backgroundColor el) && in_gamut (Page.color el)
  && in_gamut (Page.borderColor el) && in_gamut (Page.fill el).

Definition colors_in_gamut (d : Page.Document) : bool :=
  forallb element_in_gamut (Page.buttons d)
  && forallb element_in_gamut (Page.links d)
  && forallb element_in_gamut (Page.sections d)
  && forallb element_in_gamut (Page.textElements d)
  && forallb element_in_gamut (Page.allElements d)
  && forallb (fun s => element_in_gamut (Page.svg s)
                       && forallb element_in_gamut (Page.svgElements s))
       (Page.svgs d)
  && forallb (forallb element_in_gamut) (Page.accents d).

(** A well-formed colour that [isNeutral] does not reject. *)
Definition fine (c : string) : Prop :=
  well_formed c = true /\ isNeutral c = false.

(** A colour whose saturation is at least 0.15. *)
Definition saturated (c : string) : Prop :=
  exists r g b, rgb_of_hex c = Some (r, g, b)
                /\ (15 # 100 <= exact_saturation r g b)%Q.

(** A colour string that [toLowerCase] leaves as it is. *)
Definition lower_case (c : string) : Prop := JS.toLowerCase c = c.

(** The colours the page keeps only when they are not neutral. *)
Definition filtered_colors (cd : ColorData) : list string :=
  links cd ++ borders cd ++ map svg_color (svgColors cd)
  ++ map acc_color (accentElements cd).

(** The three roles of a palette. *)
Definition roles (p : Palette.t) : list (option string) :=
  [Palette.primary p; Palette.secondary p; Palette.accent p].

(** ** [extractLogo]: what the page collects *)

Definition getAbsoluteUrl (origin src : string) : option string :=
  if negb (JS.truthy_str src) then None
  else if JSString.startsWith "data:" src then Some src
  else if JSString.startsWith "http" src then Some src
  else if JSString.startsWith "//" src then Some ("https:" ++ src)%string
  else if JSString.startsWith "/" src then Some (origin ++ src)%string
  else Some (origin ++ "/" ++ src)%string.

(** [x || y] on numbers. *)
Definition num_or (x y : float) : float := if JS.truthy x then x else y.

(** The candidate pushed for an [img], if any. *)
Definition imageCandidate (origin : string) (img : Page.Img) : list LogoCandidate :=
  let src := JS.or_str (Some (Page.src img)) (Page.dataSrc img) in
  let alt := Page.alt img in
  let className := Page.className img in
  let id := Page.id img in
  let isLikelyLogo :=
    match src with
    | Some s => JSString.test_i "logo" s
    | None => JSString.test_i "logo" "null"
    end
    || JSString.test_i "logo" alt
    || JSString.test_i "logo" className
    || JSString.test_i "logo" id
    || JSString.test_i "brand" className
    || Page.inHeaderNav img in
  match src with
  | Some src =>
      if isLikelyLogo && JS.truthy_str src then
        [ {| logo_type := kind_img;
             logo_src := getAbsoluteUrl origin src;
             logo_width := num_or (Page.naturalWidth img) (Page.width (Page.imgRect img));
             logo_height := num_or (Page.naturalHeight img) (Page.height (Page.imgRect img));
             logo_inHeader := Page.inHeaderNav img;
             logo_hasLogoKeyword :=
               JSString.test_i "logo" (src ++ alt ++ className ++ id);
             logo_format :=
               if JSString.includes ".svg" src then fmt_svg
               else if JSString.includes ".png" src then fmt_png
               else if JSString.startsWith "data:image/svg" src then fmt_svg
               else if JSString.startsWith "data:image/png" src then fmt_png
               else fmt_other |} ]
      else []
  | None => []
  end.

(** The candidate pushed for an [svg] in a header or navigation
    container, if any. *)
Definition svgCandidate (s : Page.HeaderSvg) : list LogoCandidate :=
  let rect := Page.svgRect s in
  if (20 <? Page.width rect) && (20 <? Page.height rect) then
    [ {| logo_type := kind_svg;
         logo_src := Some ("data:image/svg+xml," ++ Page.encoded s)%string;
         logo_width := Page.width rect;
         logo_height := Page.height rect;
         logo_inHeader := true;
         logo_hasLogoKeyword := true;
         logo_format := fmt_svg |} ]
  else [].

(** The candidate pushed for [link[rel*="icon"]] of address [href]. *)
Definition faviconCandidate (origin href : string) : LogoCandidate :=
  {| logo_type := kind_favicon;
     logo_src := getAbsoluteUrl origin href;
     logo_width := 32;
     logo_height := 32;
     logo_inHeader := false;
     logo_hasLogoKeyword := false;
     logo_format := if JSString.includes ".svg" href then fmt_svg else fmt_other |}.

Definition logoData (d : Page.Document) : list LogoCandidate :=
  flat_map (imageCandidate (Page.origin d)) (Page.images d)
  ++ flat_map svgCandidate (List.concat (Page.headerNav d))
  ++ match Page.favicon d with
     | Some href => [faviconCandidate (Page.origin d) href]
     | None => []
     end.

(** [extractLogo(page, baseUrl)] as a whole. *)
Definition extractLogoOf (d : Page.Document) : Logo.t := extractLogo (logoData d).

(** An address, when there is one, is nonempty and starts with [data:] or
    [http]. *)
Definition absolute (url : option string) : Prop :=
  match url with
  | Some u =>
      JS.truthy_str u = true
      /\ (JSString.startsWith "data:" u || JSString.startsWith "http" u) = true
  | None => True
  end.

(** A header or navigation [svg] large enough to be a candidate. *)
Definition qualifies (s : Page.HeaderSvg) : bool :=
  (20 <? Page.width (Page.svgRect s)) && (20 <? Page.height (Page.svgRect s)).
(** ** [extractTypography] *)

(** The two characters of the class in [replace(/[...]/g, ...)]: the
    quotation mark and the apostrophe. *)
Definition quotation_mark : ascii := ascii_of_nat 34.
Definition apostrophe : ascii := ascii_of_nat 39.

Definition is_quote (c : ascii) : bool :=
  Ascii.eqb c quotation_mark || Ascii.eqb c apostrophe.

Definition is_comma (c : ascii) : bool := Ascii.eqb c ",".

(** [s.replace(/[...]/g, ...)]: every quotation mark and apostrophe is
    removed. *)
Fixpoint unquote (s : string) : string :=
  match s with
  | String c s' => if is_quote c then unquote s' else String c (unquote s')
  | EmptyString => EmptyString
  end.

(** [style.fontFamily.split(",")[0].replace(...).trim()] *)
Definition firstFamily (fontFamily : string) : string :=
  JSString.trim
    (unquote (fst (JSString.span (fun c => negb (is_comma c)) fontFamily))).

(** A value of the [fonts.headings] and [fonts.body] maps. *)
Record FontEntry :=
  { count : float; sizes : list string; weights : list string }.

Definition FontMap := list (string * FontEntry).

(** [if (!fonts.has(key)) fonts.set(key, { count: 0, sizes: [], weights: [] });
     entry.count++; entry.sizes.push(fontSize); entry.weights.push(fontWeight)] *)
Definition addFont (key fontSize fontWeight : string) (fonts : FontMap) : FontMap :=
  let entry :=
    match Assoc.get String.eqb key fonts with
    | Some e => e
    | None => {| count := 0; sizes := []; weights := [] |}
    end in
  Assoc.set String.eqb key
    {| count := count entry + 1;
       sizes := sizes entry ++ [fontSize];
       weights := weights entry ++ [fontWeight] |}
    fonts.

Definition headingsMap (d : Page.Document) : FontMap :=
  fold_left
    (fun fonts h =>
       addFont (firstFamily (Page.fontFamily h)) (Page.fontSize h) (Page.fontWeight h)
         fonts)
    (Page.headings d) [].

(** [fontSize >= 12 && fontSize <= 24] on [parseFloat(style.fontSize)] *)
Definition text_sized (el : Page.Font) : bool :=
  let fontSize := JSNumber.parseFloat (Page.fontSize el) in
  (12 <=? fontSize) && (fontSize <=? 24).

Definition bodyMap (d : Page.Document) : FontMap :=
  fold_left
    (fun fonts el =>
       if text_sized el then
         addFont (firstFamily (Page.fontFamily el)) (Page.fontSize el)
           (Page.fontWeight el) fonts
       else fonts)
    (Page.bodyElements d) [].

(** An element of [headingFonts] and [bodyFonts]. *)
Record FontInfo :=
  { family : string;
    font_count : float;
    avgSize : option string;
    font_weights : list string }.

(** [.sort((a, b) => b.count - a.count)] *)
Definition byFontCount (a b : FontInfo) : bool :=
  0 <? font_count b - font_count a.

Definition headingFonts (d : Page.Document) : list FontInfo :=
  JS.sort byFontCount
    (map (fun '(font, data) =>
            {| family := font;
               font_count := count data;
               avgSize := nth_error (sizes data) 0;
               font_weights := JS.distinct (weights data) |})
       (headingsMap d)).

Definition bodyFonts (d : Page.Document) : list FontInfo :=
  JS.sort byFontCount
    (map (fun '(font, data) =>
            {| family := font;
               font_count := count data;
               avgSize := nth_error (sizes data) (List.length (sizes data) / 2);
               font_weights := JS.distinct (weights data) |})
       (bodyMap d)).

Module Typography.
Record choice :=
  { family : string; weights : list string; fallback : option string }.
Record t := { heading : choice; body : choice; all : list string }.
End Typography.

(** [{ family: fonts[0]?.family || "System Default",
       weights: fonts[0]?.weights || ["400"],
       fallback: fonts[1]?.family }] *)
Definition fontChoice (fonts : list FontInfo) : Typography.choice :=
  {| Typography.family :=
       or_default (option_map family (nth_error fonts 0)) "System Default";
     Typography.weights :=
       match nth_error fonts 0 with
       | Some f => font_weights f
       | None => ["400"]
       end;
     Typography.fallback := option_map family (nth_error fonts 1) |}.

Definition extractTypography (d : Page.Document) : Typography.t :=
  let headingFonts := headingFonts d in
  let bodyFonts := bodyFonts d in
  {| Typography.heading := fontChoice headingFonts;
     Typography.body := fontChoice bodyFonts;
     Typography.all := JS.distinct (map family (headingFonts ++ bodyFonts)) |}.

(** The calls of [addFont] as triples of family name, size and weight. *)
Definition fontMap (calls : list (string * string * string)) : FontMap :=
  fold_left (fun fonts '(key, fontSize, fontWeight) => addFont key fontSize fontWeight fonts)
    calls [].

Definition fontCall (el : Page.Font) : string * string * string :=
  (firstFamily (Page.fontFamily el), Page.fontSize el, Page.fontWeight el).

Definition headingCalls (d : Page.Document) : list (string * string * string) :=
  map fontCall (Page.headings d).

Definition bodyCalls (d : Page.Document) : list (string * string * string) :=
  map fontCall (filter text_sized (Page.bodyElements d)).

Definition call_name (c : string * string * string) : string := fst (fst c).
Definition call_weight (c : string * string * string) : string := snd c.

(** The weights pushed for the family [k], in order. *)
Definition weights_of (calls : list (string * string * string)) (k : string)
    : list string :=
  map call_weight (filter (fun c => String.eqb (call_name c) k) calls).

(** The choice made from the ranked families: the first, unless it is the
    empty name, with its distinct weights, and the second as fallback. *)
Definition chosen (calls : list (string * string * string)) (ranked : list string)
    (c : Typography.choice) : Prop :=
  Typography.family c
  = match ranked with
    | top :: _ => if JS.truthy_str top then top else "System Default"
    | [] => "System Default"
    end
  /\ Typography.weights c
     = match ranked with
       | top :: _ => JS.distinct (weights_of calls top)
       | [] => ["400"]
       end
  /\ Typography.fallback c = nth_error ranked 1.

(** A family name as the page reports it: no comma, no quotation mark or
    apostrophe, and nothing for [trim] to remove. *)
Definition clean_name (s : string) : Prop :=
  every (fun c => negb (is_comma c) && negb (is_quote c)) s = true
  /\ JSString.trim s = s.

(** The family names counted for the headings and for the body. *)
Definition headingNames (d : Page.Document) : list string :=
  map (fun h => firstFamily (Page.fontFamily h)) (Page.headings d).

Definition bodyNames (d : Page.Document) : list string :=
  map (fun el => firstFamily (Page.fontFamily el))
    (filter text_sized (Page.bodyElements d)).
(** ** [extractHeroContent] *)

Record HeroContent :=
  { headline : string;
    tagline : string;
    metaDescription : string;
    pageTitle : string }.

(** [el?.textContent?.trim() || ""] *)
Definition trimmedText (t : option string) : string :=
  match t with
  | Some s => JSString.trim s
  | None => ""
  end.

Definition extractHeroContent (d : Page.Document) : HeroContent :=
  let h1 := Page.h1 d in
  let heroSection := Page.heroSection d in
  let headline := trimmedText (option_map Page.textContent h1) in
  let tagline :=
    match h1 with
    | Some h =>
        match Page.next h with
        | Some (tagName, text) =>
            if String.eqb tagName "P" || String.eqb tagName "H2"
            then JSString.trim text else ""
        | None => ""
        end
    | None => ""
    end in
  let '(headline, tagline) :=
    match heroSection with
    | Some hero =>
        if negb (JS.truthy_str headline) then
          (trimmedText (Page.heroHeading hero), trimmedText (Page.heroParagraph hero))
        else (headline, tagline)
    | None => (headline, tagline)
    end in
  let metaDesc := match Page.metaDescription d with Some c => c | None => "" end in
  {| headline := JS.slice 0 200 headline;
     tagline := JS.slice 0 500 tagline;
     metaDescription := JS.slice 0 300 metaDesc;
     pageTitle := Page.title d |}.

(** ** [ToneAnalyzer.fallbackAnalysis] ([src/server/analyzer.js]) *)

Record Analysis :=
  { tone : string;
    audience : string;
    vibe : string;
    personality : string;
    summary : string;
    note : string }.

Definition fallbackAnalysis (heroContent : HeroContent) : Analysis :=
  let text :=
    JS.toLowerCase
      (headline heroContent ++ " " ++ tagline heroContent ++ " "
       ++ metaDescription heroContent) in
  let includes (word : string) := JSString.includes word text in
  let '(tone, audience) :=
    if includes "enterprise" || includes "business" || includes "solution"
    then ("Corporate", "Enterprise Teams")
    else if includes "developer" || includes "api" || includes "code"
            || includes "build"
    then ("Technical", "Developers")
    else if includes "ai" || includes "intelligent" || includes "automat"
    then ("Innovative", "Tech-Forward Teams")
    else if includes "simple" || includes "easy" || includes "fast"
    then ("Friendly", "Small Businesses")
    else ("Professional", "General") in
  let vibe :=
    if includes "ai" || includes "future" || includes "next" then "Tech Forward"
    else if includes "premium" || includes "luxury" then "Premium"
    else if includes "startup" || includes "grow" then "Startup Energy"
    else "Modern" in
  {| tone := tone;
     audience := audience;
     vibe := vibe;
     personality := "Modern, Focused, Clear";
     summary := "A modern digital presence focused on clear communication.";
     note := "Analysis generated without LLM - add OPENAI_API_KEY for deeper insights" |}.

(** The three fields [fallbackAnalysis] reads. *)
Definition analysed_fields (h : HeroContent) : list string :=
  [headline h; tagline h; metaDescription h].
(** ** A concrete document used as an example *)

Definition box (w h t : float) : Page.Rect :=
  {| Page.width := w; Page.height := h; Page.top := t |}.

(** An element with the given background and text colours. *)
Definition styled (bg fg : string) (r : Page.Rect) : Page.Element :=
  {| Page.backgroundColor := bg;
     Page.color := fg;
     Page.borderColor := fg;
     Page.fill := "rgb(0, 0, 0)";
     Page.rect := r;
     Page.fillAttr := None;
     Page.strokeAttr := None |}.

(** A shape painted with the given [fill] attribute. *)
Definition shape (fill : string) : Page.Element :=
  {| Page.backgroundColor := "rgba(0, 0, 0, 0)";
     Page.color := "rgb(0, 0, 0)";
     Page.borderColor := "rgb(0, 0, 0)";
     Page.fill := "rgb(34, 170, 85)";
     Page.rect := box 40 40 10;
     Page.fillAttr := Some fill;
     Page.strokeAttr := Some "none" |}.

Definition font (family size weight : string) : Page.Font :=
  {| Page.fontFamily := family; Page.fontSize := size; Page.fontWeight := weight |}.

(** A landing page: an orange call-to-action button, blue links, a white
    hero, a green logo drawn inline in the header, a PNG logo image and a
    favicon. *)
Definition landing_page : Page.Document :=
  {| Page.buttons := [styled "rgb(255, 80, 0)" "rgb(255, 255, 255)" (box 200 50 300)];
     Page.links :=
       [styled "rgba(0, 0, 0, 0)" "rgb(51, 102, 153)" (box 80 20 20);
        styled "rgba(0, 0, 0, 0)" "rgb(51, 102, 153)" (box 80 20 40);
        styled "rgba(0, 0, 0, 0)" "rgb(34, 34, 34)" (box 80 20 60)];
     Page.sections := [styled "rgb(255, 255, 255)" "rgb(0, 0, 0)" (box 1920 1080 0)];
     Page.textElements :=
       [styled "rgba(0, 0, 0, 0)" "rgb(0, 0, 0)" (box 600 40 120);
        styled "rgba(0, 0, 0, 0)" "rgb(51, 51, 51)" (box 600 20 180)];
     Page.allElements :=
       [styled "rgb(255, 80, 0)" "rgb(255, 255, 255)" (box 200 50 300);
        styled "rgba(0, 0, 0, 0)" "rgb(51, 102, 153)" (box 80 20 20)];
     Page.svgs :=
       [ {| Page.svg := styled "rgba(0, 0, 0, 0)" "rgb(0, 0, 0)" (box 40 40 10);
            Page.inHeader := true;
            Page.svgElements := [shape "#2A5"] |} ];
     Page.accents :=
       [[]; []; [styled "rgb(255, 80, 0)" "rgb(255, 255, 255)" (box 200 50 300)];
        []; []; []; []; []; []];
     Page.innerHeight := 1080;
     Page.origin := "https://example.com";
     Page.images :=
       [ {| Page.src := "/assets/Logo.png";
            Page.dataSrc := None;
            Page.alt := "Example";
            Page.className := "";
            Page.id := "";
            Page.inHeaderNav := false;
            Page.naturalWidth := 120;
            Page.naturalHeight := 40;
            Page.imgRect := box 120 40 10 |} ];
     Page.headerNav := [[ {| Page.svgRect := box 40 40 10; Page.encoded := "%3Csvg%3E" |} ]];
     Page.favicon := Some "/favicon.ico";
     Page.h1 := Some {| Page.textContent := "  Email made simple ";
                        Page.next := Some ("P", "For business teams") |};
     Page.heroSection := None;
     Page.metaDescription := None;
     Page.title := "Example";
     Page.headings :=
       [font "Georgia, serif" "48px" "700"; font "Inter, sans-serif" "32px" "600";
        font "Inter, sans-serif" "24px" "600"];
     Page.bodyElements :=
       [font "Inter, sans-serif" "16px" "400"; font "Inter, sans-serif" "16px" "500";
        font "Inter, sans-serif" "11px" "400"; font "monospace" "14px" "400"] |}.


(** Hero content that differs from that of [landing_page] in letter case
    and in the page title only. *)
Definition shouted : HeroContent :=
  {| headline := "EMAIL MADE SIMPLE";
     tagline := "For Business Teams";
     metaDescription := "";
     pageTitle := "" |}.
(** ** Facts about the JavaScript primitives *)

Lemma find_ext {A : Type} (f g : A -> bool) (l : list A) :
  (forall x, In x l -> f x = g x) -> find f l = find g l.
Proof.
  induction l as [|a l IH]; intros H; simpl; [reflexivity|].
  rewrite (H a (or_introl eq_refl)).
  destruct (g a); [reflexivity|].
  apply IH. intros x Hx. apply H. now right.
Qed.

Section SortFacts.
Context {A : Type} (after : A -> A -> bool).

Lemma insert_perm (x : A) (l : list A) :
  Permutation (JS.insert after x l) (x :: l).
Proof.
  induction l as [|y l IH]; simpl; [reflexivity|].
  destruct (after x y); [|reflexivity].
  rewrite IH. apply perm_swap.
Qed.

Lemma sort_perm (l : list A) : Permutation (JS.sort after l) l.
Proof.
  induction l as [|x l IH]; simpl; [reflexivity|].
  rewrite insert_perm. now constructor.
Qed.

Lemma sort_In (l : list A) (x : A) : In x (JS.sort after l) <-> In x l.
Proof.
  split; apply Permutation_in; [|symmetry]; apply sort_perm.
Qed.
End SortFacts.

(** Comparing with a positive constant already excludes [0] and [NaN]. *)
Lemma ltb_50_truthy (v : float) : (50 <? v) = true -> JS.truthy v = true.
Proof.
  unfold JS.truthy, is_nan. rewrite FloatAxioms.ltb_spec, !FloatAxioms.eqb_spec.
  replace (Prim2SF 50) with (S754_finite false 7036874417766400 (-47))
    by (vm_compute; reflexivity).
  replace (Prim2SF 0) with (S754_zero false) by (vm_compute; reflexivity).
  destruct (Prim2SF v) as [[]|[]| |[] m e]; unfold SFltb, SFeqb; simpl;
    try discriminate; intros _;
    rewrite ?Z.compare_refl, ?Pos.compare_cont_refl; reflexivity.
Qed.

Lemma button_over_50_subtotal (e : ScoreEntry) :
  button_over_50 e = (50 <? subtotal button e).
Proof.
  unfold button_over_50, subtotal.
  destruct (Assoc.get category_eqb button (categories e)) as [v|]; [|reflexivity].
  destruct (50 <? v) eqn:H; [|apply andb_false_r].
  now rewrite (ltb_50_truthy v H).
Qed.

Lemma cat_truthy_subtotal (cat : category) (e : ScoreEntry) :
  cat_truthy cat e = nonzero (subtotal cat e).
Proof.
  unfold cat_truthy, subtotal, nonzero.
  now destruct (Assoc.get category_eqb cat (categories e)).
Qed.

(** ** Keys of the score map are never empty *)

Lemma toLowerCase_truthy (s : string) :
  JS.truthy_str (JS.toLowerCase s) = JS.truthy_str s.
Proof. now destruct s. Qed.


Lemma set_keys_truthy (k : string) (v : ScoreEntry) (m : ScoreMap) :
  JS.truthy_str k = true -> keys_truthy m ->
  keys_truthy (Assoc.set String.eqb k v m).
Proof.
  intros Hk Hm. induction Hm as [|[k' v'] m Hx Hm IH]; simpl.
  - repeat constructor. exact Hk.
  - destruct (String.eqb k k'); constructor; assumption.
Qed.

Lemma addScore_keys_truthy c sc cat (m : ScoreMap) :
  keys_truthy m -> keys_truthy (addScore c sc cat m).
Proof.
  intros Hm. unfold addScore.
  destruct (JS.truthy_str c) eqn:Hc; simpl; [|exact Hm].
  apply set_keys_truthy; [|exact Hm].
  now rewrite toLowerCase_truthy.
Qed.

Lemma fold_keys_truthy {A : Type} (f : ScoreMap -> A -> ScoreMap) (l : list A) :
  (forall m a, keys_truthy m -> keys_truthy (f m a)) ->
  forall m, keys_truthy m -> keys_truthy (fold_left f l m).
Proof.
  intros Hf. induction l as [|a l IH]; intros m Hm; simpl; [exact Hm|].
  apply IH, Hf, Hm.
Qed.

Lemma colorScores_keys_truthy (cd : ColorData) : keys_truthy (colorScores cd).
Proof.
  unfold colorScores, scoreAccents, scoreSvgs, scoreBorders, scoreBackgrounds,
    scoreLinks, scoreButtons.
  repeat (apply fold_keys_truthy;
          [intros m a Hm; try destruct a as [c n];
           try destruct (0.3 <? getColorVibrancy c);
           auto using addScore_keys_truthy|]).
  constructor.
Qed.

Lemma sortedColors_keys_truthy (cd : ColorData) : keys_truthy (sortedColors cd).
Proof.
  unfold keys_truthy, sortedColors. rewrite Forall_forall. intros x Hx.
  apply sort_In, filter_In in Hx. destruct Hx as [Hx _].
  pose proof (colorScores_keys_truthy cd) as H.
  unfold keys_truthy in H. rewrite Forall_forall in H. now apply H.
Qed.

(** ** Exhaustive checks over characters and channel values *)

Lemma in_all_ascii (c : ascii) : In c all_ascii.
Proof.
  unfold all_ascii. rewrite <- (ascii_nat_embedding c).
  apply in_map, in_seq. pose proof (nat_ascii_bounded c). lia.
Qed.

Lemma in_byte_table (n : Z) : (0 <= n <= 255)%Z -> In (n, JS.of_Z n) byte_table.
Proof.
  intros H. unfold byte_table, all_bytes.
  apply (in_map (fun n => (n, JS.of_Z n))).
  rewrite <- (Z2Nat.id n) by lia. apply in_map, in_seq. lia.
Qed.

(** A property of two channel values and their doubles holds when it holds
    on the whole table. *)
Lemma forall_bytes2 (P : Z -> float -> Z -> float -> bool) :
  (let t := byte_table in
   forallb (fun x => forallb (fun y => P (fst x) (snd x) (fst y) (snd y)) t) t) = true ->
  forall a b, (0 <= a <= 255)%Z -> (0 <= b <= 255)%Z ->
    P a (JS.of_Z a) b (JS.of_Z b) = true.
Proof.
  cbv zeta. intros H a b Ha Hb. rewrite forallb_forall in H.
  specialize (H _ (in_byte_table a Ha)). rewrite forallb_forall in H.
  exact (H _ (in_byte_table b Hb)).
Qed.

Lemma hex_digit_chars (c : ascii) (d : Z) :
  JS.hex_digit c = Some d -> In c hex_chars.
Proof.
  intros Hd.
  assert (H : forallb (fun c => match JS.hex_digit c with
                                | Some _ => existsb (Ascii.eqb c) hex_chars
                                | None => true
                                end) all_ascii = true) by (vm_compute; reflexivity).
  rewrite forallb_forall in H. specialize (H c (in_all_ascii c)).
  rewrite Hd in H. apply existsb_exists in H. destruct H as (c' & Hin & Heq).
  apply Ascii.eqb_eq in Heq. now subst c'.
Qed.

(** [parseInt] reads two hexadecimal digits as the integer they write. *)
Lemma parseInt16_hex_pair (c1 c2 : ascii) (n : Z) :
  hex_pair c1 c2 = Some n ->
  JS.parseInt16 (String c1 (String c2 EmptyString)) = JS.of_Z n
  /\ (0 <= n <= 255)%Z.
Proof.
  intros Hn.
  assert (Hc : In c1 hex_chars /\ In c2 hex_chars).
  { unfold hex_pair in Hn.
    destruct (JS.hex_digit c1) as [d1|] eqn:E1; [|discriminate].
    destruct (JS.hex_digit c2) as [d2|] eqn:E2; [|discriminate].
    split; eapply hex_digit_chars; eassumption. }
  destruct Hc as [H1 H2].
  assert (H : forallb (fun c1 => forallb (fun c2 =>
                match hex_pair c1 c2 with
                | Some n =>
                    Leibniz.eqb (JS.parseInt16 (String c1 (String c2 EmptyString)))
                      (JS.of_Z n)
                    && (0 <=? n)%Z && (n <=? 255)%Z
                | None => true
                end) hex_chars) hex_chars = true) by (vm_compute; reflexivity).
  rewrite forallb_forall in H. specialize (H c1 H1).
  rewrite forallb_forall in H. specialize (H c2 H2).
  rewrite Hn in H.
  apply andb_prop in H. destruct H as [H H5].
  apply andb_prop in H. destruct H as [H3 H4].
  apply FloatAxioms.Leibniz.eqb_spec in H3. split; [exact H3|lia].
Qed.

Lemma channels_well_formed (hex : string) (r g b : Z) :
  rgb_of_hex hex = Some (r, g, b) ->
  channels hex = (JS.of_Z r, JS.of_Z g, JS.of_Z b)
  /\ (0 <= r <= 255)%Z /\ (0 <= g <= 255)%Z /\ (0 <= b <= 255)%Z.
Proof.
  unfold rgb_of_hex. intros H.
  destruct hex as [|c0 [|r1 [|r2 [|g1 [|g2 [|b1 [|b2 [|]]]]]]]]; try discriminate;
    try (destruct c0 as [[] [] [] [] [] [] [] []]; discriminate).
  destruct c0 as [[] [] [] [] [] [] [] []]; try discriminate.
  destruct (hex_pair r1 r2) as [r'|] eqn:Hr; [|discriminate].
  destruct (hex_pair g1 g2) as [g'|] eqn:Hg; [|discriminate].
  destruct (hex_pair b1 b2) as [b'|] eqn:Hb; [|discriminate].
  injection H as -> -> ->.
  destruct (parseInt16_hex_pair _ _ _ Hr) as [Er Br].
  destruct (parseInt16_hex_pair _ _ _ Hg) as [Eg Bg].
  destruct (parseInt16_hex_pair _ _ _ Hb) as [Eb Bb].
  unfold channels, JS.slice. cbn [substring Nat.sub].
  rewrite Er, Eg, Eb. auto.
Qed.

(** On channel values [Math.max] and [Math.min] are the integer ones. *)
Lemma max2_bytes (a b : Z) :
  (0 <= a <= 255)%Z -> (0 <= b <= 255)%Z ->
  JS.max2 (JS.of_Z a) (JS.of_Z b) = JS.of_Z (Z.max a b)
  /\ JS.min2 (JS.of_Z a) (JS.of_Z b) = JS.of_Z (Z.min a b).
Proof.
  intros Ha Hb.
  pose proof (forall_bytes2
    (fun a fa b fb =>
       Leibniz.eqb (JS.max2 fa fb) (if (a <? b)%Z then fb else fa)
       && Leibniz.eqb (JS.min2 fa fb) (if (a <? b)%Z then fa else fb))) as H.
  specialize (H ltac:(vm_compute; reflexivity) a b Ha Hb). cbv beta in H.
  apply andb_prop in H. destruct H as [H1 H2].
  apply FloatAxioms.Leibniz.eqb_spec in H1, H2. rewrite H1, H2.
  destruct (Z.ltb_spec a b).
  - now rewrite Z.max_r, Z.min_l by lia.
  - now rewrite Z.max_l, Z.min_r by lia.
Qed.

Lemma Math_max_min_bytes (r g b : Z) :
  (0 <= r <= 255)%Z -> (0 <= g <= 255)%Z -> (0 <= b <= 255)%Z ->
  JS.Math_max (JS.of_Z r) (JS.of_Z g) (JS.of_Z b) = JS.of_Z (Z.max (Z.max r g) b)
  /\ JS.Math_min (JS.of_Z r) (JS.of_Z g) (JS.of_Z b) = JS.of_Z (Z.min (Z.min r g) b).
Proof.
  intros Hr Hg Hb. unfold JS.Math_max, JS.Math_min.
  destruct (max2_bytes r g Hr Hg) as [-> ->].
  split; [apply max2_bytes|apply (max2_bytes (Z.min r g) b)]; lia.
Qed.

Lemma saturation_well_formed (hex : string) (r g b : Z) :
  rgb_of_hex hex = Some (r, g, b) ->
  saturation hex = byte_saturation (Z.max (Z.max r g) b) (Z.min (Z.min r g) b).
Proof.
  intros H. destruct (channels_well_formed hex r g b H) as (Hc & Hr & Hg & Hb).
  unfold saturation. rewrite Hc.
  destruct (Math_max_min_bytes r g b Hr Hg Hb) as [-> ->]. reflexivity.
Qed.

(** The comparison with the double nearest to 0.15 decides the exact
    inequality [(mx - mn) / mx < 15/100]. *)
Lemma byte_saturation_lt_015 (mx mn : Z) :
  (0 <= mx <= 255)%Z -> (0 <= mn <= 255)%Z -> (mn <= mx)%Z ->
  (byte_saturation mx mn <? 0.15)
  = ((mx =? 0)%Z || (20 * (mx - mn) <? 3 * mx)%Z)
  /\ is_nan (byte_saturation mx mn) = false
  /\ (mx = 0%Z -> byte_saturation mx mn = 0).
Proof.
  intros Hmx Hmn Hle.
  pose proof (forall_bytes2
    (fun mx fmx mn fmn =>
       negb (mn <=? mx)%Z
       || let s := saturation_of fmx fmn in
          Bool.eqb (s <? 0.15) ((mx =? 0)%Z || (20 * (mx - mn) <? 3 * mx)%Z)
          && negb (is_nan s)
          && (negb (mx =? 0)%Z || Leibniz.eqb s 0))) as H.
  specialize (H ltac:(vm_compute; reflexivity) mx mn Hmx Hmn). cbv beta zeta in H.
  fold (byte_saturation mx mn) in H.
  apply orb_prop in H. destruct H as [H|H].
  - apply negb_true_iff, Z.leb_gt in H. lia.
  - apply andb_prop in H. destruct H as [H H3].
    apply andb_prop in H. destruct H as [H1 H2].
    apply Bool.eqb_prop in H1. apply negb_true_iff in H2.
    repeat split; [exact H1|exact H2|].
    intros ->. simpl in H3. now apply FloatAxioms.Leibniz.eqb_spec.
Qed.

(** ** Binary64 arithmetic

    Facts about the IEEE-754 operations, derived from their specification
    in [SpecFloat] ([prec = 53], [emax = 1024]). *)

Module Binary64Facts.
Import Binary64.
#[local] Open Scope Z_scope.

Lemma digits_bounds (m : positive) :
  2 ^ (digits m - 1) <= Z.pos m < 2 ^ digits m.
Proof.
  induction m as [p IH|p IH|]; cbn [digits2_pos].
  - rewrite Pos2Z.inj_succ, (Pos2Z.inj_xI p).
    replace (Z.succ (digits p) - 1) with (Z.succ (digits p - 1)) by lia.
    rewrite !Z.pow_succ_r by lia. lia.
  - rewrite Pos2Z.inj_succ, (Pos2Z.inj_xO p).
    replace (Z.succ (digits p) - 1) with (Z.succ (digits p - 1)) by lia.
    rewrite !Z.pow_succ_r by lia. lia.
  - simpl. lia.
Qed.

Lemma pow2_pos (a : Z) : 0 <= a -> 0 < 2 ^ a.
Proof. intros. now apply Z.pow_pos_nonneg. Qed.

Lemma pow2_le (a b : Z) : a <= b -> 2 ^ a <= 2 ^ b.
Proof. intros. apply Z.pow_le_mono_r; lia. Qed.

Lemma pow2_split (a b : Z) : 0 <= a -> 0 <= b -> 2 ^ (a + b) = 2 ^ a * 2 ^ b.
Proof. intros. now apply Z.pow_add_r. Qed.

Lemma div_div_pow2 (a b c : Z) :
  0 < b -> 0 <= c -> a / b / 2 ^ c = a / (b * 2 ^ c).
Proof.
  intros Hb Hc. apply Z.div_div; [lia|now apply pow2_pos].
Qed.

Lemma div_pow2_lower (m M n : Z) : 0 <= n -> m * 2 ^ n <= M -> m <= M / 2 ^ n.
Proof.
  intros Hn H. apply Z.div_le_lower_bound; [now apply pow2_pos|lia].
Qed.

(** A valid finite double has an exponent between [emin] and
    [emax - prec], at most 53 digits, and exactly 53 unless subnormal. *)
Lemma bounded_facts (m : positive) (e : Z) :
  bounded prec emax m e = true ->
  -1074 <= e <= 971 /\ digits m <= 53 /\ (-1074 < e -> digits m = 53).
Proof.
  unfold bounded, canonical_mantissa, fexp, SpecFloat.emin, prec, emax.
  intros H. apply andb_prop in H. destruct H as [H1 H2].
  apply Z.eqb_eq in H1. apply Z.leb_le in H2. lia.
Qed.

Lemma fexp_eq (e : Z) : fexp prec emax e = Z.max (e - 53) (-1074).
Proof. reflexivity. Qed.

(** *** Right shifts *)

Lemma shr_1_m (r : shr_record) : 0 <= shr_m r -> shr_m (shr_1 r) = shr_m r / 2.
Proof.
  destruct r as [m rb sb]. cbn [shr_m].
  destruct m as [|[p|p|]|p]; intros H; cbn [shr_1 shr_m]; try lia.
  - reflexivity.
  - rewrite (Pos2Z.inj_xI p). apply Z.div_unique with 1; lia.
  - rewrite (Pos2Z.inj_xO p). apply Z.div_unique with 0; lia.
  - reflexivity.
Qed.

Lemma iter_shr_m (p : positive) (r : shr_record) :
  0 <= shr_m r -> shr_m (SpecFloat.iter_pos shr_1 p r) = shr_m r / 2 ^ Z.pos p.
Proof.
  revert r. induction p as [p IH|p IH|]; intros r Hr; cbn [SpecFloat.iter_pos].
  - assert (H1 : 0 <= shr_m (shr_1 r))
      by (rewrite shr_1_m by exact Hr; apply Z.div_pos; lia).
    assert (H2 : 0 <= shr_m (SpecFloat.iter_pos shr_1 p (shr_1 r)))
      by (rewrite IH by exact H1; apply Z.div_pos; [lia|now apply pow2_pos]).
    rewrite IH by exact H2. rewrite IH by exact H1. rewrite shr_1_m by exact Hr.
    pose proof (pow2_pos (Z.pos p) ltac:(lia)) as Hp.
    assert (Hpow : 2 ^ Z.pos p~1 = 2 * 2 ^ Z.pos p * 2 ^ Z.pos p).
    { rewrite (Pos2Z.inj_xI p).
      replace (2 * Z.pos p + 1) with (1 + Z.pos p + Z.pos p) by lia.
      now rewrite !pow2_split by lia. }
    rewrite Hpow, (Z.div_div _ 2) by lia.
    now rewrite div_div_pow2 by lia.
  - assert (H1 : 0 <= shr_m (SpecFloat.iter_pos shr_1 p r))
      by (rewrite IH by exact Hr; apply Z.div_pos; [lia|now apply pow2_pos]).
    rewrite IH by exact H1. rewrite IH by exact Hr.
    pose proof (pow2_pos (Z.pos p) ltac:(lia)) as Hp.
    assert (Hpow : 2 ^ Z.pos p~0 = 2 ^ Z.pos p * 2 ^ Z.pos p).
    { rewrite (Pos2Z.inj_xO p).
      replace (2 * Z.pos p) with (Z.pos p + Z.pos p) by lia.
      now rewrite pow2_split by lia. }
    rewrite Hpow. now rewrite div_div_pow2 by lia.
  - rewrite shr_1_m by exact Hr. reflexivity.
Qed.

Lemma shr_record_of_loc_m (m : Z) (l : location) :
  shr_m (shr_record_of_loc m l) = m.
Proof. now destruct l as [|[]]. Qed.

(** [shr_fexp] divides by [2 ^ n] when [n = fexp (digits + e) - e] is
    positive and leaves its argument unchanged otherwise. *)
Lemma shr_fexp_spec (m e : Z) (l : location) :
  0 <= m ->
  let n := fexp prec emax (Zdigits2 m + e) - e in
  (0 < n /\ shr_m (fst (shr_fexp prec emax m e l)) = m / 2 ^ n
   /\ snd (shr_fexp prec emax m e l) = e + n)
  \/ (n <= 0 /\ fst (shr_fexp prec emax m e l) = shr_record_of_loc m l
      /\ snd (shr_fexp prec emax m e l) = e).
Proof.
  intros Hm n. unfold shr_fexp. fold n.
  destruct n as [|p|p] eqn:En; cbn [shr fst snd].
  - right. split; [lia|]. split; reflexivity.
  - left. split; [lia|]. split; [|reflexivity].
    rewrite iter_shr_m by (now rewrite shr_record_of_loc_m).
    now rewrite shr_record_of_loc_m.
  - right. split; [lia|]. split; reflexivity.
Qed.

Lemma round_nearest_even_bounds (m : Z) (l : location) :
  m <= round_nearest_even m l <= m + 1.
Proof.
  destruct l as [|[]]; cbn [round_nearest_even]; try lia.
  destruct (Z.even m); lia.
Qed.

(** *** Order on positive finite values *)


Lemma SFleb_finite_pos (m1 : positive) (e1 : Z) (m2 : positive) (e2 : Z) :
  SFleb (finite_pos m1 e1) (finite_pos m2 e2) = true
  <-> lex_le e1 (Z.pos m1) e2 (Z.pos m2).
Proof.
  unfold SFleb, SFcompare, lex_le. change (Pos.compare_cont Eq m1 m2) with (m1 ?= m2)%positive.
  destruct (Z.compare_spec e1 e2) as [He|He|He].
  - destruct (Pos.compare_spec m1 m2) as [Hm|Hm|Hm]; split; intros H;
      try reflexivity; try discriminate; lia.
  - split; [intros _; lia|reflexivity].
  - split; [discriminate|lia].
Qed.

(** *** Rounding never goes below a representable lower bound *)

(** [binary_round_aux] applied to a value that is at least [M * 2 ^ E]
    (exactly that value when the location is exact) returns a double that
    is at least any valid double [mf * 2 ^ ef] below [M * 2 ^ E] ([K] is
    any common lower bound of the exponents). *)
Lemma round_aux_lower (mf : positive) (ef : Z) (M : positive) (E K : Z) (l : location) :
  bounded prec emax mf ef = true ->
  K <= ef -> K <= E ->
  Z.pos mf * 2 ^ (ef - K) <= Z.pos M * 2 ^ (E - K) ->
  SFleb (finite_pos mf ef) (binary_round_aux prec emax false (Z.pos M) E l) = true.
Proof.
  intros Hb HKf HKE Hle.
  destruct (bounded_facts mf ef Hb) as (Hef & Hdf & Hnorm).
  pose proof (digits_bounds mf) as Hmf.
  pose proof (digits_bounds M) as HM.
  unfold binary_round_aux.
  destruct (shr_fexp prec emax (Z.pos M) E l) as [r1 e1] eqn:E1.
  pose proof (shr_fexp_spec (Z.pos M) E l ltac:(lia)) as S1.
  rewrite E1 in S1. cbn [fst snd Zdigits2] in S1. rewrite fexp_eq in S1.
  set (m1 := shr_m r1) in *.
  pose proof (round_nearest_even_bounds m1 (loc_of_shr_record r1)) as Hr.
  set (q := round_nearest_even m1 (loc_of_shr_record r1)) in *.
  (* the truncated mantissa is positive and not below the bound *)
  assert (HA : 1 <= m1 /\ lex_le ef (Z.pos mf) e1 m1 /\ -1074 <= e1).
  { destruct S1 as [(Hn & Hm1 & He1)|(Hn & Hr1 & He1)].
    - set (n := Z.max (digits M + E - 53) (-1074) - E) in *.
      assert (Hcases : ef < e1 \/ ef = e1 \/ e1 < ef) by lia.
      destruct Hcases as [Hlt|[Heq|Hgt]].
      + assert (Hn' : n = digits M - 53) by lia.
        assert (1 <= m1); [|unfold lex_le; lia].
        fold m1 in Hm1. rewrite Hm1. apply div_pow2_lower; [lia|].
        pose proof (pow2_le n (digits M - 1)). lia.
      + assert (Z.pos mf <= m1); [|unfold lex_le; lia].
        fold m1 in Hm1. rewrite Hm1. apply div_pow2_lower; [lia|].
        replace (ef - K) with (n + (E - K)) in Hle by lia.
        rewrite pow2_split in Hle by lia.
        pose proof (pow2_pos (E - K)). nia.
      + exfalso.
        assert (H53 : digits mf = 53) by lia. rewrite H53 in Hmf.
        pose proof (pow2_le (digits M + (E - K)) (52 + (ef - K))) as Hp.
        rewrite !pow2_split in Hp by lia.
        pose proof (pow2_pos (E - K)). pose proof (pow2_pos (ef - K)).
        change (2 ^ (53 - 1)) with (2 ^ 52) in Hmf.
        nia.
    - subst e1. unfold m1. rewrite Hr1, shr_record_of_loc_m.
      split; [lia|]. split; [|lia].
      assert (Hcases : ef < E \/ ef = E \/ E < ef) by lia.
      destruct Hcases as [Hlt|[Heq|Hgt]]; unfold lex_le.
      + lia.
      + subst ef. pose proof (pow2_pos (E - K)). nia.
      + exfalso.
        assert (H53 : digits mf = 53) by lia. rewrite H53 in Hmf.
        change (2 ^ (53 - 1)) with (2 ^ 52) in Hmf.
        replace (ef - K) with ((ef - E) + (E - K)) in Hle by lia.
        rewrite pow2_split in Hle by lia.
        pose proof (pow2_pos (E - K) ltac:(lia)) as HP.
        pose proof (pow2_le 1 (ef - E) ltac:(lia)) as HX.
        pose proof (pow2_le (digits M) 53 ltac:(lia)) as HD.
        change (2 ^ 1) with 2 in HX.
        set (P := 2 ^ (E - K)) in *. set (X := 2 ^ (ef - E)) in *.
        assert (H1 : 2 ^ 53 <= Z.pos mf * X) by (change (2 ^ 53) with (2 ^ 52 * 2); nia).
        assert (H2 : 2 ^ 53 * P <= Z.pos M * P) by nia.
        assert (H3 : 2 ^ 53 <= Z.pos M) by nia.
        lia. }
  destruct HA as (Hm1 & Hlex1 & He1).
  destruct (shr_fexp prec emax q e1 loc_Exact) as [r2 e2] eqn:E2.
  pose proof (shr_fexp_spec q e1 loc_Exact ltac:(lia)) as S2.
  rewrite E2 in S2. cbn [fst snd] in S2. rewrite fexp_eq in S2.
  destruct q as [|qp|qp] eqn:Eq; try lia. cbn [Zdigits2] in S2.
  pose proof (digits_bounds qp) as Hq.
  assert (HB : 1 <= shr_m r2 /\ lex_le e1 m1 e2 (shr_m r2)).
  { destruct S2 as [(Hn & Hm2 & He2)|(Hn & Hr2 & He2)].
    - set (n := Z.max (digits qp + e1 - 53) (-1074) - e1) in *.
      assert (Hn' : n = digits qp - 53) by lia.
      assert (1 <= shr_m r2); [|unfold lex_le; lia].
      rewrite Hm2. apply div_pow2_lower; [lia|].
      pose proof (pow2_le n (digits qp - 1)). lia.
    - rewrite Hr2. cbn [shr_record_of_loc shr_m]. unfold lex_le. lia. }
  destruct HB as (Hm2 & Hlex2).
  destruct (shr_m r2) as [|m2|m2]; try lia.
  destruct (e2 <=? emax - prec); [|reflexivity].
  apply SFleb_finite_pos. unfold lex_le in *. lia.
Qed.

(** *** The order of doubles: [SFcompare] compares ranks *)


Lemma SFcompare_rank (x y : spec_float) :
  is_number x -> is_number y ->
  match SFcompare x y with
  | Some Lt => lex_lt (rank x) (rank y)
  | Some Eq => rank x = rank y
  | Some Gt => lex_lt (rank y) (rank x)
  | None => False
  end.
Proof.
  unfold is_number. intros Hx Hy.
  destruct x as [sx|sx| |sx mx ex], y as [sy|sy| |sy my ey]; try congruence;
    try destruct sx; try destruct sy; cbn [SFcompare rank lex_lt]; try lia;
    try reflexivity.
  - change (Pos.compare_cont Eq mx my) with (mx ?= my)%positive.
    destruct (Z.compare_spec ex ey); [|lia|lia].
    destruct (Pos.compare_spec mx my); cbn [CompOpp]; subst;
      try reflexivity; lia.
  - change (Pos.compare_cont Eq mx my) with (mx ?= my)%positive.
    destruct (Z.compare_spec ex ey); [|lia|lia].
    destruct (Pos.compare_spec mx my); subst; try reflexivity; lia.
Qed.

Lemma lex_lt_irrefl (a : Z * Z * Z) : ~ lex_lt a a.
Proof. destruct a as [[a1 a2] a3]. unfold lex_lt. lia. Qed.

Lemma lex_lt_asym (a b : Z * Z * Z) : lex_lt a b -> ~ lex_lt b a.
Proof.
  destruct a as [[a1 a2] a3], b as [[b1 b2] b3]. unfold lex_lt. lia.
Qed.

Lemma lex_lt_trans (a b c : Z * Z * Z) : lex_lt a b -> lex_lt b c -> lex_lt a c.
Proof.
  destruct a as [[a1 a2] a3], b as [[b1 b2] b3], c as [[c1 c2] c3].
  unfold lex_lt. lia.
Qed.

Lemma lex_lt_total (a b : Z * Z * Z) : lex_lt a b \/ a = b \/ lex_lt b a.
Proof.
  destruct a as [[a1 a2] a3], b as [[b1 b2] b3]. unfold lex_lt.
  assert (H : a1 < b1 \/ b1 < a1 \/ (a1 = b1 /\ (a2 < b2 \/ b2 < a2
              \/ (a2 = b2 /\ (a3 < b3 \/ b3 < a3 \/ a3 = b3))))) by lia.
  destruct H as [H|[H|(-> & [H|[H|(-> & [H|[H| ->]])]])]]; auto;
    try (left; lia); try (right; right; lia).
Qed.

Lemma SFltb_rank (x y : spec_float) :
  is_number x -> is_number y ->
  (SFltb x y = true <-> lex_lt (rank x) (rank y)).
Proof.
  intros Hx Hy. pose proof (SFcompare_rank x y Hx Hy) as H. unfold SFltb.
  destruct (SFcompare x y) as [[]|]; try tauto; split; try discriminate;
    try reflexivity; intros H'.
  - rewrite H in H'. now apply lex_lt_irrefl in H'.
  - now apply lex_lt_asym in H'.
Qed.

Lemma SFleb_rank (x y : spec_float) :
  is_number x -> is_number y ->
  (SFleb x y = true <-> ~ lex_lt (rank y) (rank x)).
Proof.
  intros Hx Hy. pose proof (SFcompare_rank x y Hx Hy) as H. unfold SFleb.
  destruct (SFcompare x y) as [[]|]; try tauto; split; try discriminate;
    try reflexivity; intros H'.
  - rewrite H. apply lex_lt_irrefl.
  - now apply lex_lt_asym.
  - tauto.
Qed.

Lemma SFltb_number (x y : spec_float) :
  SFltb x y = true -> is_number x /\ is_number y.
Proof.
  unfold SFltb, is_number.
  destruct x as [[]|[]| |[] ? ?], y as [[]|[]| |[] ? ?]; cbn; intros H;
    try discriminate; split; discriminate.
Qed.

Lemma SFleb_number (x y : spec_float) :
  SFleb x y = true -> is_number x /\ is_number y.
Proof.
  unfold SFleb, is_number.
  destruct x as [[]|[]| |[] ? ?], y as [[]|[]| |[] ? ?]; cbn; intros H;
    try discriminate; split; discriminate.
Qed.

Lemma SFleb_trans (x y z : spec_float) :
  SFleb x y = true -> SFleb y z = true -> SFleb x z = true.
Proof.
  intros Hxy Hyz.
  destruct (SFleb_number _ _ Hxy) as [Hx Hy].
  destruct (SFleb_number _ _ Hyz) as [_ Hz].
  rewrite SFleb_rank in * by assumption.
  intros H. destruct (lex_lt_total (rank y) (rank x)) as [H1|[H1|H1]].
  - tauto.
  - rewrite H1 in Hyz. tauto.
  - apply Hyz. eapply lex_lt_trans; eassumption.
Qed.

Lemma SFltb_leb_trans (x y z : spec_float) :
  SFltb x y = true -> SFleb y z = true -> SFltb x z = true.
Proof.
  intros Hxy Hyz.
  destruct (SFltb_number _ _ Hxy) as [Hx Hy].
  destruct (SFleb_number _ _ Hyz) as [_ Hz].
  rewrite SFltb_rank in * by assumption. rewrite SFleb_rank in Hyz by assumption.
  destruct (lex_lt_total (rank y) (rank z)) as [H1|[H1|H1]].
  - eapply lex_lt_trans; eassumption.
  - now rewrite <- H1.
  - tauto.
Qed.

Lemma SFltb_asym (x y : spec_float) : SFltb x y = true -> SFltb y x = false.
Proof.
  intros Hxy. destruct (SFltb_number _ _ Hxy) as [Hx Hy].
  destruct (SFltb y x) eqn:E; [|reflexivity].
  rewrite SFltb_rank in * by assumption. now apply lex_lt_asym in E.
Qed.

Lemma SFltb_negtrans (x y z : spec_float) :
  is_number y -> SFltb x z = true -> SFltb x y = true \/ SFltb y z = true.
Proof.
  intros Hy Hxz. destruct (SFltb_number _ _ Hxz) as [Hx Hz].
  rewrite !SFltb_rank in * by assumption.
  destruct (lex_lt_total (rank x) (rank y)) as [H1|[H1|H1]].
  - now left.
  - right. now rewrite <- H1.
  - right. eapply lex_lt_trans; eassumption.
Qed.

Lemma SFleb_ltb (x y : spec_float) :
  is_number x -> is_number y -> SFleb x y = negb (SFltb y x).
Proof.
  intros Hx Hy. pose proof (SFleb_rank x y Hx Hy) as H1.
  pose proof (SFltb_rank y x Hy Hx) as H2.
  destruct (SFleb x y), (SFltb y x); try reflexivity; exfalso.
  - apply H1; [reflexivity|]. now apply H2.
  - assert (H : false = true); [|discriminate]. apply H1. intros H.
    apply H2 in H. discriminate.
Qed.

(** *** Alignment and rounding of positive values *)

Lemma iter_xO (m d : positive) : Z.pos (Pos.iter xO m d) = Z.pos m * 2 ^ Z.pos d.
Proof.
  induction d as [|d IH] using Pos.peano_ind.
  - cbn [Pos.iter]. rewrite (Pos2Z.inj_xO m). change (2 ^ 1) with 2. lia.
  - rewrite Pos.iter_succ, (Pos2Z.inj_xO (Pos.iter xO m d)), IH, Pos2Z.inj_succ.
    rewrite Z.pow_succ_r by lia. lia.
Qed.

(** [shl_align m e e'] rewrites [m * 2 ^ e] with exponent [min e e']. *)
Lemma shl_align_spec (m : positive) (e e' : Z) :
  snd (shl_align m e e') = Z.min e e'
  /\ Z.pos (fst (shl_align m e e')) = Z.pos m * 2 ^ (e - Z.min e e').
Proof.
  unfold shl_align. destruct (e' - e) as [|d|d] eqn:Ed; cbn [fst snd].
  - replace (Z.min e e') with e by lia. rewrite Z.sub_diag. split; lia.
  - replace (Z.min e e') with e by lia. rewrite Z.sub_diag. split; lia.
  - replace (Z.min e e') with e' by lia. split; [reflexivity|].
    rewrite iter_xO. f_equal. f_equal. lia.
Qed.

(** The comparison [mf * 2 ^ ef <= M * 2 ^ E] does not depend on the
    common scale [K]. *)
Lemma rescale (a ea b eb K K' : Z) :
  K' <= K -> K <= ea -> K <= eb ->
  a * 2 ^ (ea - K) <= b * 2 ^ (eb - K) ->
  a * 2 ^ (ea - K') <= b * 2 ^ (eb - K').
Proof.
  intros HK Ha Hb H.
  replace (ea - K') with ((ea - K) + (K - K')) by lia.
  replace (eb - K') with ((eb - K) + (K - K')) by lia.
  rewrite !pow2_split by lia.
  pose proof (pow2_pos (K - K') ltac:(lia)). nia.
Qed.

Lemma round_lower (mf : positive) (ef : Z) (M : positive) (E K : Z) :
  bounded prec emax mf ef = true ->
  K <= ef -> K <= E ->
  Z.pos mf * 2 ^ (ef - K) <= Z.pos M * 2 ^ (E - K) ->
  SFleb (finite_pos mf ef) (binary_round prec emax false M E) = true.
Proof.
  intros Hb HKf HKE Hle. unfold binary_round.
  pose proof (shl_align_spec M E (fexp prec emax (digits M + E))) as [He Hm].
  destruct (shl_align M E (fexp prec emax (digits M + E))) as [mz ez].
  cbn [fst snd] in He, Hm.
  apply round_aux_lower with (K := Z.min K ez); [exact Hb|lia|lia|].
  rewrite Hm, <- Z.mul_assoc, <- pow2_split by lia.
  replace (E - Z.min E (fexp prec emax (digits M + E)) + (ez - Z.min K ez))
    with (E - Z.min K ez) by lia.
  apply rescale with (K := K); [lia|lia|lia|exact Hle].
Qed.

(** *** Sums and products of non-negative doubles *)


Lemma SFleb_refl (x : spec_float) : is_number x -> SFleb x x = true.
Proof. intros Hx. apply SFleb_rank; [exact Hx|exact Hx|apply lex_lt_irrefl]. Qed.

Lemma nonneg_number (x : spec_float) : nonneg x -> is_number x.
Proof. destruct x as [| | |]; simpl; intros H; try discriminate. tauto. Qed.

Lemma nonneg_leb_zero (x : spec_float) :
  nonneg x <-> SFleb (S754_zero false) x = true.
Proof. destruct x as [[]|[]| |[] m e]; simpl; split; try tauto; try discriminate; reflexivity. Qed.

(** Adding a non-negative double never gives less than either term. *)
Lemma SFadd_ge (x y : spec_float) :
  valid_binary x = true -> valid_binary y = true ->
  nonneg x -> nonneg y ->
  SFleb x (SFadd prec emax x y) = true /\ SFleb y (SFadd prec emax x y) = true.
Proof.
  intros Vx Vy Hx Hy.
  destruct x as [sx|[]| |[] mx ex], y as [sy|[]| |[] my ey];
    cbn [nonneg] in Hx, Hy; try tauto; clear Hx Hy.
  all: try (cbn [SFadd]; try destruct sx; try destruct sy;
            split; first [reflexivity | apply SFleb_refl; discriminate]).
  - cbn [SpecFloat.valid_binary] in Vx, Vy. cbn [SFadd cond_Zopp].
    pose proof (shl_align_spec mx ex (Z.min ex ey)) as [_ Hax].
    pose proof (shl_align_spec my ey (Z.min ex ey)) as [_ Hay].
    set (ax := fst (shl_align mx ex (Z.min ex ey))) in *.
    set (ay := fst (shl_align my ey (Z.min ex ey))) in *.
    replace (Z.min ex (Z.min ex ey)) with (Z.min ex ey) in Hax by lia.
    replace (Z.min ey (Z.min ex ey)) with (Z.min ex ey) in Hay by lia.
    change (Z.pos ax + Z.pos ay) with (Z.pos (ax + ay)). cbn [binary_normalize].
    split; apply round_lower with (K := Z.min ex ey); try assumption; try lia;
      rewrite Z.sub_diag, Z.mul_1_r, Pos2Z.inj_add; lia.
Qed.

(** Multiplying a positive normal constant [c] by a double that is at
    least one never gives less than [c]. *)
Lemma SFmul_ge (x : spec_float) (mc : positive) (ec : Z) :
  valid_binary x = true -> bounded prec emax mc ec = true ->
  SFleb (finite_pos 4503599627370496 (-52)) x = true ->
  SFleb (finite_pos mc ec) (SFmul prec emax x (finite_pos mc ec)) = true.
Proof.
  intros Vx Vc H1.
  destruct x as [[]|[]| |[] mx ex]; try discriminate H1; [reflexivity|].
  cbn [SpecFloat.valid_binary] in Vx. cbn [SFmul xorb].
  apply SFleb_finite_pos in H1. unfold lex_le in H1.
  destruct (bounded_facts mx ex Vx) as (Hex & Hdx & Hnx).
  pose proof (digits_bounds mx) as Hmx.
  assert (Hbig : -52 <= ex /\ (ex < 0 -> 2 ^ 52 <= Z.pos mx)).
  { split; [lia|]. intros Hneg. rewrite Hnx in Hmx by lia. exact (proj1 Hmx). }
  destruct Hbig as [Hlow Hbig].
  apply round_aux_lower with (K := Z.min ec (ex + ec)); [exact Vc|lia|lia|].
  rewrite Pos2Z.inj_mul.
  destruct (Z.le_gt_cases 0 ex) as [Hpos|Hneg].
  - replace (Z.min ec (ex + ec)) with ec by lia.
    rewrite Z.sub_diag. change (2 ^ 0) with 1.
    replace (ex + ec - ec) with ex by lia.
    pose proof (pow2_pos ex Hpos) as Hp.
    assert (1 <= Z.pos mx * 2 ^ ex) by nia. nia.
  - replace (Z.min ec (ex + ec)) with (ex + ec) by lia.
    rewrite Z.sub_diag. change (2 ^ 0) with 1.
    replace (ec - (ex + ec)) with (- ex) by lia.
    pose proof (pow2_le (- ex) 52 ltac:(lia)). specialize (Hbig Hneg). nia.
Qed.

(** *** Signs *)

Lemma round_aux_nonneg (m e : Z) (l : location) :
  0 <= m -> nonneg (binary_round_aux prec emax false m e l).
Proof.
  intros Hm. unfold binary_round_aux.
  pose proof (shr_fexp_spec m e l Hm) as S1.
  destruct (shr_fexp prec emax m e l) as [r1 e1]. cbn [fst snd] in S1.
  assert (H1 : 0 <= shr_m r1).
  { destruct S1 as [(Hn & -> & _)|(_ & -> & _)].
    - apply Z.div_pos; [exact Hm|apply pow2_pos; lia].
    - now rewrite shr_record_of_loc_m. }
  pose proof (round_nearest_even_bounds (shr_m r1) (loc_of_shr_record r1)) as Hq.
  set (q := round_nearest_even (shr_m r1) (loc_of_shr_record r1)) in *.
  pose proof (shr_fexp_spec q e1 loc_Exact ltac:(lia)) as S2.
  destruct (shr_fexp prec emax q e1 loc_Exact) as [r2 e2]. cbn [fst snd] in S2.
  assert (H2 : 0 <= shr_m r2).
  { destruct S2 as [(Hn & -> & _)|(_ & -> & _)].
    - apply Z.div_pos; [lia|apply pow2_pos; lia].
    - cbn [shr_record_of_loc shr_m]. lia. }
  destruct (shr_m r2) as [|m2|m2]; [exact I| |lia].
  now destruct (e2 <=? emax - prec).
Qed.

Lemma round_negative (m : positive) (e : Z) :
  SFltb (S754_zero false) (binary_round prec emax true m e) = false.
Proof.
  unfold binary_round, binary_round_aux.
  destruct (shl_align m e _) as [mz ez].
  destruct (shr_fexp prec emax (Z.pos mz) ez loc_Exact) as [r1 e1].
  destruct (shr_fexp prec emax _ e1 loc_Exact) as [r2 e2].
  destruct (shr_m r2); try reflexivity.
  now destruct (e2 <=? emax - prec).
Qed.

(** A quotient of a non-negative double by a positive finite one is
    non-negative (in particular it is a number). *)
Lemma SFdiv_nonneg (x : spec_float) (my : positive) (ey : Z) :
  nonneg x -> nonneg (SFdiv prec emax x (finite_pos my ey)).
Proof.
  destruct x as [sx|[]| |[] mx ex]; cbn [nonneg]; try tauto; intros _.
  cbn [SFdiv xorb]. unfold SFdiv_core_binary.
  set (s := _ - _ - Z.min _ _).
  set (m' := match s with Z.pos _ => Z.shiftl (Z.pos mx) s | 0 => Z.pos mx | Z.neg _ => 0 end).
  assert (Hm' : 0 <= m').
  { unfold m'. destruct s; try lia. apply Z.shiftl_nonneg. lia. }
  destruct (Z.div_eucl m' (Z.pos my)) as [q r] eqn:Eq.
  apply round_aux_nonneg.
  assert (Hq : q = m' / Z.pos my) by (unfold Z.div; now rewrite Eq).
  rewrite Hq. apply Z.div_pos; lia.
Qed.

(** *** Comparing through the difference *)

(** On valid doubles the lexicographic order of (exponent, mantissa) is
    the order of the mantissas brought to a common exponent. *)
Lemma compare_aligned (mx : positive) (ex : Z) (my : positive) (ey : Z) :
  bounded prec emax mx ex = true -> bounded prec emax my ey = true ->
  let ez := Z.min ex ey in
  let ax := Z.pos mx * 2 ^ (ex - ez) in
  let ay := Z.pos my * 2 ^ (ey - ez) in
  (ax < ay <-> lex_le ex (Z.pos mx + 1) ey (Z.pos my))
  /\ (ax = ay <-> ex = ey /\ mx = my).
Proof.
  intros Hx Hy ez ax ay. unfold lex_le.
  destruct (bounded_facts mx ex Hx) as (Hex & Hdx & Hnx).
  destruct (bounded_facts my ey Hy) as (Hey & Hdy & Hny).
  pose proof (digits_bounds mx) as Hmx. pose proof (digits_bounds my) as Hmy.
  pose proof (pow2_le (digits mx) 53 Hdx) as Hx53.
  pose proof (pow2_le (digits my) 53 Hdy) as Hy53.
  change (2 ^ 53) with (2 * 2 ^ 52) in *.
  assert (Hcases : ex = ey \/ ex < ey \/ ey < ex) by lia.
  destruct Hcases as [He|[He|He]].
  - subst ey. unfold ax, ay, ez. rewrite Z.min_id, Z.sub_diag.
    change (2 ^ 0) with 1. split; split; intros H; lia.
  - assert (Hez : ez = ex) by (unfold ez; lia).
    unfold ax, ay. rewrite Hez, Z.sub_diag. change (2 ^ 0) with 1.
    rewrite Hny in Hmy by lia. change (2 ^ (53 - 1)) with (2 ^ 52) in Hmy.
    pose proof (pow2_le 1 (ey - ex) ltac:(lia)) as Hp. change (2 ^ 1) with 2 in Hp.
    split; split; intros H; try lia; nia.
  - assert (Hez : ez = ey) by (unfold ez; lia).
    unfold ax, ay. rewrite Hez, Z.sub_diag. change (2 ^ 0) with 1.
    rewrite Hnx in Hmx by lia. change (2 ^ (53 - 1)) with (2 ^ 52) in Hmx.
    pose proof (pow2_le 1 (ex - ey) ltac:(lia)) as Hp. change (2 ^ 1) with 2 in Hp.
    split; split; intros H; try lia; nia.
Qed.

Lemma SFltb_finite_pos (m1 : positive) (e1 : Z) (m2 : positive) (e2 : Z) :
  SFltb (finite_pos m1 e1) (finite_pos m2 e2) = true
  <-> lex_le e1 (Z.pos m1 + 1) e2 (Z.pos m2).
Proof.
  rewrite SFltb_rank by discriminate. cbn [rank lex_lt]. unfold lex_le. lia.
Qed.

(** The sign of a difference of non-negative doubles tells their
    order: [y - x > 0] exactly when [x < y]. *)
Lemma SFsub_sign (x y : spec_float) :
  valid_binary x = true -> valid_binary y = true ->
  nonneg x -> nonneg y ->
  SFltb (S754_zero false) (SFsub prec emax y x) = SFltb x y.
Proof.
  intros Vx Vy Hx Hy.
  destruct x as [sx|[]| |[] mx ex], y as [sy|[]| |[] my ey];
    cbn [nonneg] in Hx, Hy; try tauto; clear Hx Hy;
    try (try destruct sx; try destruct sy; reflexivity).
  cbn [SpecFloat.valid_binary] in Vx, Vy. cbn [SFsub cond_Zopp].
  pose proof (shl_align_spec mx ex (Z.min ey ex)) as [_ Hax].
  pose proof (shl_align_spec my ey (Z.min ey ex)) as [_ Hay].
  set (ax := fst (shl_align mx ex (Z.min ey ex))) in *.
  set (ay := fst (shl_align my ey (Z.min ey ex))) in *.
  replace (Z.min ex (Z.min ey ex)) with (Z.min ex ey) in Hax by lia.
  replace (Z.min ey (Z.min ey ex)) with (Z.min ex ey) in Hay by lia.
  destruct (compare_aligned mx ex my ey Vx Vy) as [Hlt Heq].
  cbv zeta in Hlt, Heq. rewrite <- Hax, <- Hay in Hlt, Heq.
  destruct (bounded_facts mx ex Vx) as (Hex & _).
  destruct (bounded_facts my ey Vy) as (Hey & _).
  destruct (Z.pos ay - Z.pos ax) as [|d|d] eqn:Ed; cbn [binary_normalize].
  - symmetry. destruct (SFltb (finite_pos mx ex) (finite_pos my ey)) eqn:E;
      [|reflexivity].
    apply SFltb_finite_pos in E. apply Hlt in E. lia.
  - transitivity true.
    + apply SFltb_leb_trans with (y := finite_pos 1 (-1074)); [reflexivity|].
      apply round_lower with (K := -1074); [reflexivity|lia|lia|].
      rewrite Z.sub_diag. change (2 ^ 0) with 1.
      pose proof (pow2_pos (Z.min ey ex - -1074) ltac:(lia)). nia.
    + symmetry. apply SFltb_finite_pos, Hlt. lia.
  - rewrite round_negative. symmetry.
    destruct (SFltb (finite_pos mx ex) (finite_pos my ey)) eqn:E; [|reflexivity].
    apply SFltb_finite_pos in E. apply Hlt in E. lia.
Qed.

End Binary64Facts.

(** ** The same facts on primitive doubles *)


Lemma positive_finite_intro (c : float) :
  match Prim2SF c with S754_finite false _ _ => true | _ => false end = true ->
  positive_finite c.
Proof.
  unfold positive_finite. destruct (Prim2SF c) as [| | |[] m e]; try discriminate.
  intros _. now exists m, e.
Qed.

Lemma Prim2SF_zero : Prim2SF 0 = S754_zero false.
Proof. reflexivity. Qed.

Lemma nonneg_spec (x : float) : nonneg x <-> Binary64.nonneg (Prim2SF x).
Proof.
  unfold nonneg. rewrite FloatAxioms.leb_spec, Prim2SF_zero.
  symmetry. apply Binary64Facts.nonneg_leb_zero.
Qed.

Lemma leb_trans (x y z : float) :
  (x <=? y) = true -> (y <=? z) = true -> (x <=? z) = true.
Proof. rewrite !FloatAxioms.leb_spec. apply Binary64Facts.SFleb_trans. Qed.

Lemma ltb_leb_trans (x y z : float) :
  (x <? y) = true -> (y <=? z) = true -> (x <? z) = true.
Proof.
  rewrite !FloatAxioms.ltb_spec, FloatAxioms.leb_spec.
  apply Binary64Facts.SFltb_leb_trans.
Qed.

Lemma ltb_nonneg (x y : float) : nonneg x -> (x <? y) = true -> nonneg y.
Proof.
  unfold nonneg. rewrite FloatAxioms.ltb_spec, !FloatAxioms.leb_spec.
  intros H0 Hxy.
  destruct (Binary64Facts.SFltb_number _ _ Hxy) as [Hx Hy].
  destruct (Binary64Facts.SFleb_number _ _ H0) as [Hz _].
  rewrite Binary64Facts.SFleb_rank in * by assumption.
  rewrite Binary64Facts.SFltb_rank in Hxy by assumption.
  intros H. apply H0. eapply Binary64Facts.lex_lt_trans; eassumption.
Qed.

Lemma leb_nonneg (x y : float) : nonneg x -> (x <=? y) = true -> nonneg y.
Proof. unfold nonneg. apply leb_trans. Qed.

Lemma nonneg_not_nan (x : float) : nonneg x -> is_nan x = false.
Proof.
  intros H. apply nonneg_spec, Binary64Facts.nonneg_number in H.
  unfold is_nan. rewrite FloatAxioms.eqb_spec. apply negb_false_iff.
  pose proof (Binary64Facts.SFcompare_rank _ _ H H) as Hc. unfold SFeqb.
  destruct (SFcompare (Prim2SF x) (Prim2SF x)) as [[]|]; try reflexivity;
    try contradiction; now apply Binary64Facts.lex_lt_irrefl in Hc.
Qed.

(** Adding a non-negative double never gives less than either term. *)
Lemma add_ge (x y : float) :
  nonneg x -> nonneg y -> (x <=? x + y) = true /\ (y <=? x + y) = true.
Proof.
  rewrite !nonneg_spec, !FloatAxioms.leb_spec, FloatAxioms.add_spec.
  apply Binary64Facts.SFadd_ge; apply Prim2SF_valid.
Qed.

Lemma add_lower_l (c x y : float) :
  nonneg c -> (c <=? x) = true -> nonneg y -> (c <=? x + y) = true.
Proof.
  intros Hc Hx Hy. apply leb_trans with x; [exact Hx|].
  apply add_ge; [|exact Hy]. now apply leb_nonneg with c.
Qed.

Lemma add_positive (x y : float) :
  nonneg x -> (0 <? y) = true -> (0 <? x + y) = true.
Proof.
  intros Hx Hy. apply ltb_leb_trans with y; [exact Hy|].
  apply add_ge; [exact Hx|]. apply ltb_nonneg with 0; [reflexivity|exact Hy].
Qed.

(** [c <= x * c] for a positive finite [c] and [x >= 1]. *)
Lemma mul_ge (x c : float) :
  positive_finite c -> (1 <=? x) = true -> (c <=? x * c) = true.
Proof.
  intros (m & e & Hc). rewrite !FloatAxioms.leb_spec, FloatAxioms.mul_spec, Hc.
  intros H1. apply Binary64Facts.SFmul_ge; [apply Prim2SF_valid| |exact H1].
  pose proof (Prim2SF_valid c) as V. now rewrite Hc in V.
Qed.

Lemma div_nonneg (x c : float) :
  nonneg x -> positive_finite c -> nonneg (x / c).
Proof.
  rewrite !nonneg_spec, FloatAxioms.div_spec. intros Hx (m & e & ->).
  now apply Binary64Facts.SFdiv_nonneg.
Qed.

(** The comparator [b - a > 0] of a descending sort is the order [a < b]. *)
Lemma sub_sign (x y : float) :
  nonneg x -> nonneg y -> (0 <? y - x) = (x <? y).
Proof.
  rewrite !nonneg_spec, !FloatAxioms.ltb_spec, FloatAxioms.sub_spec, Prim2SF_zero.
  apply Binary64Facts.SFsub_sign; apply Prim2SF_valid.
Qed.

Lemma ltb_asym (x y : float) : (x <? y) = true -> (y <? x) = false.
Proof. rewrite !FloatAxioms.ltb_spec. apply Binary64Facts.SFltb_asym. Qed.

Lemma ltb_negtrans (x y z : float) :
  nonneg y -> (x <? z) = true -> (x <? y) = true \/ (y <? z) = true.
Proof.
  rewrite nonneg_spec, !FloatAxioms.ltb_spec. intros Hy.
  apply Binary64Facts.SFltb_negtrans. now apply Binary64Facts.nonneg_number.
Qed.

Lemma leb_ltb (x y : float) : nonneg x -> nonneg y -> (x <=? y) = negb (y <? x).
Proof.
  rewrite !nonneg_spec, FloatAxioms.leb_spec, FloatAxioms.ltb_spec. intros Hx Hy.
  apply Binary64Facts.SFleb_ltb; now apply Binary64Facts.nonneg_number.
Qed.

Lemma positive_truthy (x : float) : (0 <? x) = true -> JS.truthy x = true.
Proof.
  intros H. unfold JS.truthy.
  rewrite (nonneg_not_nan x) by (apply ltb_nonneg with 0; [reflexivity|exact H]).
  rewrite andb_true_r. apply negb_true_iff.
  rewrite FloatAxioms.ltb_spec in H. rewrite FloatAxioms.eqb_spec.
  rewrite Prim2SF_zero in *.
  destruct (Prim2SF x) as [[]|[]| |[] m e]; try discriminate H; reflexivity.
Qed.

(** [Math.min] with a non-negative bound keeps a non-negative double
    non-negative. *)
Lemma min2_nonneg (a b : float) : nonneg a -> nonneg b -> nonneg (JS.min2 a b).
Proof.
  intros Ha Hb. unfold JS.min2.
  rewrite (nonneg_not_nan a Ha), (nonneg_not_nan b Hb). cbn [orb].
  destruct (a <? b); [exact Ha|].
  destruct (b <? a); [exact Hb|].
  now destruct (get_sign a).
Qed.

Lemma eqb_trans_ltb (x y v : float) :
  (x =? v) = true -> (y =? v) = true -> (x <? y) = false.
Proof.
  rewrite !FloatAxioms.eqb_spec, FloatAxioms.ltb_spec. unfold SFeqb, SFltb.
  intros Hx Hy.
  assert (Nx : Binary64.is_number (Prim2SF x) /\ Binary64.is_number (Prim2SF v)).
  { unfold Binary64.is_number.
    destruct (Prim2SF x), (Prim2SF v); try discriminate Hx; split; discriminate. }
  assert (Ny : Binary64.is_number (Prim2SF y)).
  { unfold Binary64.is_number.
    destruct (Prim2SF y), (Prim2SF v); try discriminate Hy; discriminate. }
  destruct Nx as [Nx Nv].
  pose proof (Binary64Facts.SFcompare_rank _ _ Nx Nv) as Rx.
  pose proof (Binary64Facts.SFcompare_rank _ _ Ny Nv) as Ry.
  pose proof (Binary64Facts.SFcompare_rank _ _ Nx Ny) as Rxy.
  destruct (SFcompare (Prim2SF x) (Prim2SF v)) as [[]|]; try discriminate Hx.
  destruct (SFcompare (Prim2SF y) (Prim2SF v)) as [[]|]; try discriminate Hy.
  destruct (SFcompare (Prim2SF x) (Prim2SF y)) as [[]|]; try reflexivity.
  rewrite Rx, <- Ry in Rxy. now apply Binary64Facts.lex_lt_irrefl in Rxy.
Qed.

(** Checked on every pair of channel extremes, penalty and weight. *)
Lemma weighted_saturation_nonneg (mx mn : Z) (p k : float) :
  (0 <= mx <= 255)%Z -> (0 <= mn <= 255)%Z -> (mn <= mx)%Z ->
  In p penalties -> In k vibrancy_weights ->
  nonneg (byte_saturation mx mn * p * k).
Proof.
  intros Hmx Hmn Hle Hp Hk.
  pose proof (forall_bytes2
    (fun mx fmx mn fmn =>
       negb (mn <=? mx)%Z
       || let s := saturation_of fmx fmn in
          forallb (fun p => forallb (fun k => 0 <=? s * p * k) vibrancy_weights)
            penalties)) as H.
  specialize (H ltac:(vm_compute; reflexivity) mx mn Hmx Hmn). cbv beta zeta in H.
  fold (byte_saturation mx mn) in H.
  apply orb_prop in H. destruct H as [H|H];
    [apply negb_true_iff, Z.leb_gt in H; lia|].
  rewrite forallb_forall in H. specialize (H p Hp).
  rewrite forallb_forall in H. exact (H k Hk).
Qed.

(** ** Stable sorting

    [after x y] is the test [cmp(x, y) > 0].  On a domain where it is a
    strict weak order, [JS.sort] returns the input in an order where no
    element is followed by one that should precede it, and it never swaps
    elements that tie. *)

Section StableSort.
Context {A : Type} (after : A -> A -> bool) (dom : A -> Prop).
Hypothesis after_asym :
  forall x y, dom x -> dom y -> after x y = true -> after y x = false.
Hypothesis after_negtrans :
  forall x y z, dom x -> dom y -> dom z ->
    after x z = true -> after x y = true \/ after y z = true.

Lemma insert_Forall (P : A -> Prop) x l :
  P x -> Forall P l -> Forall P (JS.insert after x l).
Proof.
  intros Hx Hl. eapply Permutation_Forall; [symmetry; apply insert_perm|].
  now constructor.
Qed.

Lemma insert_sorted x l :
  dom x -> Forall dom l ->
  StronglySorted (JS.in_order after) l -> StronglySorted (JS.in_order after) (JS.insert after x l).
Proof.
  intros Hx Hd Hs. induction Hs as [|y l Hs IH Hy]; simpl.
  - repeat constructor.
  - inversion Hd as [|? ? Hdy Hdl]; subst.
    destruct (after x y) eqn:Hxy.
    + constructor; [now apply IH|].
      apply insert_Forall; [|exact Hy].
      now apply after_asym.
    + constructor; [now constructor|].
      constructor; [exact Hxy|].
      rewrite Forall_forall in *. intros z Hz. unfold JS.in_order.
      destruct (after x z) eqn:Hxz; [|reflexivity].
      destruct (after_negtrans x y z Hx Hdy (Hdl z Hz) Hxz) as [H|H].
      * congruence.
      * specialize (Hy z Hz). unfold JS.in_order in Hy. congruence.
Qed.

Lemma sort_sorted l :
  Forall dom l -> StronglySorted (JS.in_order after) (JS.sort after l).
Proof.
  induction 1 as [|x l Hx Hl IH]; simpl; [constructor|].
  apply insert_sorted; [exact Hx| |exact IH].
  eapply Permutation_Forall; [symmetry; apply sort_perm|exact Hl].
Qed.

(** [p] selects a set of elements none of which goes after another. *)
Lemma insert_stable (p : A -> bool) x l :
  (forall y, In y l -> p x = true -> p y = true -> after x y = false) ->
  filter p (JS.insert after x l) = filter p (x :: l).
Proof.
  induction l as [|y l IH]; intros Hp; [reflexivity|].
  simpl. destruct (after x y) eqn:Hxy; [|reflexivity].
  simpl. rewrite IH by (intros z Hz; apply Hp; now right). simpl.
  destruct (p x) eqn:Hpx; [|reflexivity].
  destruct (p y) eqn:Hpy; [|reflexivity].
  rewrite (Hp y (or_introl eq_refl) eq_refl Hpy) in Hxy. discriminate.
Qed.

Lemma sort_stable (p : A -> bool) l :
  (forall x y, In x l -> In y l -> p x = true -> p y = true -> after x y = false) ->
  filter p (JS.sort after l) = filter p l.
Proof.
  induction l as [|x l IH]; intros Hp; [reflexivity|].
  simpl JS.sort. rewrite insert_stable.
  - simpl. rewrite IH; [reflexivity|].
    intros a b Ha Hb. apply Hp; now right.
  - intros y Hy. apply Hp; [now left|right].
    now apply (sort_In after l y).
Qed.
End StableSort.

(** ** Lower bounds of sums, products and quotients

    A sum, a product or a quotient of doubles is rounded, but it never
    falls below a double that the exact result reaches. *)

Module Binary64Bounds.
Import Binary64 Binary64Facts.
#[local] Open Scope Z_scope.

(** A double that is at least a positive finite one is positive, finite or
    not. *)
Lemma above_finite_pos (m : positive) (e : Z) (x : spec_float) :
  SFleb (finite_pos m e) x = true ->
  x = S754_infinity false \/ exists mx ex, x = finite_pos mx ex.
Proof.
  destruct x as [[]|[]| |[] mx ex]; intros H; try discriminate H; eauto.
Qed.

Lemma SFltb_leb_finite (m : positive) (e : Z) (x : spec_float) :
  SFltb (finite_pos m e) x = true -> SFleb (finite_pos m e) x = true.
Proof.
  destruct x as [[]|[]| |[] mx ex]; intros H; try discriminate H; [reflexivity|].
  apply SFltb_finite_pos in H. apply SFleb_finite_pos. unfold lex_le in *. lia.
Qed.

(** The comparison of two scaled values does not depend on the scale. *)
Lemma rescale_any (a ea b eb K K' : Z) :
  K <= ea -> K <= eb -> K' <= ea -> K' <= eb ->
  a * 2 ^ (ea - K) <= b * 2 ^ (eb - K) ->
  a * 2 ^ (ea - K') <= b * 2 ^ (eb - K').
Proof.
  intros Ha Hb Ha' Hb' H.
  destruct (Z.le_gt_cases K' K) as [HK|HK].
  - now apply rescale with (K := K).
  - replace (ea - K) with ((ea - K') + (K' - K)) in H by lia.
    replace (eb - K) with ((eb - K') + (K' - K)) in H by lia.
    rewrite !pow2_split in H by lia.
    pose proof (pow2_pos (K' - K) ltac:(lia)). nia.
Qed.

(** The order of two valid positive doubles is the order of their values. *)
Lemma leb_value (mx : positive) (ex : Z) (my : positive) (ey K : Z) :
  bounded prec emax mx ex = true -> bounded prec emax my ey = true ->
  K <= ex -> K <= ey ->
  SFleb (finite_pos mx ex) (finite_pos my ey) = true ->
  Z.pos mx * 2 ^ (ex - K) <= Z.pos my * 2 ^ (ey - K).
Proof.
  intros Vx Vy Hx Hy H. apply SFleb_finite_pos in H.
  destruct (compare_aligned mx ex my ey Vx Vy) as [Hlt Heq]. cbv zeta in Hlt, Heq.
  apply rescale_any with (K := Z.min ex ey); [lia|lia|lia|lia|].
  unfold lex_le in *. destruct H as [H|[H1 H2]].
  - apply Z.lt_le_incl, Hlt. lia.
  - destruct (Z.eq_dec (Z.pos mx) (Z.pos my)) as [E|E].
    + apply Z.eq_le_incl, Heq. split; [exact H1|lia].
    + apply Z.lt_le_incl, Hlt. lia.
Qed.

(** [c <= x + y] when [a <= x], [b <= y] and [c <= a + b] exactly. *)
Lemma SFadd_lower (x y : spec_float) (ma : positive) (ea : Z) (mb : positive) (eb : Z)
    (mc : positive) (ec K : Z) :
  valid_binary x = true -> valid_binary y = true ->
  bounded prec emax ma ea = true -> bounded prec emax mb eb = true ->
  bounded prec emax mc ec = true ->
  SFleb (finite_pos ma ea) x = true -> SFleb (finite_pos mb eb) y = true ->
  K <= ea -> K <= eb -> K <= ec ->
  Z.pos mc * 2 ^ (ec - K) <= Z.pos ma * 2 ^ (ea - K) + Z.pos mb * 2 ^ (eb - K) ->
  SFleb (finite_pos mc ec) (SFadd prec emax x y) = true.
Proof.
  intros Vx Vy Va Vb Vc Hx Hy Ka Kb Kc Hc.
  destruct (above_finite_pos _ _ _ Hx) as [->|(mx & ex & ->)];
    destruct (above_finite_pos _ _ _ Hy) as [->|(my & ey & ->)]; try reflexivity.
  cbn [SpecFloat.valid_binary] in Vx, Vy. cbn [SFadd cond_Zopp].
  pose proof (shl_align_spec mx ex (Z.min ex ey)) as [_ Hax].
  pose proof (shl_align_spec my ey (Z.min ex ey)) as [_ Hay].
  set (ax := fst (shl_align mx ex (Z.min ex ey))) in *.
  set (ay := fst (shl_align my ey (Z.min ex ey))) in *.
  replace (Z.min ex (Z.min ex ey)) with (Z.min ex ey) in Hax by lia.
  replace (Z.min ey (Z.min ex ey)) with (Z.min ex ey) in Hay by lia.
  change (Z.pos ax + Z.pos ay) with (Z.pos (ax + ay)). cbn [binary_normalize].
  set (k := Z.min K (Z.min ex ey)).
  assert (Hk : k <= K /\ k <= ex /\ k <= ey) by (unfold k; lia). clearbody k.
  apply round_lower with (K := k); [exact Vc|lia|lia|].
  pose proof (leb_value ma ea mx ex k Va Vx ltac:(lia) ltac:(lia) Hx) as Hx'.
  pose proof (leb_value mb eb my ey k Vb Vy ltac:(lia) ltac:(lia) Hy) as Hy'.
  assert (Hc' : Z.pos mc * 2 ^ (ec - k)
                <= Z.pos ma * 2 ^ (ea - k) + Z.pos mb * 2 ^ (eb - k)).
  { replace (ec - k) with ((ec - K) + (K - k)) by lia.
    replace (ea - k) with ((ea - K) + (K - k)) by lia.
    replace (eb - k) with ((eb - K) + (K - k)) by lia.
    rewrite !pow2_split by lia. pose proof (pow2_pos (K - k) ltac:(lia)). nia. }
  rewrite Pos2Z.inj_add, Hax, Hay, Z.mul_add_distr_r, <- !Z.mul_assoc.
  rewrite <- !pow2_split by lia.
  replace (ex - Z.min ex ey + (Z.min ex ey - k)) with (ex - k) by lia.
  replace (ey - Z.min ex ey + (Z.min ex ey - k)) with (ey - k) by lia.
  lia.
Qed.

(** [c <= x * y] when [a <= x], [b <= y] and [c <= a * b] exactly. *)
Lemma SFmul_lower (x y : spec_float) (ma : positive) (ea : Z) (mb : positive) (eb : Z)
    (mc : positive) (ec K : Z) :
  valid_binary x = true -> valid_binary y = true ->
  bounded prec emax ma ea = true -> bounded prec emax mb eb = true ->
  bounded prec emax mc ec = true ->
  SFleb (finite_pos ma ea) x = true -> SFleb (finite_pos mb eb) y = true ->
  K <= ea + eb -> K <= ec ->
  Z.pos mc * 2 ^ (ec - K) <= Z.pos ma * Z.pos mb * 2 ^ (ea + eb - K) ->
  SFleb (finite_pos mc ec) (SFmul prec emax x y) = true.
Proof.
  intros Vx Vy Va Vb Vc Hx Hy Kab Kc Hc.
  destruct (above_finite_pos _ _ _ Hx) as [->|(mx & ex & ->)];
    destruct (above_finite_pos _ _ _ Hy) as [->|(my & ey & ->)]; try reflexivity.
  cbn [SpecFloat.valid_binary] in Vx, Vy. cbn [SFmul xorb].
  set (k := Z.min (Z.min (Z.min ea ex) (Z.min eb ey)) (Z.min K 0)).
  assert (Hk : k <= ea /\ k <= ex /\ k <= eb /\ k <= ey /\ k <= K /\ k <= 0)
    by (unfold k; lia).
  clearbody k.
  apply round_aux_lower with (K := 2 * k); [exact Vc|lia|lia|].
  pose proof (leb_value ma ea mx ex k Va Vx ltac:(lia) ltac:(lia) Hx) as Hx'.
  pose proof (leb_value mb eb my ey k Vb Vy ltac:(lia) ltac:(lia) Hy) as Hy'.
  apply (rescale _ _ _ _ K (2 * k)) in Hc; [|lia|lia|lia].
  rewrite Pos2Z.inj_mul.
  replace (ex + ey - 2 * k) with ((ex - k) + (ey - k)) by lia.
  replace (ea + eb - 2 * k) with ((ea - k) + (eb - k)) in Hc by lia.
  rewrite pow2_split in * by lia.
  pose proof (pow2_pos (ea - k) ltac:(lia)). pose proof (pow2_pos (eb - k) ltac:(lia)).
  set (A := Z.pos ma * 2 ^ (ea - k)) in *. set (B := Z.pos mb * 2 ^ (eb - k)) in *.
  set (X := Z.pos mx * 2 ^ (ex - k)) in *. set (Y := Z.pos my * 2 ^ (ey - k)) in *.
  assert (HA : 0 < A) by (unfold A; nia). assert (HB : 0 < B) by (unfold B; nia).
  assert (HAB : A * B <= X * Y) by (apply Z.mul_le_mono_nonneg; lia).
  assert (Hl : Z.pos ma * Z.pos mb * (2 ^ (ea - k) * 2 ^ (eb - k)) = A * B)
    by (unfold A, B; ring).
  assert (Hr : Z.pos mx * Z.pos my * (2 ^ (ex - k) * 2 ^ (ey - k)) = X * Y)
    by (unfold X, Y; ring).
  rewrite Hr. rewrite Hl in Hc. lia.
Qed.

(** [c <= x / d] for a positive finite [d] when [a <= x] and
    [c * d <= a] exactly. *)
Lemma SFdiv_lower (x : spec_float) (ma : positive) (ea : Z) (md : positive) (ed : Z)
    (mc : positive) (ec K : Z) :
  valid_binary x = true ->
  bounded prec emax ma ea = true -> bounded prec emax md ed = true ->
  bounded prec emax mc ec = true ->
  SFleb (finite_pos ma ea) x = true ->
  K <= ea -> K <= ec + ed ->
  Z.pos mc * Z.pos md * 2 ^ (ec + ed - K) <= Z.pos ma * 2 ^ (ea - K) ->
  SFleb (finite_pos mc ec) (SFdiv prec emax x (finite_pos md ed)) = true.
Proof.
  intros Vx Va Vd Vc Hx Ka Kcd Hc.
  destruct (above_finite_pos _ _ _ Hx) as [->|(mx & ex & ->)]; [reflexivity|].
  cbn [SpecFloat.valid_binary] in Vx. cbn [SFdiv xorb].
  destruct (bounded_facts mx ex Vx) as (Hex & Hdx & _).
  destruct (bounded_facts md ed Vd) as (Hed & Hdd & _).
  destruct (bounded_facts mc ec Vc) as (Hec & Hdc & _).
  pose proof (digits_bounds mx) as Hmx. pose proof (digits_bounds md) as Hmd.
  pose proof (digits_bounds mc) as Hmc.
  assert (Hd1 : 1 <= digits mx) by lia. assert (Hd2 : 1 <= digits md) by lia.
  (* the dividend is at least [c * d] *)
  set (k := Z.min K (Z.min ex (-1074 + ed))).
  assert (Hk : k <= K /\ k <= ex /\ k <= -1074 + ed) by (unfold k; lia). clearbody k.
  pose proof (leb_value ma ea mx ex k Va Vx ltac:(lia) ltac:(lia) Hx) as Hx'.
  apply (rescale _ _ _ _ K k) in Hc; [|lia|lia|lia].
  assert (Hcx : Z.pos mc * Z.pos md * 2 ^ (ec + ed - k) <= Z.pos mx * 2 ^ (ex - k))
    by lia.
  clear Hx' Hc.
  unfold SFdiv_core_binary. cbn [Zdigits2]. rewrite fexp_eq.
  set (e' := Z.min (Z.max (digits mx + ex - (digits md + ed) - 53) (-1074)) (ex - ed)).
  set (s := ex - ed - e').
  assert (Hs : 0 <= s) by (unfold s, e'; lia).
  set (m' := match s with
             | 0 => Z.pos mx
             | Z.pos _ => Z.shiftl (Z.pos mx) s
             | Z.neg _ => 0
             end).
  assert (Hm' : m' = Z.pos mx * 2 ^ s).
  { unfold m'. destruct s as [|p|p] eqn:Es; [change (2 ^ 0) with 1; lia| |lia].
    apply Z.shiftl_mul_pow2. lia. }
  destruct (Z.div_eucl m' (Z.pos md)) as [q r] eqn:Eq.
  assert (Hq : q = m' / Z.pos md) by (unfold Z.div; now rewrite Eq).
  destruct (Z.le_gt_cases e' ec) as [Hle|Hgt].
  - assert (Hqc : Z.pos mc * 2 ^ (ec - e') <= q).
    { rewrite Hq, Hm'. apply Z.div_le_lower_bound; [lia|].
      apply (rescale_any _ _ _ _ k (e' + ed)) in Hcx; [|lia|lia|unfold e'; lia|unfold e'; lia].
      replace (ec + ed - (e' + ed)) with (ec - e') in Hcx by lia.
      replace (ex - (e' + ed)) with s in Hcx by (unfold s; lia).
      lia. }
    pose proof (pow2_pos (ec - e') ltac:(lia)) as Hp.
    destruct q as [|qp|qp]; [nia| |nia].
    apply round_aux_lower with (K := e'); [exact Vc|lia|lia|].
    now rewrite Z.sub_diag, Z.mul_1_r.
  - assert (He' : e' = digits mx + ex - (digits md + ed) - 53) by (unfold e' in *; lia).
    assert (Hs' : s = 53 + digits md - digits mx) by (unfold s; lia).
    assert (Hq52 : 2 ^ 52 <= q).
    { rewrite Hq, Hm'. apply Z.div_le_lower_bound; [lia|].
      pose proof (pow2_split (digits mx - 1) s ltac:(lia) ltac:(lia)) as Hp1.
      pose proof (pow2_split (digits md) 52 ltac:(lia) ltac:(lia)) as Hp2.
      replace (digits mx - 1 + s) with (digits md + 52) in Hp1 by lia.
      pose proof (pow2_pos s Hs). pose proof (pow2_pos 52 ltac:(lia)). nia. }
    destruct q as [|qp|qp]; [lia| |lia].
    apply round_aux_lower with (K := ec); [exact Vc|lia|lia|].
    rewrite Z.sub_diag, Z.mul_1_r.
    pose proof (pow2_le (digits mc) 53 Hdc) as H53.
    pose proof (pow2_le 1 (e' - ec) ltac:(lia)) as H1.
    change (2 ^ 1) with 2 in H1. change (2 ^ 53) with (2 ^ 52 * 2) in H53.
    pose proof (pow2_pos 52 ltac:(lia)). nia.
Qed.

End Binary64Bounds.

(** *** The bounds that [buttonScore] needs *)

(** [Math.min] of two doubles that are at least [c] is at least [c]. *)
Lemma min2_lower (c a b : float) :
  nonneg c -> (c <=? a) = true -> (c <=? b) = true -> (c <=? JS.min2 a b) = true.
Proof.
  intros Hc Ha Hb. unfold JS.min2.
  rewrite (nonneg_not_nan a (leb_nonneg c a Hc Ha)).
  rewrite (nonneg_not_nan b (leb_nonneg c b Hc Hb)). cbn [orb].
  destruct (a <? b); [exact Ha|].
  destruct (b <? a); [exact Hb|].
  now destruct (get_sign a).
Qed.

(** Writes the constant [c] as its mantissa and exponent. *)
Ltac binary64_constant c :=
  let v := eval vm_compute in (Prim2SF c) in change (Prim2SF c) with v in *.

(** A box wider than 50 and higher than 20 has an area of at least 1000. *)
Lemma mul_above_1000 (w h : float) :
  (50 <? w) = true -> (20 <? h) = true -> (1000 <=? w * h) = true.
Proof.
  rewrite !FloatAxioms.ltb_spec, FloatAxioms.leb_spec, FloatAxioms.mul_spec.
  binary64_constant 50. binary64_constant 20. binary64_constant 1000.
  intros Hw Hh.
  apply Binary64Bounds.SFltb_leb_finite in Hw. apply Binary64Bounds.SFltb_leb_finite in Hh.
  refine (Binary64Bounds.SFmul_lower _ _ _ _ _ _ _ _ (-100)%Z
            (Prim2SF_valid _) (Prim2SF_valid _) _ _ _ Hw Hh _ _ _);
    try reflexivity; try lia.
  all: vm_compute; discriminate.
Qed.

Lemma div_1000_above_1 (x : float) :
  (1000 <=? x) = true -> (1 <=? x / 1000) = true.
Proof.
  rewrite !FloatAxioms.leb_spec, FloatAxioms.div_spec.
  binary64_constant 1000. binary64_constant 1.
  intros Hx.
  refine (Binary64Bounds.SFdiv_lower _ _ _ _ _ _ _ (-100)%Z
            (Prim2SF_valid _) _ _ _ Hx _ _ _);
    try reflexivity; try lia.
  all: vm_compute; discriminate.
Qed.

Lemma add_above_51 (x y : float) :
  (50 <=? x) = true -> (1 <=? y) = true -> (51 <=? x + y) = true.
Proof.
  rewrite !FloatAxioms.leb_spec, FloatAxioms.add_spec.
  binary64_constant 50. binary64_constant 1. binary64_constant 51.
  intros Hx Hy.
  refine (Binary64Bounds.SFadd_lower _ _ _ _ _ _ _ _ (-100)%Z
            (Prim2SF_valid _) (Prim2SF_valid _) _ _ _ Hx Hy _ _ _ _);
    try reflexivity; try lia.
  all: vm_compute; discriminate.
Qed.
(** ** The role cascades *)


Lemma or_str_orelse (a b : option string) :
  opt_truthy a -> opt_truthy b ->
  JS.or_str (JS.or_str a b) None = Spec.orelse a b.
Proof.
  destruct a as [s|]; simpl; intros Ha Hb.
  - rewrite Ha. simpl. now rewrite Ha.
  - destruct b as [s|]; simpl in *; [now rewrite Hb|reflexivity].
Qed.

Lemma find_key_truthy (l : list (string * ScoreEntry)) f :
  keys_truthy l -> opt_truthy (option_map fst (find f l)).
Proof.
  intros Hl. destruct (find f l) as [x|] eqn:Hf; simpl; [|exact I].
  apply find_some in Hf. destruct Hf as [Hx _].
  unfold keys_truthy in Hl. rewrite Forall_forall in Hl. now apply Hl.
Qed.

Lemma nth_key_truthy (l : list (string * ScoreEntry)) i :
  keys_truthy l -> opt_truthy (key_at i l).
Proof.
  intros Hl. unfold key_at. destruct (nth_error l i) as [x|] eqn:Hn; simpl; [|exact I].
  apply nth_error_In in Hn.
  unfold keys_truthy in Hl. rewrite Forall_forall in Hl. now apply Hl.
Qed.

Lemma orelse_truthy (a b : option string) :
  opt_truthy a -> opt_truthy b -> opt_truthy (Spec.orelse a b).
Proof. now destruct a. Qed.

Lemma differs_is_not c found : differs c found = Spec.is_not (key_of found) c.
Proof. now destruct found as [[c' e]|]. Qed.

(** The code's three [find] calls are the three predicates of the rule. *)
Lemma primaryColor_match (l : list (string * ScoreEntry)) :
  key_of (primaryColor l) = Spec.primary_match l.
Proof.
  unfold primaryColor, Spec.primary_match, Spec.first_color, key_of.
  rewrite (find_ext (fun '(c, data) => button_over_50 data && negb (isNeutralOrDark c))
             (fun x => (50 <? subtotal button (snd x)) && negb (isNeutralOrDark (fst x))) l)
    by (intros [c e] _; simpl; now rewrite button_over_50_subtotal).
  rewrite (find_ext (fun '(c, data) => negb (isNeutralOrDark c) && (50 <? total data))
             (fun x => negb (isNeutralOrDark (fst x)) && (50 <? total (snd x))) l)
    by (now intros [c e] _).
  rewrite (find_ext (fun '(_, data) => button_over_50 data)
             (fun x => 50 <? subtotal button (snd x)) l)
    by (intros [c e] _; simpl; now rewrite button_over_50_subtotal).
  repeat match goal with |- context [find ?f l] => destruct (find f l); simpl end;
    reflexivity.
Qed.

Lemma secondaryColor_match (l : list (string * ScoreEntry)) :
  key_of (secondaryColor l (primaryColor l)) = Spec.secondary_match l.
Proof.
  unfold secondaryColor, Spec.secondary_match, Spec.first_color, key_of, Spec.signalled.
  rewrite (find_ext
             (fun '(c, data) =>
                differs c (primaryColor l)
                && (cat_truthy link data || cat_truthy button data || cat_truthy border data)
                && negb (isNeutralOrDark c))
             (fun x => Spec.is_not (Spec.primary_match l) (fst x)
                       && (nonzero (subtotal link (snd x)) || nonzero (subtotal button (snd x))
                           || nonzero (subtotal border (snd x)))
                       && negb (isNeutralOrDark (fst x))) l)
    by (intros [c e] _; simpl;
        now rewrite differs_is_not, primaryColor_match, !cat_truthy_subtotal).
  rewrite (find_ext
             (fun '(c, data) =>
                differs c (primaryColor l) && (cat_truthy link data || cat_truthy button data))
             (fun x => Spec.is_not (Spec.primary_match l) (fst x)
                       && (nonzero (subtotal link (snd x)) || nonzero (subtotal button (snd x)))) l)
    by (intros [c e] _; simpl;
        now rewrite differs_is_not, primaryColor_match, !cat_truthy_subtotal).
  repeat match goal with |- context [find ?f l] => destruct (find f l); simpl end;
    reflexivity.
Qed.

Lemma accentColor_match (l : list (string * ScoreEntry)) :
  key_of (accentColor l (primaryColor l) (secondaryColor l (primaryColor l)))
  = Spec.accent_match l.
Proof.
  unfold accentColor, Spec.accent_match, Spec.first_color, key_of.
  f_equal. apply find_ext. intros [c e] _. simpl.
  now rewrite !differs_is_not, primaryColor_match, secondaryColor_match.
Qed.

Lemma match_truthy (l : list (string * ScoreEntry)) :
  keys_truthy l ->
  opt_truthy (Spec.primary_match l) /\ opt_truthy (Spec.secondary_match l)
  /\ opt_truthy (Spec.accent_match l).
Proof.
  intros Hl.
  unfold Spec.primary_match, Spec.secondary_match, Spec.accent_match, Spec.first_color.
  repeat split; repeat apply orelse_truthy; now apply find_key_truthy.
Qed.

(** C2: the reported primary colour is the outcome of the cascade over the
    ranked list: first entry with button subtotal above 50 that is not
    neutral-or-dark, else first entry that is not neutral-or-dark with total
    above 50, else first entry with button subtotal above 50, else the first
    ranked entry, else nothing. *)
Theorem primary_is_cascade (cd : ColorData) :
  Palette.primary (classifyColors cd) = Spec.primary (sortedColors cd).
Proof.
  pose proof (sortedColors_keys_truthy cd) as Hk.
  destruct (match_truthy _ Hk) as (Hp & _ & _).
  unfold classifyColors, Spec.primary. cbn [Palette.primary].
  rewrite primaryColor_match.
  apply or_str_orelse; [exact Hp|]. now apply (nth_key_truthy _ 0).
Qed.

(** C6: with every candidate list empty the classifier returns no primary,
    no secondary, background "#ffffff", text "#000000" and an empty
    palette; [classifyColors] is a total function, so nothing is raised. *)
Theorem classify_no_candidates :
  let r := classifyColors no_candidates in
  Palette.primary r = None /\ Palette.secondary r = None
  /\ Palette.background r = "#ffffff" /\ Palette.text r = "#000000"
  /\ Palette.palette r = [].
Proof. vm_compute. repeat split. Qed.

(** C9: some input makes secondary equal to primary.  With one muted link
    colour, kept by the page because it is not neutral, no ranked entry
    passes a primary predicate (each is neutral-or-dark with button subtotal
    at most 50), primary falls back to the top-ranked entry, and the relaxed
    secondary search, which leaves out nothing, selects that same entry. *)
Theorem secondary_can_equal_primary :
  exists (cd : ColorData) (c : string),
    forallb (fun l => negb (isNeutral l)) (links cd) = true
    /\ forallb (fun x => isNeutralOrDark (fst x) && negb (50 <? subtotal button (snd x)))
         (sortedColors cd) = true
    /\ Spec.primary_match (sortedColors cd) = None
    /\ key_at 0 (sortedColors cd) = Some c
    /\ Palette.primary (classifyColors cd) = Some c
    /\ Palette.secondary (classifyColors cd) = Some c.
Proof.
  exists one_muted_link, "#80806a". vm_compute. repeat split.
Qed.

(** ** Logo ranking *)


Lemma logoScore_spec (l : LogoCandidate) :
  logoScore l = JS.of_Z (LogoSpec.score l)
  /\ In (LogoSpec.score l) logo_score_values.
Proof.
  unfold logoScore, LogoSpec.score, LogoSpec.formatBonus, LogoSpec.areaBonus,
    LogoSpec.headerBonus, LogoSpec.keywordBonus.
  destruct (logo_format l), (logo_inHeader l), (logo_hasLogoKeyword l);
    cbv zeta;
    destruct ((500 <? logo_width l * logo_height l)
              && (logo_width l * logo_height l <? 50000));
    (split; [vm_compute; reflexivity | cbv; tauto]).
Qed.

(** On scores, the sign of the double difference is the integer order. *)
Lemma score_difference_sign (a b : Z) :
  In a logo_score_values -> In b logo_score_values ->
  (0 <? JS.of_Z b - JS.of_Z a) = (a <? b)%Z.
Proof.
  intros Ha Hb.
  assert (H : forallb (fun a => forallb (fun b =>
              Bool.eqb (0 <? JS.of_Z b - JS.of_Z a) (a <? b)%Z)
              logo_score_values) logo_score_values = true)
    by (vm_compute; reflexivity).
  rewrite forallb_forall in H. specialize (H a Ha).
  rewrite forallb_forall in H. specialize (H b Hb).
  now apply Bool.eqb_prop.
Qed.


Lemma byScoreDesc_spec (x y : LogoCandidate * float) :
  well_scored x -> well_scored y ->
  byScoreDesc x y = (LogoSpec.score (fst x) <? LogoSpec.score (fst y))%Z.
Proof.
  unfold well_scored, byScoreDesc. intros -> ->.
  destruct (logoScore_spec (fst x)) as [-> Hx].
  destruct (logoScore_spec (fst y)) as [-> Hy].
  now apply score_difference_sign.
Qed.

Lemma scored_well_scored (logoData : list LogoCandidate) :
  Forall well_scored (scored logoData).
Proof.
  unfold scored.
  eapply Permutation_Forall; [symmetry; apply sort_perm|].
  rewrite Forall_forall. intros x Hx. apply in_map_iff in Hx.
  destruct Hx as (l & <- & _). reflexivity.
Qed.

Lemma filter_map_fst_scored (p : LogoCandidate -> bool) (l : list LogoCandidate) :
  map fst (filter (fun x => p (fst x)) (map (fun logo => (logo, logoScore logo)) l))
  = filter p l.
Proof.
  induction l as [|a l IH]; simpl; [reflexivity|].
  destruct (p a); simpl; now rewrite IH.
Qed.

(** C7: a candidate's score is the format bonus (50 svg, 30 png, 0
    otherwise) plus 30 when width times height lies strictly between 500
    and 50000, plus 40 in a header, plus 30 with a logo keyword; the scored
    list is the candidate list reordered by descending score, candidates of
    equal score keeping their observed order; the reported logo is the head
    of that list (nothing when there is no candidate; an empty source or a
    zero dimension is reported as null), and the alternatives are the
    source and format of the entries at ranks two to four. *)
Theorem logo_ranking (logoData : list LogoCandidate) :
  let ranked := scored logoData in
  Forall (fun x => snd x = JS.of_Z (LogoSpec.score (fst x))) ranked
  /\ Permutation (map fst ranked) logoData
  /\ StronglySorted
       (fun a b => (LogoSpec.score (fst b) <= LogoSpec.score (fst a))%Z) ranked
  /\ (forall s : Z,
        map fst (filter (fun x => (LogoSpec.score (fst x) =? s)%Z) ranked)
        = filter (fun l => (LogoSpec.score l =? s)%Z) logoData)
  /\ match ranked with
     | [] =>
         Logo.url (extractLogo logoData) = None
         /\ Logo.format (extractLogo logoData) = None
         /\ Logo.width (extractLogo logoData) = None
         /\ Logo.height (extractLogo logoData) = None
     | (best, _) :: _ =>
         Logo.url (extractLogo logoData) = JS.or_str (logo_src best) None
         /\ Logo.format (extractLogo logoData) = Some (logo_format best)
         /\ Logo.width (extractLogo logoData) = num_or_null (logo_width best)
         /\ Logo.height (extractLogo logoData) = num_or_null (logo_height best)
         /\ Forall (fun l => (LogoSpec.score l <= LogoSpec.score best)%Z) logoData
     end
  /\ Logo.alternatives (extractLogo logoData)
     = map (fun x => {| alt_url := logo_src (fst x); alt_format := logo_format (fst x) |})
         (firstn 3 (skipn 1 ranked)).
Proof.
  intros ranked.
  pose proof (scored_well_scored logoData) as Hw. fold ranked in Hw.
  assert (Hperm : Permutation (map fst ranked) logoData).
  { unfold ranked, scored. rewrite sort_perm, map_map. simpl. now rewrite map_id. }
  assert (Hsorted : StronglySorted
            (fun a b => (LogoSpec.score (fst b) <= LogoSpec.score (fst a))%Z) ranked).
  { assert (Hs : StronglySorted (JS.in_order byScoreDesc) ranked).
    { apply (sort_sorted byScoreDesc well_scored).
      - intros x y Hx Hy. rewrite !byScoreDesc_spec by assumption. lia.
      - intros x y z Hx Hy Hz. rewrite !byScoreDesc_spec by assumption. lia.
      - eapply Permutation_Forall; [apply sort_perm|exact Hw]. }
    clear Hperm. induction Hs as [|a l Hs IH Ha]; constructor.
    - apply IH. now inversion Hw.
    - inversion Hw as [|? ? Hwa Hwl]; subst.
      rewrite Forall_forall in *. intros b Hb.
      specialize (Ha b Hb). unfold JS.in_order in Ha.
      rewrite byScoreDesc_spec in Ha by auto. lia. }
  repeat split.
  - rewrite Forall_forall in *. intros x Hx. rewrite (Hw x Hx).
    apply logoScore_spec.
  - exact Hperm.
  - exact Hsorted.
  - intros s. unfold ranked, scored.
    rewrite (sort_stable byScoreDesc (fun x => (LogoSpec.score (fst x) =? s)%Z)).
    + apply (filter_map_fst_scored (fun l => (LogoSpec.score l =? s)%Z)).
    + intros x y Hx Hy Hpx Hpy.
      assert (Hwx : well_scored x)
        by (apply in_map_iff in Hx; destruct Hx as (? & <- & _); reflexivity).
      assert (Hwy : well_scored y)
        by (apply in_map_iff in Hy; destruct Hy as (? & <- & _); reflexivity).
      rewrite byScoreDesc_spec by assumption. lia.
  - unfold extractLogo. fold ranked.
    destruct ranked as [|[best sc] rest] eqn:Hr; simpl; [repeat split|].
    repeat split.
    inversion Hsorted as [|? ? _ Hbest]; subst.
    apply (Permutation_Forall Hperm). simpl. constructor; [lia|].
    rewrite Forall_forall in *. intros l Hl. apply in_map_iff in Hl.
    destruct Hl as (x & <- & Hx). now apply Hbest.
Qed.

(** ** The neutrality test *)

Lemma exact_saturation_lt_015 (r g b : Z) :
  (0 <= r)%Z -> (0 <= g)%Z -> (0 <= b)%Z ->
  let mx := Z.max (Z.max r g) b in
  let mn := Z.min (Z.min r g) b in
  ((exact_saturation r g b < 15 # 100)%Q
   <-> ((mx =? 0)%Z || (20 * (mx - mn) <? 3 * mx)%Z) = true)
  /\ ((exact_saturation r g b == 15 # 100)%Q
      -> ((mx =? 0)%Z || (20 * (mx - mn) <? 3 * mx)%Z) = false).
Proof.
  intros Hr Hg Hb mx mn. unfold exact_saturation. fold mx mn.
  assert (Hmx : (0 <= mx)%Z) by (unfold mx; lia).
  destruct (mx =? 0)%Z eqn:E.
  - simpl. split; [split; [reflexivity|intros _; reflexivity]|].
    intros H. discriminate H.
  - apply Z.eqb_neq in E. cbn [orb].
    unfold Qlt, Qeq. cbn [Qnum Qden].
    rewrite Z2Pos.id by lia. rewrite Z.ltb_lt.
    split; [split; intro; lia|].
    intros H. apply Z.ltb_ge. lia.
Qed.

(** C8: on a well-formed colour [isNeutral] holds exactly when the
    saturation [(max - min) / max], taken as [0] when [max = 0], is strictly
    below 0.15; the double the code computes for it is never NaN and is [0]
    when [max = 0]; and a colour whose saturation is exactly 0.15 is not
    neutral. *)
Theorem isNeutral_iff_saturation (hex : string) (r g b : Z) :
  rgb_of_hex hex = Some (r, g, b) ->
  isNeutral hex = (saturation hex <? 0.15)
  /\ (isNeutral hex = true <-> (exact_saturation r g b < 15 # 100)%Q)
  /\ is_nan (saturation hex) = false
  /\ (Z.max (Z.max r g) b = 0%Z -> saturation hex = 0)
  /\ ((exact_saturation r g b == 15 # 100)%Q -> isNeutral hex = false).
Proof.
  intros H.
  destruct (channels_well_formed hex r g b H) as (_ & Hr & Hg & Hb).
  pose proof (saturation_well_formed hex r g b H) as Hs.
  assert (Hn : isNeutral hex = (saturation hex <? 0.15)).
  { unfold isNeutral. destruct hex; [discriminate H|reflexivity]. }
  destruct (byte_saturation_lt_015 (Z.max (Z.max r g) b) (Z.min (Z.min r g) b))
    as (Hlt & Hnan & Hzero); try lia.
  destruct (exact_saturation_lt_015 r g b) as [Hq Heq]; try lia.
  rewrite Hn, Hs, Hlt.
  repeat split; try tauto; assumption.
Qed.

(** A colour at the boundary, (200, 170, 200): saturation 30/200. *)
Lemma isNeutral_iff_saturation_witness :
  rgb_of_hex "#c8aac8" = Some (200, 170, 200)%Z
  /\ (exact_saturation 200 170 200 == 15 # 100)%Q
  /\ isNeutral "#c8aac8" = false.
Proof.
  split; [reflexivity|]. split; [reflexivity|].
  apply (isNeutral_iff_saturation "#c8aac8" 200 170 200); reflexivity.
Defined.

(** ** Score additivity *)

Section AssocFacts.
Context {K V : Type} (eqb : K -> K -> bool).
Hypothesis eqb_spec : forall a b, eqb a b = true <-> a = b.

Lemma eqb_refl_true (a : K) : eqb a a = true.
Proof. now apply eqb_spec. Qed.

Lemma eqb_neq_false (a b : K) : a <> b -> eqb a b = false.
Proof.
  intros H. destruct (eqb a b) eqn:E; [|reflexivity].
  now apply eqb_spec in E.
Qed.

Lemma get_set_same (k : K) (v : V) (m : list (K * V)) :
  Assoc.get eqb k (Assoc.set eqb k v m) = Some v.
Proof.
  induction m as [|[k' v'] m IH]; simpl.
  - now rewrite eqb_refl_true.
  - destruct (eqb k k') eqn:E; simpl; rewrite E; [reflexivity|exact IH].
Qed.

Lemma get_set_other (k k0 : K) (v : V) (m : list (K * V)) :
  k <> k0 -> Assoc.get eqb k (Assoc.set eqb k0 v m) = Assoc.get eqb k m.
Proof.
  intros Hk. induction m as [|[k' v'] m IH]; simpl.
  - now rewrite eqb_neq_false.
  - destruct (eqb k0 k') eqn:E; simpl.
    + apply eqb_spec in E. subst k'. rewrite eqb_neq_false by exact Hk. reflexivity.
    + now rewrite IH.
Qed.

Lemma keys_set (k : K) (v : V) (m : list (K * V)) :
  map fst (Assoc.set eqb k v m)
  = if Assoc.has eqb k m then map fst m else map fst m ++ [k].
Proof.
  unfold Assoc.has. induction m as [|[k' v'] m IH]; simpl; [reflexivity|].
  destruct (eqb k k') eqn:E; simpl; [reflexivity|].
  rewrite IH. now destruct (Assoc.get eqb k m).
Qed.

Lemma get_None_notin (k : K) (m : list (K * V)) :
  Assoc.get eqb k m = None -> ~ In k (map fst m).
Proof.
  induction m as [|[k' v'] m IH]; simpl; [tauto|].
  destruct (eqb k k') eqn:E; [discriminate|].
  intros H [Hk|Hk]; [|now apply IH].
  subst k'. rewrite eqb_refl_true in E. discriminate.
Qed.

Lemma set_NoDup (k : K) (v : V) (m : list (K * V)) :
  NoDup (map fst m) -> NoDup (map fst (Assoc.set eqb k v m)).
Proof.
  intros Hm. rewrite keys_set. unfold Assoc.has.
  destruct (Assoc.get eqb k m) eqn:E; [exact Hm|].
  apply NoDup_app; [exact Hm|repeat constructor; simpl; tauto|].
  intros x Hx [<-|[]]. now apply get_None_notin in E.
Qed.

Lemma In_get (k : K) (v : V) (m : list (K * V)) :
  NoDup (map fst m) -> In (k, v) m -> Assoc.get eqb k m = Some v.
Proof.
  induction m as [|[k' v'] m IH]; simpl; [tauto|].
  intros Hm [H|H].
  - injection H as -> ->. now rewrite eqb_refl_true.
  - inversion Hm as [|? ? Hk' Hm']; subst.
    destruct (eqb k k') eqn:E; [|now apply IH].
    apply eqb_spec in E. subst k'. exfalso. apply Hk'.
    now apply (in_map fst) in H.
Qed.
End AssocFacts.

Lemma category_eqb_spec (a b : category) : category_eqb a b = true <-> a = b.
Proof. destruct a, b; simpl; split; intros H; (reflexivity || discriminate). Qed.

Lemma applyCalls_snoc (cs : list ScoreCall) (c : ScoreCall) (m : ScoreMap) :
  applyCalls (cs ++ [c]) m
  = addScore (call_color c) (call_score c) (call_category c) (applyCalls cs m).
Proof. unfold applyCalls. now rewrite fold_left_app. Qed.

Lemma applyCalls_app (cs cs' : list ScoreCall) (m : ScoreMap) :
  applyCalls (cs ++ cs') m = applyCalls cs' (applyCalls cs m).
Proof. unfold applyCalls. now rewrite fold_left_app. Qed.

Lemma applyCalls_map {A : Type} (f : A -> ScoreCall) (l : list A) (m : ScoreMap) :
  applyCalls (map f l) m
  = fold_left (fun m a => addScore (call_color (f a)) (call_score (f a))
                            (call_category (f a)) m) l m.
Proof.
  revert m. induction l as [|a l IH]; intros m; simpl; [reflexivity|].
  apply IH.
Qed.

Lemma fold_left_filter {A B : Type} (p : A -> bool) (f : B -> A -> B) (l : list A) (b : B) :
  fold_left f (filter p l) b = fold_left (fun b a => if p a then f b a else b) l b.
Proof.
  revert b. induction l as [|a l IH]; intros b; simpl; [reflexivity|].
  destruct (p a); simpl; apply IH.
Qed.

Lemma fold_left_ext {A B : Type} (f g : B -> A -> B) (l : list A) (b b' : B) :
  (forall b a, f b a = g b a) -> b = b' -> fold_left f l b = fold_left g l b'.
Proof.
  intros H <-. revert b. induction l as [|a l IH]; intros b; simpl; [reflexivity|].
  now rewrite H, IH.
Qed.

(** The six loops make exactly the calls of [scoreCalls]. *)
Lemma colorScores_calls (cd : ColorData) :
  colorScores cd = applyCalls (scoreCalls cd) [].
Proof.
  unfold scoreCalls. rewrite !applyCalls_app, !applyCalls_map, fold_left_filter.
  unfold colorScores, scoreAccents, scoreSvgs, scoreBorders, scoreBackgrounds,
    scoreLinks, scoreButtons. cbn [call_color call_score call_category].
  repeat (apply fold_left_ext; [intros m x; try destruct x; reflexivity|]).
  reflexivity.
Qed.


Lemma tracks_nil : tracks [] [].
Proof. split; [constructor|]. intros k. reflexivity. Qed.

Lemma calls_for_snoc (k : string) (cs : list ScoreCall) (c : ScoreCall) :
  calls_for k (cs ++ [c])
  = calls_for k cs ++ (if reaches k c then [c] else []).
Proof. unfold calls_for. rewrite filter_app. reflexivity. Qed.

Lemma running_total_snoc (l : list ScoreCall) (c : ScoreCall) :
  running_total (l ++ [c]) = running_total l + call_score c.
Proof. unfold running_total. now rewrite fold_left_app. Qed.

Lemma running_subtotal_snoc (cat : category) (l : list ScoreCall) (c : ScoreCall) :
  running_subtotal cat (l ++ [c])
  = if in_category cat c
    then Some (JS.or_zero (running_subtotal cat l) + call_score c)
    else running_subtotal cat l.
Proof. unfold running_subtotal. now rewrite fold_left_app. Qed.

Lemma get_bump (cat : category) (sc : float) (c : category) (e : ScoreEntry) :
  Assoc.get category_eqb cat (categories (bump sc c e))
  = if category_eqb cat c
    then Some (JS.or_zero (Assoc.get category_eqb c (categories e)) + sc)
    else Assoc.get category_eqb cat (categories e).
Proof.
  cbn [bump categories].
  destruct (category_eqb cat c) eqn:E.
  - apply category_eqb_spec in E. subst cat.
    apply (get_set_same category_eqb category_eqb_spec).
  - apply (get_set_other category_eqb category_eqb_spec).
    intros ->. rewrite (eqb_refl_true category_eqb category_eqb_spec) in E.
    discriminate.
Qed.

Lemma tracks_snoc (cs : list ScoreCall) (c : ScoreCall) (m : ScoreMap) :
  tracks cs m ->
  tracks (cs ++ [c]) (addScore (call_color c) (call_score c) (call_category c) m).
Proof.
  intros [Hnd Hm]. unfold addScore.
  destruct (JS.truthy_str (call_color c)) eqn:Hc; cbn [negb].
  2:{ split; [exact Hnd|]. intros k. rewrite calls_for_snoc.
      unfold reaches. rewrite Hc. cbn [andb]. rewrite app_nil_r. apply Hm. }
  set (k0 := JS.toLowerCase (call_color c)).
  split; [now apply set_NoDup; [apply String.eqb_eq|]|].
  intros k. rewrite calls_for_snoc. unfold reaches. rewrite Hc. cbn [andb]. fold k0.
  destruct (String.eqb k0 k) eqn:Ek.
  - apply String.eqb_eq in Ek. subst k.
    rewrite (get_set_same String.eqb String.eqb_eq).
    specialize (Hm k0). rewrite running_total_snoc.
    destruct (Assoc.get String.eqb k0 m) as [e|].
    + destruct Hm as [Ht Hcat]. split; [cbn; now rewrite Ht|].
      intros cat. rewrite running_subtotal_snoc, get_bump. unfold in_category.
      destruct (category_eqb cat (call_category c)) eqn:E; [|apply Hcat].
      apply category_eqb_spec in E. subst cat. now rewrite Hcat.
    + rewrite Hm. split; [reflexivity|].
      intros cat. rewrite running_subtotal_snoc, get_bump. unfold in_category.
      now destruct (category_eqb cat (call_category c)).
  - rewrite app_nil_r.
    rewrite (get_set_other String.eqb String.eqb_eq); [apply Hm|].
    intros ->. rewrite String.eqb_refl in Ek. discriminate.
Qed.

Lemma applyCalls_tracks (cs : list ScoreCall) : tracks cs (applyCalls cs []).
Proof.
  induction cs as [|c cs IH] using rev_ind; [apply tracks_nil|].
  rewrite applyCalls_snoc. now apply tracks_snoc.
Qed.

(** Calls fall into the six categories, each into exactly one. *)
Lemma calls_by_category (l : list ScoreCall) :
  Permutation l
    (List.concat (map (fun cat => filter (in_category cat) l) all_categories)).
Proof.
  induction l as [|c l IH]; [reflexivity|].
  unfold all_categories, in_category in *. cbn [map List.concat filter] in *.
  destruct (call_category c); cbn [category_eqb app]; rewrite IH at 1;
    repeat first
      [ reflexivity
      | etransitivity; [apply Permutation_middle|]; apply Permutation_app_head ].
Qed.

(** ** Background colours *)

Lemma distinct_In (l : list string) (x : string) : In x (JS.distinct l) <-> In x l.
Proof.
  induction l as [|a l IH]; [reflexivity|].
  cbn [JS.distinct]. simpl. rewrite filter_In, IH.
  destruct (String.eqb a x) eqn:E.
  - apply String.eqb_eq in E. subst. simpl. tauto.
  - apply String.eqb_neq in E. simpl. tauto.
Qed.

Lemma distinct_NoDup (l : list string) : NoDup (JS.distinct l).
Proof.
  induction l as [|a l IH]; [constructor|].
  cbn [JS.distinct]. constructor.
  - rewrite filter_In, String.eqb_refl. simpl. intros [_ H]. discriminate.
  - now apply NoDup_filter.
Qed.

Lemma distinct_head (l : list string) : hd_error (JS.distinct l) = hd_error l.
Proof. now destruct l. Qed.


Lemma large_nonneg (bg : BackgroundCandidate) : large bg -> nonneg (bg_area bg).
Proof. intros H. apply ltb_nonneg with 50000; [reflexivity|exact H]. Qed.

Lemma byAreaDesc_spec (a b : BackgroundCandidate) :
  large a -> large b -> byAreaDesc a b = (bg_area a <? bg_area b).
Proof. intros Ha Hb. apply sub_sign; now apply large_nonneg. Qed.

Lemma large_backgrounds_large (cd : ColorData) : Forall large (large_backgrounds cd).
Proof.
  unfold large_backgrounds. rewrite Forall_forall. intros bg Hbg.
  now apply filter_In in Hbg.
Qed.

Lemma in_order_descending (l : list BackgroundCandidate) :
  Forall large l -> StronglySorted (JS.in_order byAreaDesc) l ->
  StronglySorted (fun a b => (bg_area b <=? bg_area a) = true) l.
Proof.
  intros Hl Hs. induction Hs as [|a l Hs IH Ha]; constructor.
  - apply IH. now inversion Hl.
  - inversion Hl as [|? ? Hla Hll]; subst.
    rewrite Forall_forall in *. intros b Hb. specialize (Ha b Hb).
    unfold JS.in_order in Ha. rewrite byAreaDesc_spec in Ha by auto.
    rewrite leb_ltb by (apply large_nonneg; auto). now rewrite Ha.
Qed.

(** C5 (as the code has it): the candidates with area strictly above 50000
    are sorted by descending area (equal areas keep their order), the first
    three candidates are taken, and the reported backgrounds are the
    distinct colours among those three; the background field is the first
    of them, or "#ffffff" when there is none (or it is the empty string). *)
Theorem backgrounds_top3_then_distinct (cd : ColorData) :
  let sorted := JS.sort byAreaDesc (large_backgrounds cd) in
  Permutation sorted (large_backgrounds cd)
  /\ StronglySorted (fun a b => (bg_area b <=? bg_area a) = true) sorted
  /\ (forall v, filter (fun bg => bg_area bg =? v) sorted
                = filter (fun bg => bg_area bg =? v) (large_backgrounds cd))
  /\ Palette.backgrounds (classifyColors cd)
     = JS.distinct (map bg_color (firstn 3 sorted))
  /\ NoDup (Palette.backgrounds (classifyColors cd))
  /\ (forall c, In c (Palette.backgrounds (classifyColors cd))
                <-> In c (map bg_color (firstn 3 sorted)))
  /\ Palette.background (classifyColors cd)
     = match Palette.backgrounds (classifyColors cd) with
       | c :: _ => if JS.truthy_str c then c else "#ffffff"
       | [] => "#ffffff"
       end.
Proof.
  intros sorted.
  pose proof (large_backgrounds_large cd) as Hl.
  assert (Hperm : Permutation sorted (large_backgrounds cd)) by apply sort_perm.
  assert (Hls : Forall large sorted)
    by (eapply Permutation_Forall; [symmetry; exact Hperm|exact Hl]).
  split; [exact Hperm|]. split; [|split; [|split; [|split; [|split]]]].
  - apply in_order_descending; [exact Hls|].
    apply (sort_sorted byAreaDesc large); [| |exact Hl].
    + intros x y Hx Hy. rewrite !byAreaDesc_spec by assumption. apply ltb_asym.
    + intros x y z Hx Hy Hz. rewrite !byAreaDesc_spec by assumption.
      apply ltb_negtrans. now apply large_nonneg.
  - intros v. apply sort_stable. intros x y Hx Hy Hpx Hpy.
    rewrite Forall_forall in Hl. rewrite byAreaDesc_spec by auto.
    now apply eqb_trans_ltb with v.
  - reflexivity.
  - apply distinct_NoDup.
  - intros c. apply distinct_In.
  - unfold classifyColors. cbn [Palette.background Palette.backgrounds].
    unfold or_default. rewrite <- (distinct_head (bgColors cd)).
    destruct (JS.distinct (bgColors cd)) as [|c l]; [reflexivity|].
    cbn [hd_error JS.or_str]. now destruct (JS.truthy_str c).
Qed.

(** C5 fails as stated: with two white sections ahead of a light and a dark
    one, the three largest candidates hold two colours only, so two
    backgrounds are reported, not the three distinct colours of the page. *)
Lemma backgrounds_not_as_claimed :
  Palette.backgrounds (classifyColors white_page_with_footer) = ["#ffffff"; "#f5f5f5"]
  /\ backgrounds_as_claimed white_page_with_footer = ["#ffffff"; "#f5f5f5"; "#222222"].
Proof. split; vm_compute; reflexivity. Qed.

(** ** Every contribution is positive *)

Lemma vibrancy_well_formed (c : string) (r g b : Z) :
  rgb_of_hex c = Some (r, g, b) ->
  exists p, In p penalties
    /\ getColorVibrancy c
       = byte_saturation (Z.max (Z.max r g) b) (Z.min (Z.min r g) b) * p.
Proof.
  intros H. unfold getColorVibrancy.
  rewrite (saturation_well_formed c r g b H).
  destruct c; [discriminate H|]. cbn [JS.truthy_str negb].
  destruct ((luminance _ <? 0.15) || (0.85 <? luminance _));
    eexists; (split; [|reflexivity]); simpl; auto.
Qed.

Lemma vibrancy_bonus_nonneg (c : string) (k : float) :
  well_formed c = true -> In k vibrancy_weights -> nonneg (getColorVibrancy c * k).
Proof.
  unfold well_formed. intros Hc Hk.
  destruct (rgb_of_hex c) as [[[r g] b]|] eqn:E; [|discriminate].
  destruct (channels_well_formed c r g b E) as (_ & Hr & Hg & Hb).
  destruct (vibrancy_well_formed c r g b E) as (p & Hp & ->).
  apply weighted_saturation_nonneg; (lia || assumption).
Qed.

(** *** Occurrence counts *)

Lemma set_Forall {K V : Type} (eqb : K -> K -> bool) (P : K * V -> Prop)
    (k : K) (v : V) (m : list (K * V)) :
  (forall k', eqb k k' = true -> P (k', v)) -> P (k, v) ->
  Forall P m -> Forall P (Assoc.set eqb k v m).
Proof.
  intros Hk Hkv Hm. induction Hm as [|[k' v'] m Hx Hm IH]; simpl.
  - now repeat constructor.
  - destruct (eqb k k') eqn:E; constructor; auto.
Qed.

Lemma get_In {K V : Type} (eqb : K -> K -> bool) (k : K) (v : V) (m : list (K * V)) :
  Assoc.get eqb k m = Some v -> exists k', eqb k k' = true /\ In (k', v) m.
Proof.
  induction m as [|[k' v'] m IH]; simpl; [discriminate|].
  destruct (eqb k k') eqn:E.
  - intros H. injection H as ->. exists k'. auto.
  - intros H. destruct (IH H) as (k'' & Hk & Hin). exists k''. auto.
Qed.

Lemma one_nonneg : nonneg 1.
Proof. reflexivity. Qed.

(** Every count is at least one and counts a colour of the list. *)
Lemma countColors_spec (l : list string) :
  Forall (fun x => (1 <=? snd x) = true /\ In (fst x) l) (countColors l).
Proof.
  unfold countColors.
  assert (H : forall m l0,
             Forall (fun x => (1 <=? snd x) = true /\ In (fst x) (l0 ++ l)) m ->
             Forall (fun x => (1 <=? snd x) = true /\ In (fst x) (l0 ++ l))
               (fold_left
                  (fun counts c =>
                     Assoc.set String.eqb c
                       (JS.or_zero (Assoc.get String.eqb c counts) + 1) counts) l m)).
  { induction l as [|c l IH]; intros m l0 Hm; [exact Hm|].
    cbn [fold_left].
    replace (l0 ++ c :: l) with ((l0 ++ [c]) ++ l) in * by (now rewrite <- app_assoc).
    apply IH.
    assert (Hv : (1 <=? JS.or_zero (Assoc.get String.eqb c m) + 1) = true).
    { destruct (Assoc.get String.eqb c m) as [v|] eqn:Eg; [|reflexivity].
      destruct (get_In _ _ _ _ Eg) as (k' & _ & Hin).
      rewrite Forall_forall in Hm. destruct (Hm _ Hin) as [Hv _]. cbn [snd] in Hv.
      assert (Hpos : (0 <? v) = true) by (now apply ltb_leb_trans with 1).
      cbn [JS.or_zero]. rewrite (positive_truthy v Hpos).
      apply add_ge; [|exact one_nonneg].
      now apply leb_nonneg with 1. }
    apply set_Forall; [| |exact Hm].
    - intros k' Hk. apply String.eqb_eq in Hk. subst k'. split; [exact Hv|].
      cbn [fst]. apply in_or_app. left. apply in_or_app. right. now left.
    - split; [exact Hv|]. cbn [fst]. apply in_or_app. left. apply in_or_app.
      right. now left. }
  apply (H [] []). constructor.
Qed.

(** *** Scores of the calls *)

Lemma weights_In :
  In 100 vibrancy_weights /\ In 30 vibrancy_weights /\ In 40 vibrancy_weights
  /\ In 80 vibrancy_weights /\ In 60 vibrancy_weights.
Proof. unfold vibrancy_weights. simpl. tauto. Qed.

Lemma buttonScore_floor (btn : ButtonCandidate) :
  well_formed (btn_color btn) = true -> nonneg (btn_area btn) ->
  (50 <=? buttonScore btn) = true.
Proof.
  intros Hc Ha. unfold buttonScore.
  apply add_lower_l; [reflexivity| |apply vibrancy_bonus_nonneg; [exact Hc|apply weights_In]].
  apply add_lower_l; [reflexivity|now destruct (btn_isVisible btn)|].
  apply min2_nonneg; [|reflexivity].
  apply div_nonneg; [exact Ha|]. now apply positive_finite_intro.
Qed.

Lemma countScore_floor (c : string) (count weight k : float) :
  positive_finite weight -> nonneg weight -> In k vibrancy_weights ->
  well_formed c = true -> (1 <=? count) = true ->
  (weight <=? count * weight + getColorVibrancy c * k) = true.
Proof.
  intros Hw Hw0 Hk Hc Hn.
  apply add_lower_l; [exact Hw0|now apply mul_ge|now apply vibrancy_bonus_nonneg].
Qed.

Lemma svgScore_floor (s : SvgCandidate) :
  well_formed (svg_color s) = true -> (50 <=? svgScore s) = true.
Proof.
  intros Hc. unfold svgScore.
  apply add_lower_l; [reflexivity|now destruct (svg_inHeader s)|].
  apply vibrancy_bonus_nonneg; [exact Hc|apply weights_In].
Qed.

Lemma accentScore_floor (a : AccentCandidate) :
  well_formed (acc_color a) = true -> (60 <=? accentScore a) = true.
Proof.
  intros Hc. unfold accentScore.
  apply add_lower_l; [reflexivity|reflexivity|].
  apply vibrancy_bonus_nonneg; [exact Hc|apply weights_In].
Qed.

Lemma forallb_Forall {A : Type} (f : A -> bool) (l : list A) :
  forallb f l = true -> Forall (fun x => f x = true) l.
Proof. rewrite forallb_forall, Forall_forall. auto. Qed.

Lemma filter_keeps_Forall {A : Type} (f : A -> bool) (P : A -> Prop) (l : list A) :
  Forall P l -> Forall P (filter f l).
Proof.
  induction 1 as [|a l Ha Hl IH]; simpl; [constructor|].
  destruct (f a); [constructor|]; assumption.
Qed.

Lemma Forall_map_iff {A B : Type} (f : A -> B) (P : B -> Prop) (l : list A) :
  Forall (fun x => P (f x)) l -> Forall P (map f l).
Proof. induction 1; simpl; constructor; auto. Qed.

Lemma scoreCalls_floor (cd : ColorData) :
  well_formed_input cd = true ->
  Forall (fun c => (floor_of (call_category c) <=? call_score c) = true) (scoreCalls cd).
Proof.
  unfold well_formed_input. intros H.
  repeat (apply andb_prop in H; destruct H as [H ?]).
  repeat match goal with
         | Hf : forallb _ _ = true |- _ => apply forallb_Forall in Hf
         end.
  unfold scoreCalls. rewrite !Forall_app. repeat split; apply Forall_map_iff;
    cbn [call_category call_score floor_of].
  - eapply Forall_impl; [|exact H]. intros btn Hb. cbv beta in Hb.
    apply andb_prop in Hb. destruct Hb as [Hc Ha]. now apply buttonScore_floor.
  - pose proof (countColors_spec (links cd)) as Hn.
    eapply Forall_impl; [|exact Hn]. intros [c n] [Hge Hin]. cbn [fst snd] in *.
    rewrite Forall_forall in *.
    apply (countScore_floor c n 10 30);
      [now apply positive_finite_intro|reflexivity|apply weights_In|auto|exact Hge].
  - rewrite Forall_forall. intros bg _. unfold backgroundScore.
    now destruct (bg_isHero bg).
  - pose proof (countColors_spec (borders cd)) as Hn.
    apply filter_keeps_Forall. eapply Forall_impl; [|exact Hn].
    intros [c n] [Hge Hin]. cbn [fst snd] in *. rewrite Forall_forall in *.
    apply (countScore_floor c n 15 40);
      [now apply positive_finite_intro|reflexivity|apply weights_In|auto|exact Hge].
  - eapply Forall_impl; [|eassumption]. intros s Hs. now apply svgScore_floor.
  - eapply Forall_impl; [|eassumption]. intros a Ha. now apply accentScore_floor.
Qed.

(** *** Entries of the score map *)

Lemma floor_positive (cat : category) (x : float) :
  (floor_of cat <=? x) = true -> (0 <? x) = true.
Proof.
  intros H. apply ltb_leb_trans with (floor_of cat); [|exact H].
  now destruct cat.
Qed.

Lemma set_nonempty {K V : Type} (eqb : K -> K -> bool) (k : K) (v : V)
    (m : list (K * V)) : Assoc.set eqb k v m <> [].
Proof.
  destruct m as [|[k' v'] m]; simpl; [discriminate|].
  destruct (eqb k k'); discriminate.
Qed.

(** A positive score makes a fresh or healthy entry healthy. *)
Lemma bump_healthy (sc : float) (cat : category) (e : ScoreEntry) :
  (0 <? sc) = true ->
  healthy e \/ (total e = 0 /\ categories e = []) ->
  healthy (bump sc cat e).
Proof.
  intros Hsc He. unfold healthy. cbn [bump total categories].
  destruct He as [(Ht & Hne & Hnd & Hcat)|[Ht Hcat]].
  - split; [|split; [|split]].
    + apply add_positive; [|exact Hsc]. apply ltb_nonneg with 0; [reflexivity|exact Ht].
    + apply set_nonempty.
    + now apply set_NoDup; [apply category_eqb_spec|].
    + apply set_Forall; [| |exact Hcat]; try intros k' _; cbn [snd];
        (apply add_positive; [|exact Hsc]);
        (destruct (Assoc.get category_eqb cat (categories e)) as [v|] eqn:Eg;
         [|reflexivity]);
        destruct (get_In _ _ _ _ Eg) as (k'' & _ & Hin);
        rewrite Forall_forall in Hcat; specialize (Hcat _ Hin); cbn [snd] in Hcat;
        cbn [JS.or_zero]; rewrite (positive_truthy v Hcat);
        (apply ltb_nonneg with 0; [reflexivity|exact Hcat]).
  - rewrite Ht, Hcat. cbn [Assoc.get Assoc.set JS.or_zero map].
    assert (H : (0 <? 0 + sc) = true) by (apply add_positive; [reflexivity|exact Hsc]).
    split; [exact H|]. split; [discriminate|]. split; repeat constructor; auto.
Qed.

Lemma addScore_healthy (c : string) (sc : float) (cat : category) (m : ScoreMap) :
  (0 <? sc) = true ->
  Forall (fun x => healthy (snd x)) m ->
  Forall (fun x => healthy (snd x)) (addScore c sc cat m).
Proof.
  intros Hsc Hm. unfold addScore.
  destruct (JS.truthy_str c); cbn [negb]; [|exact Hm].
  assert (Hb : healthy
                 (bump sc cat
                    match Assoc.get String.eqb (JS.toLowerCase c) m with
                    | Some e => e
                    | None => {| total := 0; categories := [];
                                 vibrancy := getColorVibrancy (JS.toLowerCase c) |}
                    end)).
  { apply bump_healthy; [exact Hsc|].
    destruct (Assoc.get String.eqb (JS.toLowerCase c) m) as [e|] eqn:Eg.
    - left. destruct (get_In _ _ _ _ Eg) as (k' & _ & Hin).
      rewrite Forall_forall in Hm. exact (Hm _ Hin).
    - right. split; reflexivity. }
  apply set_Forall; [intros k' _; exact Hb|exact Hb|exact Hm].
Qed.

Lemma applyCalls_healthy (cs : list ScoreCall) :
  Forall (fun c => (0 <? call_score c) = true) cs ->
  Forall (fun x => healthy (snd x)) (applyCalls cs []).
Proof.
  induction cs as [|c cs IH] using rev_ind; intros H; [constructor|].
  apply Forall_app in H. destruct H as [Hcs Hc]. inversion Hc; subst.
  rewrite applyCalls_snoc. apply addScore_healthy; auto.
Qed.

(** The usage list of a healthy entry names exactly the categories with a
    nonzero subtotal. *)
Lemma healthy_usage (e : ScoreEntry) (cat : category) :
  healthy e ->
  (In cat (map fst (categories e)) <-> nonzero (subtotal cat e) = true).
Proof.
  intros (_ & _ & _ & Hcat). unfold subtotal, nonzero. split.
  - intros Hin.
    destruct (Assoc.get category_eqb cat (categories e)) as [v|] eqn:Eg.
    + destruct (get_In _ _ _ _ Eg) as (k' & _ & Hv).
      rewrite Forall_forall in Hcat. apply positive_truthy. exact (Hcat _ Hv).
    + now apply (get_None_notin category_eqb category_eqb_spec) in Eg.
  - destruct (Assoc.get category_eqb cat (categories e)) as [v|] eqn:Eg;
      [|discriminate].
    intros _. destruct (get_In _ _ _ _ Eg) as (k' & Hk & Hv).
    apply category_eqb_spec in Hk. subst k'. now apply (in_map fst) in Hv.
Qed.

Lemma contributions_are_positive_entries (cd : ColorData) :
  well_formed_input cd = true ->
  Forall (fun x => healthy (snd x)) (colorScores cd).
Proof.
  intros Hwf. rewrite colorScores_calls. apply applyCalls_healthy.
  eapply Forall_impl; [|exact (scoreCalls_floor cd Hwf)].
  intros c. apply floor_positive.
Qed.

(** C10: on inputs as the page produces them (well-formed colours,
    non-negative button areas) every call adds a positive score, at least
    50 for a button, 10 for a link, 15 for a background, 50 for an SVG
    colour and 60 for an accent element, and a border colour is scored only
    when its vibrancy exceeds 0.3; so every entry of the score map has a
    positive total, and every palette entry has a nonempty usage list that
    names, once each, exactly the categories with a nonzero subtotal. *)
Theorem contributions_are_positive (cd : ColorData) :
  well_formed_input cd = true ->
  Forall (fun c => (floor_of (call_category c) <=? call_score c) = true
                   /\ (0 <? call_score c) = true
                   /\ (call_category c = border ->
                       (0.3 <? getColorVibrancy (call_color c)) = true))
    (scoreCalls cd)
  /\ Forall (fun x => (0 <? total (snd x)) = true) (colorScores cd)
  /\ Palette.palette (classifyColors cd)
     = map paletteEntry (firstn 8 (sortedColors cd))
  /\ Forall (fun x =>
               score (paletteEntry x) = total (snd x)
               /\ usage (paletteEntry x) <> []
               /\ NoDup (usage (paletteEntry x))
               /\ forall cat,
                    In cat (usage (paletteEntry x))
                    <-> nonzero (subtotal cat (snd x)) = true)
       (sortedColors cd).
Proof.
  intros Hwf. pose proof (scoreCalls_floor cd Hwf) as Hfloor.
  assert (Hpos : Forall (fun c => (0 <? call_score c) = true) (scoreCalls cd)).
  { eapply Forall_impl; [|exact Hfloor]. intros c. apply floor_positive. }
  pose proof (applyCalls_healthy _ Hpos) as Hh. rewrite <- colorScores_calls in Hh.
  split; [|split; [|split]].
  - rewrite Forall_forall in *. intros c Hc.
    split; [now apply Hfloor|]. split; [now apply Hpos|].
    intros Hcat. unfold scoreCalls in Hc.
    repeat (apply in_app_or in Hc; destruct Hc as [Hc|Hc]);
      apply in_map_iff in Hc; destruct Hc as (x & <- & Hx);
      cbn [call_category] in Hcat; try discriminate.
    apply filter_In in Hx. exact (proj2 Hx).
  - eapply Forall_impl; [|exact Hh]. intros x Hx. apply Hx.
  - reflexivity.
  - rewrite Forall_forall in *. intros x Hx.
    apply sort_In, filter_In in Hx. destruct Hx as [Hx _].
    pose proof (Hh x Hx) as Hex. destruct Hex as (Ht & Hne & Hnd & Hcat).
    split; [reflexivity|]. split; [|split; [exact Hnd|]].
    + cbn [paletteEntry usage]. destruct (categories (snd x)); [congruence|discriminate].
    + intros cat. apply healthy_usage. repeat split; assumption.
Qed.

(** A brand colour on a button and in the header logo. *)
Lemma contributions_are_positive_witness :
  Forall (fun x => (0 <? total (snd x)) = true) (colorScores brand_on_button_and_logo).
Proof.
  apply (contributions_are_positive brand_on_button_and_logo). reflexivity.
Defined.

(** ** Totals and subtotals as sums *)

Lemma add_zero_l (v : float) : (0 <? v) = true -> 0 + v = v.
Proof.
  intros H. apply Prim2SF_inj. rewrite FloatAxioms.add_spec.
  rewrite FloatAxioms.ltb_spec in H. rewrite Prim2SF_zero in *.
  destruct (Prim2SF v) as [[]|[]| |[] m e]; try discriminate H; reflexivity.
Qed.

Lemma double_sum_snoc (l : list float) (x : float) :
  double_sum (l ++ [x]) = double_sum l + x.
Proof. unfold double_sum. now rewrite fold_left_app. Qed.

(** A sum of positive doubles is positive, unless it is empty. *)
Lemma double_sum_positive (l : list float) :
  Forall (fun x => (0 <? x) = true) l ->
  nonneg (double_sum l) /\ (l <> [] -> (0 <? double_sum l) = true).
Proof.
  induction l as [|x l IH] using rev_ind; intros H.
  - split; [reflexivity|congruence].
  - apply Forall_app in H. destruct H as [Hl Hx]. apply Forall_inv in Hx.
    destruct (IH Hl) as [Hn _]. rewrite double_sum_snoc.
    assert (Hp : (0 <? double_sum l + x) = true) by now apply add_positive.
    split; [|intros _; exact Hp].
    apply ltb_nonneg with 0; [reflexivity|exact Hp].
Qed.

Lemma running_total_sum (l : list ScoreCall) :
  running_total l = double_sum (map call_score l).
Proof.
  induction l as [|c l IH] using rev_ind; [reflexivity|].
  rewrite running_total_snoc, map_app. cbn [map]. now rewrite double_sum_snoc, IH.
Qed.

Lemma scores_under_snoc (cat : category) (l : list ScoreCall) (c : ScoreCall) :
  scores_under cat (l ++ [c])
  = scores_under cat l ++ (if in_category cat c then [call_score c] else []).
Proof.
  unfold scores_under. rewrite filter_app, map_app. cbn [filter].
  now destruct (in_category cat c).
Qed.

Lemma scores_under_positive (cat : category) (l : list ScoreCall) :
  Forall (fun c => (0 <? call_score c) = true) l ->
  Forall (fun x => (0 <? x) = true) (scores_under cat l).
Proof.
  intros H. unfold scores_under. apply Forall_map_iff. now apply filter_keeps_Forall.
Qed.

(** With positive scores a subtotal never restarts: it is the sum of the
    scores of its category. *)
Lemma running_subtotal_sum (cat : category) (l : list ScoreCall) :
  Forall (fun c => (0 <? call_score c) = true) l ->
  running_subtotal cat l
  = match scores_under cat l with
    | [] => None
    | scores => Some (double_sum scores)
    end.
Proof.
  induction l as [|c l IH] using rev_ind; intros H; [reflexivity|].
  apply Forall_app in H. destruct H as [Hl Hc]. apply Forall_inv in Hc.
  specialize (IH Hl). rewrite running_subtotal_snoc, scores_under_snoc.
  destruct (in_category cat c); [|now rewrite app_nil_r].
  rewrite IH.
  destruct (double_sum_positive _ (scores_under_positive cat l Hl)) as [_ Hp].
  destruct (scores_under cat l) as [|s scores] eqn:E.
  - reflexivity.
  - cbn [JS.or_zero app]. rewrite positive_truthy by (apply Hp; discriminate).
    change (s :: scores ++ [call_score c]) with ((s :: scores) ++ [call_score c]).
    now rewrite double_sum_snoc.
Qed.

(** An association list without repeated keys that holds [k] and nothing
    else has one entry. *)
Lemma single_key {V : Type} (k : category) (v : V) (m : list (category * V)) :
  NoDup (map fst m) ->
  Assoc.get category_eqb k m = Some v ->
  (forall k', k' <> k -> Assoc.get category_eqb k' m = None) ->
  m = [(k, v)].
Proof.
  intros Hnd Hk Hother.
  assert (Hkeys : forall k', In k' (map fst m) -> k' = k).
  { intros k' Hin. destruct (category_eqb k' k) eqn:E; [now apply category_eqb_spec|].
    exfalso. apply (get_None_notin category_eqb category_eqb_spec k' m); [|exact Hin].
    apply Hother. intros ->. now rewrite (eqb_refl_true category_eqb category_eqb_spec) in E. }
  destruct m as [|[k1 v1] m]; [discriminate|].
  assert (H1 : k1 = k) by (apply Hkeys; now left). subst k1.
  cbn [Assoc.get] in Hk.
  rewrite (eqb_refl_true category_eqb category_eqb_spec) in Hk. injection Hk as ->.
  destruct m as [|[k2 v2] m]; [reflexivity|].
  exfalso. cbn [map fst] in Hnd, Hkeys. inversion Hnd as [|? ? Hn _]; subst.
  apply Hn. left. apply Hkeys. right. now left.
Qed.

Lemma filter_all {A : Type} (f : A -> bool) (l : list A) :
  Forall (fun x => f x = true) l -> filter f l = l.
Proof. induction 1 as [|x l Hx _ IH]; cbn [filter]; [reflexivity|]. now rewrite Hx, IH. Qed.

Lemma filter_none {A : Type} (f : A -> bool) (l : list A) :
  Forall (fun x => f x = false) l -> filter f l = [].
Proof. induction 1 as [|x l Hx _ IH]; cbn [filter]; [reflexivity|]. now rewrite Hx. Qed.

(** After calls with positive scores every entry is settled. *)
Lemma calls_settled (cs : list ScoreCall) :
  Forall (fun c => (0 <? call_score c) = true) cs ->
  Forall (settled cs) (applyCalls cs []).
Proof.
  intros Hpos. destruct (applyCalls_tracks cs) as [Hnd Hm].
  pose proof (applyCalls_healthy cs Hpos) as Hh.
  rewrite Forall_forall in *. intros [k e] Hx.
  destruct (Hh _ Hx) as (Ht & _ & Hkeys & _). cbn [snd] in Ht, Hkeys.
  apply (In_get String.eqb String.eqb_eq) in Hx; [|exact Hnd].
  specialize (Hm k). rewrite Hx in Hm. destruct Hm as [Htot Hcat].
  assert (Hl : Forall (fun c => (0 <? call_score c) = true) (calls_for k cs)).
  { apply filter_keeps_Forall. now apply Forall_forall. }
  assert (Hsub : forall cat,
             Assoc.get category_eqb cat (categories e)
             = match scores_under cat (calls_for k cs) with
               | [] => None
               | scores => Some (double_sum scores)
               end).
  { intros cat. rewrite Hcat. now apply running_subtotal_sum. }
  unfold settled. cbn [fst snd].
  split; [now rewrite Htot, running_total_sum|]. split; [exact Ht|].
  split; [exact Hsub|]. intros cat Hone.
  assert (Hcats : categories e = [(cat, total e)]).
  { apply single_key; [exact Hkeys| |].
    - rewrite Hsub. unfold scores_under. rewrite filter_all.
      + pose proof Ht as Ht'. rewrite Htot in Ht'. rewrite Htot, running_total_sum.
        revert Ht'. destruct (calls_for k cs) as [|c l]; [discriminate|reflexivity].
      + eapply Forall_impl; [|exact Hone]. intros c <-. unfold in_category.
        apply (eqb_refl_true category_eqb category_eqb_spec).
    - intros cat' Hne. rewrite Hsub. unfold scores_under. rewrite filter_none; [reflexivity|].
      eapply Forall_impl; [|exact Hone]. intros c <-. unfold in_category.
      destruct (category_eqb cat' (call_category c)) eqn:E; [|reflexivity].
      apply category_eqb_spec in E. congruence. }
  split; [exact Hcats|]. unfold sum_subtotals. rewrite Hcats. cbn [fold_left snd].
  symmetry. now apply add_zero_l.
Qed.

Lemma firstn_Forall {A : Type} (P : A -> Prop) (n : nat) (l : list A) :
  Forall P l -> Forall P (firstn n l).
Proof.
  intros H. rewrite Forall_forall in *. intros x Hx. apply H.
  rewrite <- (firstn_skipn n l). apply in_or_app. now left.
Qed.

(** C4 (as the code has it): after every individual [addScore] call, and so
    when all candidates are processed, each entry's total is the running
    double-precision sum of the scores added to its colour, each category
    subtotal is the running sum of the scores added under that category
    (restarting from 0 after a subtotal that is 0 or [NaN]), and every
    call falls into exactly one category.  On input of the documented form
    (hex colours, button areas that are at least 0) every score is
    positive, so no subtotal restarts: the total is the positive
    left-to-right sum of all the scores, each subtotal the left-to-right
    sum of the scores of its category, and an entry scored under a single
    category holds that one subtotal and has total equal to the sum of its
    subtotals, bit for bit.  An entry scored under several categories adds
    up the same numbers in another order, and the two sums can differ. *)
Theorem totals_and_subtotals_are_running_sums (cd : ColorData) (n : nat) :
  colorScores cd = applyCalls (scoreCalls cd) []
  /\ Forall (records (firstn n (scoreCalls cd)))
       (applyCalls (firstn n (scoreCalls cd)) [])
  /\ Forall (records (scoreCalls cd)) (colorScores cd)
  /\ (well_formed_input cd = true ->
      Forall (fun c => (0 <? call_score c) = true) (scoreCalls cd)
      /\ Forall (settled (firstn n (scoreCalls cd)))
           (applyCalls (firstn n (scoreCalls cd)) [])
      /\ Forall (settled (scoreCalls cd)) (colorScores cd)).
Proof.
  assert (H : forall cs, Forall (records cs) (applyCalls cs [])).
  { intros cs. destruct (applyCalls_tracks cs) as [Hnd Hm].
    rewrite Forall_forall. intros [k e] Hx.
    apply (In_get String.eqb String.eqb_eq) in Hx; [|exact Hnd].
    specialize (Hm k). rewrite Hx in Hm. destruct Hm as [Ht Hcat].
    repeat split; [exact Ht|exact Hcat|apply calls_by_category]. }
  split; [apply colorScores_calls|]. split; [apply H|].
  split; [rewrite colorScores_calls; apply H|].
  intros Hwf.
  assert (Hpos : Forall (fun c => (0 <? call_score c) = true) (scoreCalls cd)).
  { eapply Forall_impl; [|exact (scoreCalls_floor cd Hwf)]. intros c. apply floor_positive. }
  split; [exact Hpos|]. split; [apply calls_settled; now apply firstn_Forall|].
  rewrite colorScores_calls. now apply calls_settled.
Qed.

(** Two buttons of one colour: the entry is scored under one category. *)
Lemma totals_and_subtotals_are_running_sums_witness :
  well_formed_input two_buttons = true
  /\ Forall (settled (scoreCalls two_buttons)) (colorScores two_buttons)
  /\ Forall (fun x => total (snd x) = sum_subtotals (snd x)) (colorScores two_buttons).
Proof.
  split; [reflexivity|].
  destruct (totals_and_subtotals_are_running_sums two_buttons 0) as (_ & _ & _ & H).
  destruct (H eq_refl) as (_ & _ & Hs).
  split; [exact Hs|].
  eapply Forall_impl; [|exact Hs]. intros [k e] (_ & _ & _ & Hone). cbn [fst snd] in *.
  apply (Hone button).
  apply filter_keeps_Forall. repeat constructor.
Defined.

(** C4 fails as stated: for a brand colour on one button and on three
    header SVG shapes the total is 784.66666666666652 while the subtotals
    add up to 784.66666666666663. *)
Lemma total_is_not_sum_of_subtotals :
  exists k e,
    In (k, e) (colorScores brand_on_button_and_logo)
    /\ total e <> sum_subtotals e.
Proof.
  eexists. eexists. split; [vm_compute; left; reflexivity|].
  intros H. apply FloatAxioms.Leibniz.eqb_spec in H. vm_compute in H. discriminate.
Qed.
(** ** The ranked list and the secondary and accent roles *)

(** *** Border colours are never neutral-or-dark *)

Lemma hex_digit_lower (c : ascii) : JS.hex_digit (JS.lower c) = JS.hex_digit c.
Proof.
  assert (H : forallb (fun c =>
                match JS.hex_digit (JS.lower c), JS.hex_digit c with
                | Some a, Some b => (a =? b)%Z
                | None, None => true
                | _, _ => false
                end) all_ascii = true) by (vm_compute; reflexivity).
  rewrite forallb_forall in H. specialize (H c (in_all_ascii c)).
  destruct (JS.hex_digit (JS.lower c)), (JS.hex_digit c); try discriminate;
    [|reflexivity].
  apply Z.eqb_eq in H. now subst.
Qed.

Lemma rgb_of_hex_lower (hex : string) (rgb : Z * Z * Z) :
  rgb_of_hex hex = Some rgb -> rgb_of_hex (JS.toLowerCase hex) = Some rgb.
Proof.
  unfold rgb_of_hex. intros H.
  destruct hex as [|c0 [|r1 [|r2 [|g1 [|g2 [|b1 [|b2 [|]]]]]]]]; try discriminate;
    try (destruct c0 as [[] [] [] [] [] [] [] []]; discriminate).
  destruct c0 as [[] [] [] [] [] [] [] []]; try discriminate.
  cbn [JS.toLowerCase]. change (JS.lower "#") with "#"%char.
  unfold hex_pair in *. now rewrite !hex_digit_lower.
Qed.

Lemma luminance_saturation_lower (hex : string) :
  well_formed hex = true ->
  luminance (JS.toLowerCase hex) = luminance hex
  /\ saturation (JS.toLowerCase hex) = saturation hex.
Proof.
  unfold well_formed. intros H.
  destruct (rgb_of_hex hex) as [[[r g] b]|] eqn:E; [|discriminate].
  pose proof (rgb_of_hex_lower hex _ E) as El.
  destruct (channels_well_formed _ _ _ _ E) as (Hc & _).
  destruct (channels_well_formed _ _ _ _ El) as (Hl & _).
  unfold luminance, saturation. now rewrite Hc, Hl.
Qed.

(** Checked on every pair of channel extremes: a penalised saturation
    never exceeds 0.3, and one above 0.3 is not below 0.25. *)
Lemma vibrant_saturation (mx mn : Z) :
  (0 <= mx <= 255)%Z -> (0 <= mn <= 255)%Z -> (mn <= mx)%Z ->
  (0.3 <? byte_saturation mx mn * 0.3) = false
  /\ ((0.3 <? byte_saturation mx mn * 1) = true ->
      (byte_saturation mx mn <? 0.25) = false).
Proof.
  intros Hmx Hmn Hle.
  pose proof (forall_bytes2
    (fun mx fmx mn fmn =>
       negb (mn <=? mx)%Z
       || let s := saturation_of fmx fmn in
          negb (0.3 <? s * 0.3) && (negb (0.3 <? s * 1) || negb (s <? 0.25)))) as H.
  specialize (H ltac:(vm_compute; reflexivity) mx mn Hmx Hmn). cbv beta zeta in H.
  fold (byte_saturation mx mn) in H.
  apply orb_prop in H. destruct H as [H|H];
    [apply negb_true_iff, Z.leb_gt in H; lia|].
  apply andb_prop in H. destruct H as [H1 H2].
  apply negb_true_iff in H1. split; [exact H1|]. intros H3.
  rewrite H3 in H2. now apply negb_true_iff in H2.
Qed.

(** A well-formed colour scored as a border is not neutral-or-dark. *)
Lemma vibrant_not_neutral_or_dark (c : string) :
  well_formed c = true -> (0.3 <? getColorVibrancy c) = true ->
  isNeutralOrDark (JS.toLowerCase c) = false.
Proof.
  intros Hwf Hv.
  destruct (luminance_saturation_lower c Hwf) as [Hl Hs].
  unfold well_formed in Hwf.
  destruct (rgb_of_hex c) as [[[r g] b]|] eqn:E; [|discriminate].
  destruct (channels_well_formed c r g b E) as (_ & Hr & Hg & Hb).
  pose proof (saturation_well_formed c r g b E) as Hsat.
  destruct (vibrant_saturation (Z.max (Z.max r g) b) (Z.min (Z.min r g) b))
    as [Hpen Hfull]; try lia.
  unfold isNeutralOrDark, getColorVibrancy in *.
  destruct c as [|c0 c]; [discriminate E|].
  cbn [JS.toLowerCase JS.truthy_str negb] in *.
  change (String (JS.lower c0) (JS.toLowerCase c))
    with (JS.toLowerCase (String c0 c)) in *.
  rewrite Hl, Hs, Hsat. rewrite Hsat in Hv.
  destruct (luminance (String c0 c) <? 0.15) eqn:Edark.
  - cbn [orb] in Hv. congruence.
  - cbn [orb] in Hv. rewrite orb_false_r.
    destruct (0.85 <? luminance (String c0 c)); [congruence|].
    now apply Hfull.
Qed.

Lemma running_subtotal_call (cat : category) (l : list ScoreCall) (v : float) :
  running_subtotal cat l = Some v -> exists c, In c l /\ in_category cat c = true.
Proof.
  induction l as [|c l IH] using rev_ind; [discriminate|].
  rewrite running_subtotal_snoc.
  destruct (in_category cat c) eqn:E.
  - intros _. exists c. split; [apply in_or_app; right; now left|exact E].
  - intros H. destruct (IH H) as (c' & Hin & Hc').
    exists c'. split; [apply in_or_app; now left|exact Hc'].
Qed.

Lemma border_entries_vibrant (cd : ColorData) (k : string) (e : ScoreEntry) :
  forallb well_formed (borders cd) = true ->
  In (k, e) (colorScores cd) ->
  nonzero (subtotal border e) = true ->
  isNeutralOrDark k = false.
Proof.
  intros Hwf Hin Hb.
  rewrite colorScores_calls in Hin.
  destruct (applyCalls_tracks (scoreCalls cd)) as [Hnd Hm].
  apply (In_get String.eqb String.eqb_eq) in Hin; [|exact Hnd].
  specialize (Hm k). rewrite Hin in Hm. destruct Hm as [_ Hcat].
  unfold nonzero, subtotal in Hb. specialize (Hcat border).
  destruct (Assoc.get category_eqb border (categories e)) as [v|]; [|discriminate].
  symmetry in Hcat. destruct (running_subtotal_call _ _ _ Hcat) as (c & Hc & Hcb).
  apply filter_In in Hc. destruct Hc as [Hc Hreach].
  unfold in_category in Hcb. apply category_eqb_spec in Hcb.
  unfold scoreCalls in Hc.
  repeat (apply in_app_or in Hc; destruct Hc as [Hc|Hc]);
    apply in_map_iff in Hc; destruct Hc as (x & <- & Hx);
    cbn [call_category] in Hcb; try discriminate.
  apply filter_In in Hx. destruct Hx as [Hx Hvib].
  pose proof (countColors_spec (borders cd)) as Hn.
  rewrite Forall_forall in Hn. destruct (Hn x Hx) as [_ Hbx].
  rewrite forallb_forall in Hwf. specialize (Hwf _ Hbx).
  unfold reaches in Hreach. cbn [call_color] in Hreach.
  apply andb_prop in Hreach. destruct Hreach as [_ Hk].
  apply String.eqb_eq in Hk. subst k.
  now apply vibrant_not_neutral_or_dark.
Qed.

(** *** The ranked list is score-descending *)

Lemma byTotalDesc_spec (a b : string * ScoreEntry) :
  healthy (snd a) -> healthy (snd b) ->
  byTotalDesc a b = (total (snd a) <? total (snd b)).
Proof.
  intros (Ha & _) (Hb & _). apply sub_sign;
    (apply ltb_nonneg with 0; [reflexivity|assumption]).
Qed.

Lemma in_order_total_descending (l : list (string * ScoreEntry)) :
  Forall (fun x => healthy (snd x)) l ->
  StronglySorted (JS.in_order byTotalDesc) l ->
  StronglySorted (fun a b => (total (snd b) <=? total (snd a)) = true) l.
Proof.
  intros Hl Ho. induction Ho as [|a l Ho IH Ha]; constructor.
  - apply IH. now inversion Hl.
  - inversion Hl as [|? ? Hla Hll]; subst.
    rewrite Forall_forall in *. intros b Hb. specialize (Ha b Hb).
    unfold JS.in_order in Ha. rewrite byTotalDesc_spec in Ha by auto.
    destruct Hla as (Hta & _). destruct (Hll b Hb) as (Htb & _).
    rewrite leb_ltb by (apply ltb_nonneg with 0; [reflexivity|assumption]).
    now rewrite Ha.
Qed.

(** On inputs as the page produces them the ranked list holds the valid
    brand colours of the score map by descending total, colours of equal
    total in the order the map first saw them. *)
Lemma ranked_descending (cd : ColorData) :
  well_formed_input cd = true ->
  let valid := filter (fun '(c, _) => isValidBrandColor c) (colorScores cd) in
  Permutation (sortedColors cd) valid
  /\ StronglySorted (fun a b => (total (snd b) <=? total (snd a)) = true)
       (sortedColors cd)
  /\ forall v, filter (fun x => total (snd x) =? v) (sortedColors cd)
               = filter (fun x => total (snd x) =? v) valid.
Proof.
  intros Hwf valid.
  pose proof (contributions_are_positive_entries cd Hwf) as Hh.
  assert (Hv : Forall (fun x => healthy (snd x)) valid).
  { unfold valid. rewrite Forall_forall in *. intros x Hx.
    apply filter_In in Hx. now apply Hh. }
  assert (Hperm : Permutation (sortedColors cd) valid) by apply sort_perm.
  assert (Hs : Forall (fun x => healthy (snd x)) (sortedColors cd))
    by (eapply Permutation_Forall; [symmetry; exact Hperm|exact Hv]).
  split; [exact Hperm|]. split.
  - apply in_order_total_descending; [exact Hs|].
    apply (sort_sorted byTotalDesc (fun x => healthy (snd x))); [| |exact Hv].
    + intros x y Hx Hy. rewrite !byTotalDesc_spec by assumption. apply ltb_asym.
    + intros x y z Hx Hy Hz. rewrite !byTotalDesc_spec by assumption.
      apply ltb_negtrans. destruct Hy as (Hy & _).
      apply ltb_nonneg with 0; [reflexivity|exact Hy].
  - intros v. apply sort_stable. intros x y Hx Hy Hpx Hpy.
    rewrite Forall_forall in Hv. rewrite byTotalDesc_spec by auto.
    now apply eqb_trans_ltb with v.
Qed.

(** *** Secondary and accent *)

Lemma secondary_code_cascade (cd : ColorData) :
  Palette.secondary (classifyColors cd) = Spec.secondary (sortedColors cd).
Proof.
  pose proof (sortedColors_keys_truthy cd) as Hk.
  destruct (match_truthy _ Hk) as (_ & Hs & _).
  unfold classifyColors, Spec.secondary. cbn [Palette.secondary].
  rewrite secondaryColor_match.
  apply or_str_orelse; [exact Hs|]. now apply (nth_key_truthy _ 1).
Qed.

Lemma accent_code_cascade (cd : ColorData) :
  Palette.accent (classifyColors cd) = Spec.accent (sortedColors cd).
Proof.
  pose proof (sortedColors_keys_truthy cd) as Hk.
  destruct (match_truthy _ Hk) as (_ & _ & Ha).
  unfold classifyColors, Spec.accent. cbn [Palette.accent].
  rewrite accentColor_match.
  apply or_str_orelse; [exact Ha|]. now apply (nth_key_truthy _ 2).
Qed.

(** When the strict search fails, looking at link and button only is the
    same as dropping the neutrality requirement, because an entry with a
    border subtotal is never neutral-or-dark. *)
Lemma relaxed_search (l : list (string * ScoreEntry)) (excluded : option string) :
  (forall x, In x l -> nonzero (subtotal border (snd x)) = true ->
             isNeutralOrDark (fst x) = false) ->
  Spec.first_color (fun c e => Spec.is_not excluded c && Spec.signalled e
                               && negb (isNeutralOrDark c)) l = None ->
  Spec.first_color (fun c e => Spec.is_not excluded c
                               && (nonzero (subtotal link e)
                                   || nonzero (subtotal button e))) l
  = Spec.first_color (fun c e => Spec.is_not excluded c && Spec.signalled e) l.
Proof.
  intros Hb Hnone. unfold Spec.first_color in *. f_equal.
  apply find_ext. intros x Hx.
  destruct (find _ l) eqn:Ef in Hnone; [discriminate|].
  pose proof (find_none _ _ Ef x Hx) as Hf. cbv beta in Hf.
  unfold Spec.signalled in *.
  destruct (Spec.is_not excluded (fst x)); [|reflexivity]. cbn [andb] in *.
  destruct (nonzero (subtotal link (snd x)) || nonzero (subtotal button (snd x)));
    [reflexivity|]. cbn [orb] in *.
  destruct (nonzero (subtotal border (snd x))) eqn:E; [|reflexivity].
  rewrite (Hb x Hx E) in Hf. discriminate.
Qed.

(** C1 (as the code has it): when the primary colour was selected by one
    of the three primary predicates (or there is no ranked entry at all)
    and border colours are well-formed, the secondary colour is the first
    ranked entry other than the primary with a nonzero link, button or
    border subtotal that is not neutral-or-dark; failing that, the first
    such entry whatever its neutrality; failing that, the second ranked
    entry; and nothing only when there is no second entry. *)
Theorem secondary_is_cascade (cd : ColorData) :
  Spec.primary_match (sortedColors cd) = Palette.primary (classifyColors cd) ->
  forallb well_formed (borders cd) = true ->
  Palette.secondary (classifyColors cd)
  = Spec.orelse
      (Spec.secondary_as_claimed (sortedColors cd) (Palette.primary (classifyColors cd)))
      (key_at 1 (sortedColors cd)).
Proof.
  intros Hp Hwf. rewrite secondary_code_cascade, <- Hp.
  unfold Spec.secondary, key_at. f_equal.
  unfold Spec.secondary_match, Spec.secondary_as_claimed.
  destruct (Spec.first_color
              (fun c e => Spec.is_not (Spec.primary_match (sortedColors cd)) c
                          && Spec.signalled e && negb (isNeutralOrDark c))
              (sortedColors cd)) eqn:E; [reflexivity|].
  cbn [Spec.orelse]. apply relaxed_search; [|exact E].
  intros [k e] Hx Hb. apply sort_In, filter_In in Hx. destruct Hx as [Hx _].
  exact (border_entries_vibrant cd k e Hwf Hx Hb).
Qed.

Lemma secondary_is_cascade_witness :
  Spec.primary_match (sortedColors sample_page) = Some "#ff5000"
  /\ Palette.secondary (classifyColors sample_page) = Some "#336699".
Proof.
  split; [vm_compute; reflexivity|].
  rewrite (secondary_is_cascade sample_page);
    [vm_compute; reflexivity|vm_compute; reflexivity|reflexivity].
Defined.

(** C1 fails as stated: with an orange button and one tinted section the
    primary is the button colour, no other entry has a link, button or
    border subtotal, yet the second ranked colour is reported as
    secondary. *)
Lemma secondary_not_as_claimed :
  Palette.primary (classifyColors button_and_tinted_section) = Some "#ff5000"
  /\ Palette.secondary (classifyColors button_and_tinted_section) = Some "#336699"
  /\ Spec.secondary_as_claimed (sortedColors button_and_tinted_section)
       (Palette.primary (classifyColors button_and_tinted_section)) = None.
Proof. repeat split; vm_compute; reflexivity. Qed.

(** C3 (as the code has it): when primary and secondary were both selected
    by their searches rather than by position in the ranked list, the
    accent colour is the first ranked entry that differs from both and is
    not neutral-or-dark; failing that, the third ranked entry; and nothing
    only when there is no third entry. *)
Theorem accent_is_cascade (cd : ColorData) :
  Spec.primary_match (sortedColors cd) = Palette.primary (classifyColors cd) ->
  Spec.secondary_match (sortedColors cd) = Palette.secondary (classifyColors cd) ->
  Palette.accent (classifyColors cd)
  = Spec.orelse
      (Spec.accent_as_claimed (sortedColors cd)
         (Palette.primary (classifyColors cd)) (Palette.secondary (classifyColors cd)))
      (key_at 2 (sortedColors cd)).
Proof.
  intros Hp Hs. rewrite accent_code_cascade, <- Hp, <- Hs. reflexivity.
Qed.

Lemma accent_is_cascade_witness :
  Palette.primary (classifyColors sample_page) = Some "#ff5000"
  /\ Palette.secondary (classifyColors sample_page) = Some "#336699"
  /\ Palette.accent (classifyColors sample_page) = Some "#22aa55".
Proof.
  split; [vm_compute; reflexivity|]. split; [vm_compute; reflexivity|].
  rewrite (accent_is_cascade sample_page); vm_compute; reflexivity.
Defined.

(** C3 fails as stated: with an orange button, blue links and a grey
    section, primary and secondary are found by their searches, the only
    other entry is neutral, yet it is reported as accent. *)
Lemma accent_not_as_claimed :
  Palette.primary (classifyColors button_links_and_grey_section) = Some "#ff5000"
  /\ Palette.secondary (classifyColors button_links_and_grey_section) = Some "#336699"
  /\ Palette.accent (classifyColors button_links_and_grey_section) = Some "#808080"
  /\ Spec.accent_as_claimed (sortedColors button_links_and_grey_section)
       (Palette.primary (classifyColors button_links_and_grey_section))
       (Palette.secondary (classifyColors button_links_and_grey_section)) = None.
Proof. repeat split; vm_compute; reflexivity. Qed.
(** ** Colour strings read in the page *)

Lemma in_all_bytes (n : Z) : is_byte n -> In n all_bytes.
Proof.
  intros H. unfold all_bytes. rewrite <- (Z2Nat.id n) by apply H.
  apply in_map, in_seq. unfold is_byte in H. lia.
Qed.

(** A check made on every character holds of each one. *)
Lemma ascii_check (P : ascii -> bool) :
  forallb P all_ascii = true -> forall c, P c = true.
Proof.
  intros H c. rewrite forallb_forall in H. apply H, in_all_ascii.
Qed.

Lemma byte_check (P : Z -> bool) :
  forallb P all_bytes = true -> forall n, is_byte n -> P n = true.
Proof.
  intros H n Hn. rewrite forallb_forall in H. now apply H, in_all_bytes.
Qed.

Lemma span_spec (p : ascii -> bool) (s run rest : string) :
  JSString.span p s = (run, rest) ->
  s = (run ++ rest)%string /\ every p run = true.
Proof.
  revert run rest. induction s as [|c s IH]; intros run rest; simpl.
  - intros [= <- <-]. now split.
  - destruct (p c) eqn:Hc.
    + destruct (JSString.span p s) as [run' rest'] eqn:E. intros [= <- <-].
      destruct (IH _ _ eq_refl) as [-> Hr]. simpl. now rewrite Hc, Hr.
    + intros [= <- <-]. now split.
Qed.

(** A run that stops at a character outside [p] is found whole. *)
Lemma span_app (p : ascii -> bool) (run rest : string) :
  every p run = true ->
  match rest with String c _ => p c = false | EmptyString => True end ->
  JSString.span p (run ++ rest) = (run, rest).
Proof.
  intros Hr Hrest. induction run as [|c run IH]; simpl in *.
  - destruct rest as [|c rest]; [reflexivity|]. simpl. now rewrite Hrest.
  - apply andb_prop in Hr. destruct Hr as [Hc Hr]. now rewrite Hc, (IH Hr).
Qed.

Lemma digits1_spec (s run rest : string) :
  JSString.digits1 s = Some (run, rest) ->
  s = (run ++ rest)%string /\ digit_string run = true.
Proof.
  unfold JSString.digits1, digit_string.
  destruct (JSString.span JSString.is_digit s) as [r t] eqn:E.
  destruct (span_spec _ _ _ _ E) as [-> Hr].
  destruct r; [discriminate|]. intros [= <- <-]. now rewrite Hr.
Qed.

Lemma digits1_app (run rest : string) :
  digit_string run = true ->
  match rest with String c _ => JSString.is_digit c = false | EmptyString => True end ->
  JSString.digits1 (run ++ rest) = Some (run, rest).
Proof.
  unfold digit_string, JSString.digits1. intros H Hrest.
  apply andb_prop in H. destruct H as [Hne Hd].
  rewrite (span_app _ _ _ Hd Hrest). now destruct run.
Qed.

Lemma rgb_groups_digits (s r g b : string) :
  rgb_groups s = Some (r, g, b) ->
  digit_string r = true /\ digit_string g = true /\ digit_string b = true.
Proof.
  assert (H : forall t, rgb_after_paren t = Some (r, g, b) ->
                        digit_string r = true /\ digit_string g = true
                        /\ digit_string b = true).
  { intros t. unfold rgb_after_paren.
    destruct (JSString.literal "(" t) as [t1|]; [|discriminate].
    destruct (JSString.digits1 t1) as [[r' t2]|] eqn:E1; [|discriminate].
    destruct (JSString.literal "," t2) as [t3|]; [|discriminate].
    destruct (JSString.digits1 (JSString.spaces t3)) as [[g' t4]|] eqn:E2; [|discriminate].
    destruct (JSString.literal "," t4) as [t5|]; [|discriminate].
    destruct (JSString.digits1 (JSString.spaces t5)) as [[b' t6]|] eqn:E3; [|discriminate].
    intros [= <- <- <-].
    apply digits1_spec in E1, E2, E3. tauto. }
  unfold rgb_groups.
  destruct (JSString.literal "rgb" s) as [t|]; [|discriminate].
  destruct (JSString.literal "a" t) as [t'|].
  - destruct (rgb_after_paren t') as [m|] eqn:E.
    + intros [= ->]. now apply (H t').
    + apply H.
  - apply H.
Qed.

Lemma rgb_match_digits (s r g b : string) :
  rgb_match s = Some (r, g, b) ->
  digit_string r = true /\ digit_string g = true /\ digit_string b = true.
Proof.
  induction s as [|c s IH]; cbn [rgb_match].
  - destruct (rgb_groups "") as [m|] eqn:E; [|discriminate].
    intros [= ->]. now apply rgb_groups_digits in E.
  - destruct (rgb_groups (String c s)) as [m|] eqn:E; [|exact IH].
    intros [= ->]. now apply rgb_groups_digits in E.
Qed.

(** The value of a digit string. *)
Lemma dec_prefix_digits (x : string) (acc : option Z) :
  every JSString.is_digit x = true ->
  (JS.truthy_str x = true \/ acc <> None) ->
  exists n, JSString.dec_prefix x acc = Some n.
Proof.
  revert acc. induction x as [|c x IH]; intros acc Hd Hne; simpl in *.
  - destruct Hne as [Hne|Hne]; [discriminate|].
    destruct acc as [a|]; [now exists a|congruence].
  - apply andb_prop in Hd. destruct Hd as [Hc Hd]. rewrite Hc.
    apply IH; [exact Hd|]. right. discriminate.
Qed.

Lemma digit_not_sign :
  forall c, JSString.is_digit c = true ->
    JS.is_space c = false /\ c <> "-"%char /\ c <> "+"%char
    /\ c <> "x"%char /\ c <> "X"%char.
Proof.
  assert (H : forall c,
             (negb (JSString.is_digit c)
              || (negb (JS.is_space c) && negb (Ascii.eqb c "-")
                  && negb (Ascii.eqb c "+") && negb (Ascii.eqb c "x")
                  && negb (Ascii.eqb c "X"))) = true).
  { apply ascii_check. vm_compute. reflexivity. }
  intros c Hc. specialize (H c). rewrite Hc in H. cbn [negb orb] in H.
  repeat (apply andb_prop in H; destruct H as [H ?]).
  repeat match goal with
         | X : negb (Ascii.eqb _ _) = true |- _ =>
             apply negb_true_iff, Ascii.eqb_neq in X
         | X : negb _ = true |- _ => apply negb_true_iff in X
         end.
  tauto.
Qed.

(** [parseInt] of a captured group is the double of its value. *)
Lemma parseInt_digits (x : string) :
  digit_string x = true ->
  exists n, JSString.dec_prefix x None = Some n
            /\ JSString.parseInt x = JS.of_Z n.
Proof.
  unfold digit_string. intros H. apply andb_prop in H. destruct H as [Hne Hd].
  destruct (dec_prefix_digits x None Hd (or_introl Hne)) as [n Hn].
  exists n. split; [exact Hn|].
  destruct x as [|c x]; [discriminate|].
  pose proof Hd as Hd'. simpl in Hd'. apply andb_prop in Hd'. destruct Hd' as [Hc Hx].
  destruct (digit_not_sign c Hc) as (Hs & Hm & Hp & _).
  unfold JSString.parseInt. cbn [JS.skip_spaces]. rewrite Hs.
  assert (Hsign : match String c x with
                  | String "-" r => (true, r)
                  | String "+" r => (false, r)
                  | _ => (false, String c x)
                  end = (false, String c x)).
  { destruct c as [[] [] [] [] [] [] [] []]; try reflexivity; congruence. }
  rewrite Hsign.
  assert (Hpre : match String c x with
                 | String "0" (String "x" r) => JS.hex_prefix r None
                 | String "0" (String "X" r) => JS.hex_prefix r None
                 | _ => JSString.dec_prefix (String c x) None
                 end = JSString.dec_prefix (String c x) None).
  { destruct x as [|c' x']; [now destruct c as [[] [] [] [] [] [] [] []]|].
    simpl in Hx. apply andb_prop in Hx. destruct Hx as [Hc' _].
    destruct (digit_not_sign c' Hc') as (_ & _ & _ & Hx1 & Hx2).
    destruct c as [[] [] [] [] [] [] [] []]; try reflexivity;
      destruct c' as [[] [] [] [] [] [] [] []]; try reflexivity; congruence. }
  rewrite Hpre, Hn. reflexivity.
Qed.

Lemma dec_prefix_nonneg (x : string) (acc : option Z) (n : Z) :
  match acc with Some a => (0 <= a)%Z | None => True end ->
  JSString.dec_prefix x acc = Some n -> (0 <= n)%Z.
Proof.
  revert acc. induction x as [|c x IH]; intros acc Ha; cbn [JSString.dec_prefix].
  - intros ->. exact Ha.
  - destruct (JSString.is_digit c) eqn:Hc; [|intros ->; exact Ha].
    apply IH. unfold JSString.is_digit in Hc.
    apply andb_prop in Hc. destruct Hc as [H1 H2].
    apply Nat.leb_le in H1. destruct acc as [a|]; lia.
Qed.

(** A channel value is written as two lower-case hexadecimal digits that
    read back as the value. *)
Lemma hex_byte_value (n : Z) :
  is_byte n ->
  exists c1 c2,
    JSString.padStart 2 "0" (JSString.toString16 (JS.of_Z n))
    = String c1 (String c2 EmptyString)
    /\ hex_pair c1 c2 = Some n /\ JS.lower c1 = c1 /\ JS.lower c2 = c2.
Proof.
  intros Hn.
  pose proof
    (byte_check
       (fun n =>
          match JSString.padStart 2 "0" (JSString.toString16 (JS.of_Z n)) with
          | String c1 (String c2 EmptyString) =>
              match hex_pair c1 c2 with
              | Some m => (m =? n)%Z
              | None => false
              end
              && Ascii.eqb (JS.lower c1) c1 && Ascii.eqb (JS.lower c2) c2
          | _ => false
          end)
       ltac:(vm_compute; reflexivity) n Hn) as H.
  cbv beta in H.
  destruct (JSString.padStart 2 "0" (JSString.toString16 (JS.of_Z n)))
    as [|c1 [|c2 [|]]]; try discriminate.
  exists c1, c2. split; [reflexivity|].
  apply andb_prop in H. destruct H as [H H2].
  apply andb_prop in H. destruct H as [H H1].
  apply Ascii.eqb_eq in H1, H2.
  destruct (hex_pair c1 c2) as [m|]; [|discriminate].
  apply Z.eqb_eq in H. subst m. tauto.
Qed.

Lemma hex_byte_digits (x : string) (n : Z) :
  digit_string x = true -> JSString.dec_prefix x None = Some n -> is_byte n ->
  exists c1 c2,
    hex_byte x = String c1 (String c2 EmptyString)
    /\ hex_pair c1 c2 = Some n /\ JS.lower c1 = c1 /\ JS.lower c2 = c2.
Proof.
  intros Hx Hn Hb. unfold hex_byte.
  destruct (parseInt_digits x Hx) as (m & Hm & ->).
  rewrite Hn in Hm. injection Hm as <-. now apply hex_byte_value.
Qed.

(** The colour built from three in-range groups reads back as their
    values and is in lower case. *)
Lemma hex_of_groups (r g b : string) (vr vg vb : Z) :
  digit_string r = true -> digit_string g = true -> digit_string b = true ->
  JSString.dec_prefix r None = Some vr -> JSString.dec_prefix g None = Some vg ->
  JSString.dec_prefix b None = Some vb ->
  is_byte vr -> is_byte vg -> is_byte vb ->
  let c := ("#" ++ String.concat "" (map hex_byte [r; g; b]))%string in
  rgb_of_hex c = Some (vr, vg, vb) /\ JS.toLowerCase c = c.
Proof.
  intros Hr Hg Hb Er Eg Eb Br Bg Bb. cbv zeta. cbn [map String.concat].
  destruct (hex_byte_digits r vr Hr Er Br) as (r1 & r2 & -> & Hpr & Hr1 & Hr2).
  destruct (hex_byte_digits g vg Hg Eg Bg) as (g1 & g2 & -> & Hpg & Hg1 & Hg2).
  destruct (hex_byte_digits b vb Hb Eb Bb) as (b1 & b2 & -> & Hpb & Hb1 & Hb2).
  cbn [append rgb_of_hex JS.toLowerCase]. rewrite Hpr, Hpg, Hpb, Hr1, Hr2, Hg1, Hg2, Hb1, Hb2. split; reflexivity.
Qed.

Lemma rgbToHex_groups (s c : string) :
  rgbToHex s = Some c ->
  exists r g b,
    rgb_match s = Some (r, g, b)
    /\ c = ("#" ++ String.concat "" (map hex_byte [r; g; b]))%string.
Proof.
  unfold rgbToHex.
  destruct (negb (JS.truthy_str s) || String.eqb s "transparent"
            || String.eqb s "rgba(0, 0, 0, 0)"); [discriminate|].
  destruct (rgb_match s) as [[[r g] b]|]; [|discriminate].
  intros [= <-]. now exists r, g, b.
Qed.

Lemma rgbToHex_in_gamut (s c : string) :
  rgbToHex s = Some c -> in_gamut s = true ->
  exists r g b,
    css_channels s = Some (r, g, b)
    /\ is_byte r /\ is_byte g /\ is_byte b
    /\ rgb_of_hex c = Some (r, g, b)
    /\ JS.toLowerCase c = c.
Proof.
  intros H Hg. destruct (rgbToHex_groups s c H) as (r & g & b & Hm & ->).
  destruct (rgb_match_digits s r g b Hm) as (Dr & Dg & Db).
  destruct (parseInt_digits r Dr) as (vr & Er & _).
  destruct (parseInt_digits g Dg) as (vg & Eg & _).
  destruct (parseInt_digits b Db) as (vb & Eb & _).
  unfold in_gamut, css_channels in *. rewrite Hm, Er, Eg, Eb in *.
  apply andb_prop in Hg. destruct Hg as [Hg Hb3].
  apply andb_prop in Hg. destruct Hg as [Hb1 Hb2].
  apply Z.leb_le in Hb1, Hb2, Hb3.
  pose proof (dec_prefix_nonneg r None vr I Er) as Nr.
  pose proof (dec_prefix_nonneg g None vg I Eg) as Ng.
  pose proof (dec_prefix_nonneg b None vb I Eb) as Nb.
  assert (Br : is_byte vr) by (unfold is_byte; lia).
  assert (Bg : is_byte vg) by (unfold is_byte; lia).
  assert (Bb : is_byte vb) by (unfold is_byte; lia).
  exists vr, vg, vb.
  destruct (hex_of_groups r g b vr vg vb Dr Dg Db Er Eg Eb Br Bg Bb) as [Hd Hl].
  repeat split; try assumption; apply Br || apply Bg || apply Bb.
Qed.

(** X1: when [rgbToHex] returns a colour for a computed style whose
    channels are at most 255, the colour is a well-formed lower-case
    ["#rrggbb"] string that reads back as exactly the channels the style
    names. *)
Theorem rgbToHex_decodes_channels (s c : string) :
  rgbToHex s = Some c -> in_gamut s = true ->
  exists r g b,
    css_channels s = Some (r, g, b)
    /\ rgb_of_hex c = Some (r, g, b)
    /\ JS.toLowerCase c = c.
Proof.
  intros H Hg.
  destruct (rgbToHex_in_gamut s c H Hg) as (r & g & b & Hc & _ & _ & _ & Hd & Hl).
  now exists r, g, b.
Qed.

Lemma rgbToHex_decodes_channels_witness :
  exists r g b,
    css_channels "rgba(51, 102, 153, 0.5)" = Some (r, g, b)
    /\ rgb_of_hex "#336699" = Some (r, g, b)
    /\ JS.toLowerCase "#336699" = "#336699".
Proof.
  apply (rgbToHex_decodes_channels "rgba(51, 102, 153, 0.5)" "#336699");
    vm_compute; reflexivity.
Defined.

Lemma decimal_byte (n : Z) :
  is_byte n ->
  digit_string (decimal n) = true /\ JSString.dec_prefix (decimal n) None = Some n.
Proof.
  intros Hn.
  pose proof
    (byte_check
       (fun n =>
          digit_string (decimal n)
          && match JSString.dec_prefix (decimal n) None with
             | Some m => (m =? n)%Z
             | None => false
             end)
       ltac:(vm_compute; reflexivity) n Hn) as H.
  cbv beta in H. apply andb_prop in H. destruct H as [H1 H2].
  split; [exact H1|].
  destruct (JSString.dec_prefix (decimal n) None) as [m|]; [|discriminate].
  apply Z.eqb_eq in H2. now subst.
Qed.

Lemma skip_spaces_digits (x rest : string) :
  digit_string x = true -> JS.skip_spaces (x ++ rest) = (x ++ rest)%string.
Proof.
  unfold digit_string. destruct x as [|c x]; [discriminate|]. simpl.
  intros H. apply andb_prop in H. destruct H as [Hc _].
  destruct (digit_not_sign c Hc) as (Hs & _). now rewrite Hs.
Qed.

(** The groups captured from [(r, g, b...]. *)
Lemma rgb_after_paren_css (r g b rest : string) :
  digit_string r = true -> digit_string g = true -> digit_string b = true ->
  match rest with String c _ => JSString.is_digit c = false | EmptyString => True end ->
  rgb_after_paren ("(" ++ r ++ ", " ++ g ++ ", " ++ b ++ rest) = Some (r, g, b).
Proof.
  intros Hr Hg Hb Hrest. unfold rgb_after_paren.
  change (JSString.literal "(" ("(" ++ r ++ ", " ++ g ++ ", " ++ b ++ rest))
    with (Some (r ++ ", " ++ g ++ ", " ++ b ++ rest)%string).
  cbv iota beta.
  rewrite (digits1_app r _ Hr) by reflexivity.
  change (JSString.literal "," (", " ++ g ++ ", " ++ b ++ rest))
    with (Some (" " ++ g ++ ", " ++ b ++ rest)%string).
  cbv iota beta.
  change (JSString.spaces (" " ++ g ++ ", " ++ b ++ rest))
    with (JS.skip_spaces (g ++ ", " ++ b ++ rest)).
  rewrite (skip_spaces_digits g _ Hg), (digits1_app g _ Hg) by reflexivity.
  change (JSString.literal "," (", " ++ b ++ rest)) with (Some (" " ++ b ++ rest)%string).
  cbv iota beta.
  change (JSString.spaces (" " ++ b ++ rest)) with (JS.skip_spaces (b ++ rest)).
  rewrite (skip_spaces_digits b _ Hb), (digits1_app b _ Hb) by exact Hrest.
  reflexivity.
Qed.

Lemma rgb_match_css_rgb (r g b : Z) :
  is_byte r -> is_byte g -> is_byte b ->
  rgb_match (css_rgb r g b) = Some (decimal r, decimal g, decimal b).
Proof.
  intros Hr Hg Hb.
  destruct (decimal_byte r Hr) as [Dr _], (decimal_byte g Hg) as [Dg _],
    (decimal_byte b Hb) as [Db _].
  assert (H : rgb_groups (css_rgb r g b) = Some (decimal r, decimal g, decimal b)).
  { unfold rgb_groups, css_rgb.
    change (JSString.literal "rgb" ("rgb(" ++ decimal r ++ ", " ++ decimal g ++ ", "
                                    ++ decimal b ++ ")"))
      with (Some ("(" ++ decimal r ++ ", " ++ decimal g ++ ", " ++ decimal b ++ ")")%string).
    cbv iota beta.
    change (JSString.literal "a" ("(" ++ decimal r ++ ", " ++ decimal g ++ ", "
                                  ++ decimal b ++ ")"))
      with (@None string).
    cbv iota beta.
    now apply rgb_after_paren_css. }
  unfold css_rgb in *. cbn [append rgb_match] in *. now rewrite H.
Qed.

Lemma rgb_match_css_rgba (r g b : Z) (alpha : string) :
  is_byte r -> is_byte g -> is_byte b ->
  rgb_match (css_rgba r g b alpha) = Some (decimal r, decimal g, decimal b).
Proof.
  intros Hr Hg Hb.
  destruct (decimal_byte r Hr) as [Dr _], (decimal_byte g Hg) as [Dg _],
    (decimal_byte b Hb) as [Db _].
  assert (H : rgb_groups (css_rgba r g b alpha)
              = Some (decimal r, decimal g, decimal b)).
  { unfold rgb_groups, css_rgba.
    change (JSString.literal "rgb" ("rgba(" ++ decimal r ++ ", " ++ decimal g ++ ", "
                                    ++ decimal b ++ ", " ++ alpha ++ ")"))
      with (Some ("a(" ++ decimal r ++ ", " ++ decimal g ++ ", " ++ decimal b ++ ", "
                  ++ alpha ++ ")")%string).
    cbv iota beta.
    change (JSString.literal "a" ("a(" ++ decimal r ++ ", " ++ decimal g ++ ", "
                                  ++ decimal b ++ ", " ++ alpha ++ ")"))
      with (Some ("(" ++ decimal r ++ ", " ++ decimal g ++ ", " ++ decimal b ++ ", "
                  ++ alpha ++ ")")%string).
    cbv iota beta.
    now rewrite rgb_after_paren_css. }
  unfold css_rgba in *. cbn [append rgb_match] in *. now rewrite H.
Qed.

Lemma rgbToHex_css (s : string) (r g b : Z) :
  is_byte r -> is_byte g -> is_byte b ->
  rgb_match s = Some (decimal r, decimal g, decimal b) ->
  JS.truthy_str s = true -> s <> "transparent" -> s <> "rgba(0, 0, 0, 0)" ->
  exists c, rgbToHex s = Some c /\ rgb_of_hex c = Some (r, g, b)
            /\ JS.toLowerCase c = c.
Proof.
  intros Hr Hg Hb Hm Ht H1 H2. unfold rgbToHex.
  apply String.eqb_neq in H1, H2. rewrite Ht, H1, H2, Hm. cbn [negb orb].
  eexists. split; [reflexivity|].
  destruct (decimal_byte r Hr) as [Dr Er], (decimal_byte g Hg) as [Dg Eg],
    (decimal_byte b Hb) as [Db Eb].
  now apply hex_of_groups.
Qed.

(** X2: a computed colour in the form a browser serialises it, with
    channels from 0 to 255, is turned into the hexadecimal colour that
    reads back as the same channels; an alpha component is dropped, so a
    translucent colour is reported as if opaque, and only the exact text
    of fully transparent black is left out. *)
Theorem rgbToHex_round_trip (r g b : Z) :
  is_byte r -> is_byte g -> is_byte b ->
  (exists c, rgbToHex (css_rgb r g b) = Some c /\ rgb_of_hex c = Some (r, g, b))
  /\ forall alpha,
       css_rgba r g b alpha <> "rgba(0, 0, 0, 0)" ->
       exists c, rgbToHex (css_rgba r g b alpha) = Some c
                 /\ rgb_of_hex c = Some (r, g, b).
Proof.
  intros Hr Hg Hb. split.
  - destruct (rgbToHex_css (css_rgb r g b) r g b Hr Hg Hb) as (c & Hc & Hd & _).
    + now apply rgb_match_css_rgb.
    + reflexivity.
    + unfold css_rgb. cbn [append]. discriminate.
    + unfold css_rgb. cbn [append]. discriminate.
    + now exists c.
  - intros alpha Ha.
    destruct (rgbToHex_css (css_rgba r g b alpha) r g b Hr Hg Hb) as (c & Hc & Hd & _).
    + now apply rgb_match_css_rgba.
    + reflexivity.
    + unfold css_rgba. cbn [append]. discriminate.
    + exact Ha.
    + now exists c.
Qed.

Lemma rgbToHex_round_trip_witness :
  exists c, rgbToHex (css_rgb 255 80 0) = Some c
            /\ rgb_of_hex c = Some (255, 80, 0)%Z.
Proof.
  apply (rgbToHex_round_trip 255 80 0); unfold is_byte; lia.
Defined.
Lemma hex_run_spec (n : nat) (s run rest : string) :
  hex_run n s = Some (run, rest) ->
  String.length run = n /\ every JSString.is_hex run = true
  /\ s = (run ++ rest)%string.
Proof.
  revert s run rest. induction n as [|n IH]; intros s run rest; simpl.
  - intros [= <- <-]. repeat split.
  - destruct s as [|c s]; [discriminate|].
    destruct (JSString.is_hex c) eqn:Hc; [|discriminate].
    destruct (hex_run n s) as [[run' rest']|] eqn:E; [|discriminate].
    intros [= <- <-]. destruct (IH _ _ _ E) as (Hl & He & ->).
    simpl. now rewrite Hl, Hc, He.
Qed.

Lemma hex_here_spec (s m rest : string) :
  hex_here s = Some (m, rest) ->
  exists run,
    m = String "#" run /\ every JSString.is_hex run = true
    /\ (String.length run = 6%nat \/ String.length run = 3%nat).
Proof.
  unfold hex_here. destruct s as [|c t]; [discriminate|].
  destruct (Ascii.eqb_spec c "#") as [->|Hc];
    [|destruct c as [[] [] [] [] [] [] [] []]; try discriminate; congruence].
  assert (H3 : match hex_run 3 t with
               | Some (run, rest0) =>
                   if word_boundary rest0 then Some (String "#" run, rest0) else None
               | None => None
               end = Some (m, rest) ->
               exists run, m = String "#" run /\ every JSString.is_hex run = true
                           /\ (String.length run = 6%nat \/ String.length run = 3%nat)).
  { destruct (hex_run 3 t) as [[run r]|] eqn:E; [|discriminate].
    destruct (word_boundary r); [|discriminate]. intros [= <- <-].
    destruct (hex_run_spec _ _ _ _ E) as (Hl & He & _). exists run. tauto. }
  destruct (hex_run 6 t) as [[run r]|] eqn:E; [|exact H3].
  destruct (word_boundary r); [|exact H3]. intros [= <- <-].
  destruct (hex_run_spec _ _ _ _ E) as (Hl & He & _). exists run. tauto.
Qed.

Lemma is_hex_pair (c1 c2 : ascii) :
  JSString.is_hex c1 = true -> JSString.is_hex c2 = true ->
  exists n, hex_pair c1 c2 = Some n.
Proof.
  unfold JSString.is_hex, hex_pair.
  destruct (JS.hex_digit c1), (JS.hex_digit c2); try discriminate. eauto.
Qed.

Lemma is_hex_lower (c : ascii) : JSString.is_hex (JS.lower c) = JSString.is_hex c.
Proof. unfold JSString.is_hex. now rewrite hex_digit_lower. Qed.

Lemma expand_well_formed (run : string) :
  every JSString.is_hex run = true ->
  String.length run = 6%nat \/ String.length run = 3%nat ->
  well_formed (expand (String "#" run)) = true.
Proof.
  intros He [Hl|Hl].
  - destruct run as [|c1 [|c2 [|c3 [|c4 [|c5 [|c6 [|]]]]]]]; try discriminate.
    cbn [every] in He.
    repeat (apply andb_prop in He; let H := fresh "H" in destruct He as [H He]).
    unfold expand, well_formed. cbn [JS.toLowerCase rgb_of_hex].
    change (JS.lower "#") with "#"%char. cbn iota.
    destruct (is_hex_pair (JS.lower c1) (JS.lower c2)) as [n1 ->];
      rewrite ?is_hex_lower; try assumption.
    destruct (is_hex_pair (JS.lower c3) (JS.lower c4)) as [n2 ->];
      rewrite ?is_hex_lower; try assumption.
    destruct (is_hex_pair (JS.lower c5) (JS.lower c6)) as [n3 ->];
      rewrite ?is_hex_lower; try assumption.
    all: reflexivity.
  - destruct run as [|c1 [|c2 [|c3 [|]]]]; try discriminate.
    cbn [every] in He.
    repeat (apply andb_prop in He; let H := fresh "H" in destruct He as [H He]).
    unfold expand, well_formed. cbn [rgb_of_hex].
    destruct (is_hex_pair c1 c1) as [n1 ->]; try assumption.
    destruct (is_hex_pair c2 c2) as [n2 ->]; try assumption.
    destruct (is_hex_pair c3 c3) as [n3 ->]; try assumption.
    all: reflexivity.
Qed.

Lemma hex_matches_shape (fuel : nat) (s : string) :
  Forall (fun m => exists run,
            m = String "#" run /\ every JSString.is_hex run = true
            /\ (String.length run = 6%nat \/ String.length run = 3%nat))
    (hex_matches fuel s).
Proof.
  revert s. induction fuel as [|fuel IH]; intros s; cbn [hex_matches]; [constructor|].
  destruct (hex_here s) as [[m rest]|] eqn:E.
  - constructor; [now apply hex_here_spec in E|apply IH].
  - destruct s; [constructor|apply IH].
Qed.

(** X3: whatever the attribute text, every colour [extractHexColors]
    returns is a well-formed ["#rrggbb"] string. *)
Theorem extractHexColors_well_formed (str : string) :
  Forall (fun c => well_formed c = true) (extractHexColors str).
Proof.
  unfold extractHexColors. destruct (negb (JS.truthy_str str)); [constructor|].
  apply Forall_map. eapply Forall_impl; [|apply hex_matches_shape].
  intros m (run & -> & He & Hl). now apply expand_well_formed.
Qed.
Lemma well_formed_chars (c : string) :
  well_formed c = true ->
  exists c1 c2 c3 c4 c5 c6,
    c = String "#" (String c1 (String c2 (String c3 (String c4
          (String c5 (String c6 EmptyString))))))
    /\ JSString.is_hex c1 = true /\ JSString.is_hex c2 = true
    /\ JSString.is_hex c3 = true /\ JSString.is_hex c4 = true
    /\ JSString.is_hex c5 = true /\ JSString.is_hex c6 = true.
Proof.
  unfold well_formed, rgb_of_hex.
  destruct c as [|c0 [|c1 [|c2 [|c3 [|c4 [|c5 [|c6 [|]]]]]]]]; try discriminate;
    try (destruct c0 as [[] [] [] [] [] [] [] []]; discriminate).
  destruct c0 as [[] [] [] [] [] [] [] []]; try discriminate.
  unfold hex_pair.
  destruct (JS.hex_digit c1) eqn:E1, (JS.hex_digit c2) eqn:E2,
    (JS.hex_digit c3) eqn:E3, (JS.hex_digit c4) eqn:E4,
    (JS.hex_digit c5) eqn:E5, (JS.hex_digit c6) eqn:E6; try discriminate.
  intros _. exists c1, c2, c3, c4, c5, c6. unfold JSString.is_hex.
  rewrite E1, E2, E3, E4, E5, E6. repeat split.
Qed.

(** X4: a colour written in full, in any mix of cases, is extracted as
    that one colour in lower case. *)
Theorem extractHexColors_literal (c : string) :
  well_formed c = true -> extractHexColors c = [JS.toLowerCase c].
Proof.
  intros H.
  destruct (well_formed_chars c H) as (c1 & c2 & c3 & c4 & c5 & c6 & -> & H1 & H2
                                       & H3 & H4 & H5 & H6).
  unfold extractHexColors.
  cbn [JS.truthy_str negb String.length hex_matches hex_here hex_run].
  rewrite H1, H2, H3, H4, H5, H6. reflexivity.
Qed.

Lemma extractHexColors_literal_witness :
  extractHexColors "#FF5000" = ["#ff5000"].
Proof. apply (extractHexColors_literal "#FF5000"). reflexivity. Defined.

(** X5: a three-digit colour is extracted with every digit doubled, in the
    case it was written in; each channel is 17 times its digit. *)
Theorem extractHexColors_shorthand (c1 c2 c3 : ascii) (d1 d2 d3 : Z) :
  JS.hex_digit c1 = Some d1 -> JS.hex_digit c2 = Some d2 ->
  JS.hex_digit c3 = Some d3 ->
  let full := String "#" (String c1 (String c1 (String c2 (String c2
                (String c3 (String c3 EmptyString)))))) in
  extractHexColors (String "#" (String c1 (String c2 (String c3 EmptyString))))
  = [full]
  /\ rgb_of_hex full = Some (17 * d1, 17 * d2, 17 * d3)%Z.
Proof.
  intros H1 H2 H3 full. split.
  - unfold extractHexColors.
    cbn [JS.truthy_str negb String.length hex_matches hex_here hex_run].
    unfold JSString.is_hex. rewrite H1, H2, H3. reflexivity.
  - unfold full, rgb_of_hex, hex_pair. rewrite H1, H2, H3. cbv iota beta.
    replace (16 * d1 + d1)%Z with (17 * d1)%Z by lia.
    replace (16 * d2 + d2)%Z with (17 * d2)%Z by lia.
    replace (16 * d3 + d3)%Z with (17 * d3)%Z by lia.
    reflexivity.
Qed.

Lemma extractHexColors_shorthand_witness :
  extractHexColors "#F0a" = ["#FF00aa"]
  /\ rgb_of_hex "#FF00aa" = Some (255, 0, 170)%Z.
Proof.
  apply (extractHexColors_shorthand "F" "0" "a" 15 0 10); reflexivity.
Defined.

Lemma hex_is_word (c : ascii) : JSString.is_hex c = true -> JSString.is_word c = true.
Proof.
  intros H.
  pose proof (ascii_check (fun c => negb (JSString.is_hex c) || JSString.is_word c)
                ltac:(vm_compute; reflexivity) c) as Hc.
  cbv beta in Hc. now rewrite H in Hc.
Qed.

Lemma hex_here_not_hash (c : ascii) (t : string) :
  JSString.is_hex c = true -> hex_here (String c t) = None.
Proof.
  intros H. unfold hex_here.
  destruct c as [[] [] [] [] [] [] [] []]; try reflexivity. discriminate H.
Qed.

Lemma hex_matches_digits (fuel : nat) (s : string) :
  every JSString.is_hex s = true -> hex_matches fuel s = [].
Proof.
  revert s. induction fuel as [|fuel IH]; intros s H; cbn [hex_matches]; [reflexivity|].
  destruct s as [|c t]; [reflexivity|].
  cbn [every] in H. apply andb_prop in H. destruct H as [Hc Ht].
  rewrite (hex_here_not_hash c t Hc). now apply IH.
Qed.

Lemma every_app (p : ascii -> bool) (a b : string) :
  every p (a ++ b) = every p a && every p b.
Proof. induction a as [|c a IH]; simpl; [reflexivity|]. now rewrite IH, andb_assoc. Qed.

Lemma length_app (a b : string) :
  String.length (a ++ b) = (String.length a + String.length b)%nat.
Proof. induction a as [|c a IH]; simpl; [reflexivity|]. now rewrite IH. Qed.

(** A run of [n] digits taken from more digits is not at a word boundary. *)
Lemma hex_run_inside (n : nat) (s : string) :
  every JSString.is_hex s = true -> String.length s <> n ->
  match hex_run n s with
  | Some (run, rest) => word_boundary rest = false
  | None => True
  end.
Proof.
  intros He Hl. destruct (hex_run n s) as [[run rest]|] eqn:E; [|exact I].
  destruct (hex_run_spec _ _ _ _ E) as (Hn & _ & ->).
  rewrite every_app in He. apply andb_prop in He. destruct He as [_ Hr].
  rewrite length_app, Hn in Hl.
  destruct rest as [|c rest]; [simpl in Hl; lia|].
  cbn [every] in Hr. apply andb_prop in Hr. destruct Hr as [Hc _].
  unfold word_boundary. now rewrite (hex_is_word c Hc).
Qed.

(** X6: a [#] followed by a number of hexadecimal digits other than three
    or six (the four- and eight-digit notations with alpha among them)
    yields no colour at all. *)
Theorem extractHexColors_digit_count (run : string) :
  every JSString.is_hex run = true ->
  String.length run <> 3%nat -> String.length run <> 6%nat ->
  extractHexColors (String "#" run) = [].
Proof.
  intros He H3 H6. unfold extractHexColors. cbn [JS.truthy_str negb].
  change (hex_matches (S (String.length (String "#" run))) (String "#" run))
    with (match hex_here (String "#" run) with
          | Some (m, rest) => m :: hex_matches (S (String.length run)) rest
          | None => hex_matches (S (String.length run)) run
          end).
  assert (Hh : hex_here (String "#" run) = None).
  { unfold hex_here.
    pose proof (hex_run_inside 3 run He H3) as B3.
    pose proof (hex_run_inside 6 run He H6) as B6.
    destruct (hex_run 3 run) as [[r3 t3]|]; destruct (hex_run 6 run) as [[r6 t6]|];
      rewrite ?B3, ?B6; reflexivity. }
  rewrite Hh. now rewrite hex_matches_digits.
Qed.

Lemma extractHexColors_digit_count_witness :
  extractHexColors "#336699ff" = [].
Proof.
  apply (extractHexColors_digit_count "336699ff"); [reflexivity| |]; discriminate.
Defined.
(** ** What the page collects for [classifyColors] *)

(** The product of two doubles above positive constants is a number that
    is at least zero. *)
Lemma mul_above_nonneg (c1 c2 x y : float) :
  positive_finite c1 -> positive_finite c2 ->
  (c1 <? x) = true -> (c2 <? y) = true -> nonneg (x * y).
Proof.
  intros (m1 & e1 & H1) (m2 & e2 & H2).
  rewrite nonneg_spec, !FloatAxioms.ltb_spec, FloatAxioms.mul_spec, H1, H2.
  destruct (Prim2SF x) as [[]|[]| |[] mx ex]; try discriminate;
    destruct (Prim2SF y) as [[]|[]| |[] my ey]; try discriminate; intros _ _;
    try exact I.
  cbn [SFmul xorb]. apply Binary64Facts.round_aux_nonneg. lia.
Qed.

Lemma area_nonneg (c1 c2 : float) (r : Page.Rect) :
  positive_finite c1 -> positive_finite c2 ->
  (c1 <? Page.width r) = true -> (c2 <? Page.height r) = true ->
  (0 <=? area r) = true.
Proof. intros. now apply mul_above_nonneg with c1 c2. Qed.

Lemma computed_spec (style c : string) :
  computed style = Some c -> rgbToHex style = Some c.
Proof.
  unfold computed, JS.or_str. destruct (rgbToHex style) as [s|]; [|discriminate].
  destruct (JS.truthy_str s); [auto|discriminate].
Qed.

Lemma computed_well_formed (style c : string) :
  in_gamut style = true -> computed style = Some c ->
  well_formed c = true /\ JS.toLowerCase c = c.
Proof.
  intros Hg H. apply computed_spec in H.
  destruct (rgbToHex_in_gamut style c H Hg) as (r & g & b & _ & _ & _ & _ & Hd & Hl).
  unfold well_formed. now rewrite Hd.
Qed.

Lemma vivid_fine (c : string) :
  well_formed c = true -> Forall (fun c => fine c) (vivid c).
Proof.
  intros H. unfold vivid. destruct (isNeutral c) eqn:E; repeat constructor; assumption.
Qed.

Lemma vividComputed_fine (style : string) :
  in_gamut style = true -> Forall (fun c => fine c) (vividComputed style).
Proof.
  intros Hg. unfold vividComputed. destruct (computed style) as [c|] eqn:E; [|constructor].
  apply vivid_fine. now apply (computed_well_formed style c).
Qed.

Lemma attribute_fine (a : string) :
  Forall (fun c => fine c) (flat_map vivid (extractHexColors a)).
Proof.
  apply Forall_flat_map. unfold extractHexColors.
  destruct (negb (JS.truthy_str a)); [constructor|].
  apply Forall_map. eapply Forall_impl; [|apply hex_matches_shape].
  intros m (run & -> & He & Hl). apply vivid_fine. now apply expand_well_formed.
Qed.

Lemma shapeColors_fine (el : Page.Element) :
  element_in_gamut el = true -> Forall (fun c => fine c) (shapeColors el).
Proof.
  unfold element_in_gamut. intros H.
  repeat (apply andb_prop in H; destruct H as [H ?]).
  unfold shapeColors. apply Forall_app. split.
  - destruct (paints (Page.fillAttr el)); [|constructor].
    apply Forall_app. split; [apply attribute_fine|now apply vividComputed_fine].
  - destruct (paints (Page.strokeAttr el)); [|constructor]. apply attribute_fine.
Qed.
Lemma gamut_parts (d : Page.Document) :
  colors_in_gamut d = true ->
  Forall (fun el => element_in_gamut el = true) (Page.buttons d)
  /\ Forall (fun el => element_in_gamut el = true) (Page.links d)
  /\ Forall (fun el => element_in_gamut el = true) (Page.sections d)
  /\ Forall (fun el => element_in_gamut el = true) (Page.textElements d)
  /\ Forall (fun el => element_in_gamut el = true) (Page.allElements d)
  /\ Forall (fun s => element_in_gamut (Page.svg s) = true
                      /\ Forall (fun el => element_in_gamut el = true)
                           (Page.svgElements s))
       (Page.svgs d)
  /\ Forall (fun el => element_in_gamut el = true) (List.concat (Page.accents d)).
Proof.
  unfold colors_in_gamut. intros H.
  repeat (apply andb_prop in H; destruct H as [H ?]).
  repeat split; try (now apply forallb_Forall).
  - rewrite Forall_forall. intros s Hs.
    match goal with
    | X : forallb _ (Page.svgs d) = true |- _ =>
        rewrite forallb_forall in X; specialize (X s Hs);
        apply andb_prop in X; destruct X as [X1 X2]
    end.
    split; [assumption|now apply forallb_Forall].
  - apply Forall_concat.
    match goal with
    | X : forallb _ (Page.accents d) = true |- _ => apply forallb_Forall in X
    end.
    eapply Forall_impl; [|eassumption]. intros l Hl. now apply forallb_Forall.
Qed.

Lemma element_gamut (el : Page.Element) :
  element_in_gamut el = true ->
  in_gamut (Page.backgroundColor el) = true /\ in_gamut (Page.color el) = true
  /\ in_gamut (Page.borderColor el) = true /\ in_gamut (Page.fill el) = true.
Proof.
  unfold element_in_gamut. intros H.
  repeat (apply andb_prop in H; destruct H as [H ?]). tauto.
Qed.

Lemma linksOf_fine (d : Page.Document) :
  colors_in_gamut d = true -> Forall (fun c => fine c) (linksOf d).
Proof.
  intros H. destruct (gamut_parts d H) as (_ & Hl & _).
  unfold linksOf. apply Forall_flat_map. eapply Forall_impl; [|exact Hl].
  intros el Hel. apply vividComputed_fine. now apply element_gamut.
Qed.

Lemma bordersOf_fine (d : Page.Document) :
  colors_in_gamut d = true -> Forall (fun c => fine c) (bordersOf d).
Proof.
  intros H. destruct (gamut_parts d H) as (_ & _ & _ & _ & Ha & _).
  unfold bordersOf. apply Forall_flat_map. eapply Forall_impl; [|exact Ha].
  intros el Hel. apply vividComputed_fine. now apply element_gamut.
Qed.

Lemma svgColorsOf_fine (d : Page.Document) :
  colors_in_gamut d = true -> Forall (fun s => fine (svg_color s)) (svgColorsOf d).
Proof.
  intros H. destruct (gamut_parts d H) as (_ & _ & _ & _ & _ & Hs & _).
  unfold svgColorsOf. apply Forall_flat_map. eapply Forall_impl; [|exact Hs].
  intros s [Hself Hels]. apply Forall_map. cbn [svg_color].
  apply element_gamut in Hself. repeat (apply Forall_app; split).
  - apply Forall_flat_map. eapply Forall_impl; [|exact Hels].
    intros el. apply shapeColors_fine.
  - now apply vividComputed_fine.
  - now apply vividComputed_fine.
Qed.

Lemma accentElementsOf_fine (d : Page.Document) :
  colors_in_gamut d = true ->
  Forall (fun a => fine (acc_color a)) (accentElementsOf d).
Proof.
  intros H. destruct (gamut_parts d H) as (_ & _ & _ & _ & _ & _ & Ha).
  unfold accentElementsOf. apply Forall_flat_map. eapply Forall_impl; [|exact Ha].
  intros el Hel. apply Forall_map. cbn [acc_color]. apply element_gamut in Hel.
  apply Forall_app; split; now apply vividComputed_fine.
Qed.

Lemma buttonsOf_sound (d : Page.Document) :
  colors_in_gamut d = true ->
  Forall (fun b => well_formed (btn_color b) = true /\ (0 <=? btn_area b) = true)
    (buttonsOf d).
Proof.
  intros H. destruct (gamut_parts d H) as (Hb & _).
  unfold buttonsOf. apply Forall_flat_map. eapply Forall_impl; [|exact Hb].
  intros el Hel. apply element_gamut in Hel.
  destruct (computed (Page.backgroundColor el)) as [c|] eqn:E; [|constructor].
  destruct (50 <? Page.width (Page.rect el)) eqn:Hw; [|constructor].
  destruct (20 <? Page.height (Page.rect el)) eqn:Hh; constructor; [|constructor].
  cbn [btn_color btn_area]. split.
  - now apply (computed_well_formed (Page.backgroundColor el) c).
  - apply area_nonneg with 50 20; try assumption;
      apply positive_finite_intro; reflexivity.
Qed.

Lemma backgroundsOf_sound (d : Page.Document) :
  colors_in_gamut d = true ->
  Forall (fun b => well_formed (bg_color b) = true) (backgroundsOf d).
Proof.
  intros H. destruct (gamut_parts d H) as (_ & _ & Hs & _).
  unfold backgroundsOf. apply Forall_flat_map. eapply Forall_impl; [|exact Hs].
  intros el Hel. apply element_gamut in Hel.
  destruct (computed (Page.backgroundColor el)) as [c|] eqn:E; [|constructor].
  destruct ((200 <? Page.width (Page.rect el)) && (100 <? Page.height (Page.rect el)));
    constructor; [|constructor].
  now apply (computed_well_formed (Page.backgroundColor el) c).
Qed.

Lemma Forall_forallb {A : Type} (f : A -> bool) (l : list A) :
  Forall (fun x => f x = true) l -> forallb f l = true.
Proof. rewrite forallb_forall, Forall_forall. auto. Qed.

(** The page hands [classifyColors] an input of the expected form. *)
Lemma colorData_well_formed (d : Page.Document) :
  colors_in_gamut d = true -> well_formed_input (colorData d) = true.
Proof.
  intros H. unfold well_formed_input, colorData.
  cbn [buttons links borders svgColors accentElements].
  repeat (apply andb_true_intro; split); apply Forall_forallb.
  - eapply Forall_impl; [|exact (buttonsOf_sound d H)].
    intros b [H1 H2]. now rewrite H1, H2.
  - eapply Forall_impl; [|exact (linksOf_fine d H)]. now intros c [H1 _].
  - eapply Forall_impl; [|exact (bordersOf_fine d H)]. now intros c [H1 _].
  - eapply Forall_impl; [|exact (svgColorsOf_fine d H)]. now intros c [H1 _].
  - eapply Forall_impl; [|exact (accentElementsOf_fine d H)]. now intros c [H1 _].
Qed.

Lemma fine_saturated (c : string) : fine c -> saturated c.
Proof.
  intros [Hw Hn]. unfold well_formed in Hw.
  destruct (rgb_of_hex c) as [[[r g] b]|] eqn:E; [|discriminate].
  exists r, g, b. split; [exact E|].
  destruct (channels_well_formed c r g b E) as (_ & Hr & Hg & Hb).
  pose proof (saturation_well_formed c r g b E) as Hs.
  unfold isNeutral in Hn. destruct c as [|c0 c]; [discriminate E|].
  cbn [JS.truthy_str negb] in Hn. rewrite Hs in Hn.
  destruct (byte_saturation_lt_015 (Z.max (Z.max r g) b) (Z.min (Z.min r g) b))
    as (Hlt & _); try lia.
  destruct (exact_saturation_lt_015 r g b) as [Hq _]; try lia.
  rewrite Hlt in Hn. apply Qnot_lt_le. intros Hq'. apply Hq in Hq'. congruence.
Qed.

(** X7: every link, border, SVG and accent colour the page hands to
    [classifyColors] has passed the neutrality test, so its saturation is
    at least 0.15 (button, background and text colours are not
    filtered). *)
Theorem collected_colors_are_saturated (d : Page.Document) :
  colors_in_gamut d = true ->
  Forall (fun c => isNeutral c = false /\ saturated c)
    (filtered_colors (colorData d)).
Proof.
  intros H. unfold filtered_colors, colorData.
  cbn [links borders svgColors accentElements].
  assert (Hf : forall c, fine c -> isNeutral c = false /\ saturated c).
  { intros c Hc. split; [apply Hc|now apply fine_saturated]. }
  repeat (apply Forall_app; split).
  - eapply Forall_impl; [exact Hf|now apply linksOf_fine].
  - eapply Forall_impl; [exact Hf|now apply bordersOf_fine].
  - apply Forall_map. eapply Forall_impl; [|exact (svgColorsOf_fine d H)].
    intros s. apply Hf.
  - apply Forall_map. eapply Forall_impl; [|exact (accentElementsOf_fine d H)].
    intros a. apply Hf.
Qed.

Lemma collected_colors_are_saturated_witness :
  Forall (fun c => isNeutral c = false /\ saturated c)
    (filtered_colors (colorData landing_page)).
Proof.
  apply (collected_colors_are_saturated landing_page). vm_compute. reflexivity.
Defined.

(** *** Keys of the score map *)

Lemma lower_idempotent (c : ascii) : JS.lower (JS.lower c) = JS.lower c.
Proof.
  pose proof (ascii_check (fun c => Ascii.eqb (JS.lower (JS.lower c)) (JS.lower c))
                ltac:(vm_compute; reflexivity) c) as H.
  now apply Ascii.eqb_eq in H.
Qed.

Lemma toLowerCase_idempotent (s : string) : lower_case (JS.toLowerCase s).
Proof.
  unfold lower_case. induction s as [|c s IH]; simpl; [reflexivity|].
  now rewrite lower_idempotent, IH.
Qed.

(** A property of the normalised colour of every call holds of every key. *)
Lemma applyCalls_keys (P : string -> Prop) (cs : list ScoreCall) :
  Forall (fun c => JS.truthy_str (call_color c) = true ->
                   P (JS.toLowerCase (call_color c))) cs ->
  Forall (fun x => P (fst x)) (applyCalls cs []).
Proof.
  induction cs as [|c cs IH] using rev_ind; intros H; [constructor|].
  apply Forall_app in H. destruct H as [Hcs Hc]. inversion Hc as [|? ? Hp _]; subst.
  rewrite applyCalls_snoc. unfold addScore.
  destruct (JS.truthy_str (call_color c)); cbn [negb]; [|now apply IH].
  apply set_Forall; [|now apply Hp|now apply IH].
  intros k' Hk. apply String.eqb_eq in Hk. subst k'. now apply Hp.
Qed.

Lemma colorScores_lower_case (cd : ColorData) :
  Forall (fun x => lower_case (fst x)) (colorScores cd).
Proof.
  rewrite colorScores_calls. apply applyCalls_keys.
  rewrite Forall_forall. intros c _ _. apply toLowerCase_idempotent.
Qed.

Lemma colorScores_NoDup (cd : ColorData) : NoDup (map fst (colorScores cd)).
Proof. rewrite colorScores_calls. apply applyCalls_tracks. Qed.

Lemma scoreCalls_colors (P : string -> Prop) (cd : ColorData) :
  Forall (fun b => P (btn_color b)) (buttons cd) ->
  Forall P (links cd) ->
  Forall (fun b => P (bg_color b)) (backgrounds cd) ->
  Forall P (borders cd) ->
  Forall (fun s => P (svg_color s)) (svgColors cd) ->
  Forall (fun a => P (acc_color a)) (accentElements cd) ->
  Forall (fun c => P (call_color c)) (scoreCalls cd).
Proof.
  intros Hb Hl Hg Hr Hs Ha. unfold scoreCalls.
  rewrite !Forall_app. repeat split; apply Forall_map_iff; cbn [call_color];
    try assumption.
  - pose proof (countColors_spec (links cd)) as Hn.
    eapply Forall_impl; [|exact Hn]. intros x [_ Hin].
    rewrite Forall_forall in Hl. now apply Hl.
  - apply filter_keeps_Forall. pose proof (countColors_spec (borders cd)) as Hn.
    eapply Forall_impl; [|exact Hn]. intros x [_ Hin].
    rewrite Forall_forall in Hr. now apply Hr.
Qed.

Lemma well_formed_lower (c : string) :
  well_formed c = true -> well_formed (JS.toLowerCase c) = true.
Proof.
  unfold well_formed. destruct (rgb_of_hex c) as [rgb|] eqn:E; [|discriminate].
  now rewrite (rgb_of_hex_lower c rgb E).
Qed.

(** Every key of the score map built from the page is well formed. *)
Lemma page_keys_well_formed (d : Page.Document) :
  colors_in_gamut d = true ->
  Forall (fun x => well_formed (fst x) = true) (colorScores (colorData d)).
Proof.
  intros H. rewrite colorScores_calls.
  apply (applyCalls_keys (fun k => well_formed k = true)).
  eapply Forall_impl;
    [|apply (scoreCalls_colors (fun c => well_formed c = true) (colorData d))].
  - intros c Hc _. now apply well_formed_lower.
  - eapply Forall_impl; [|exact (buttonsOf_sound d H)]. now intros b [H1 _].
  - eapply Forall_impl; [|exact (linksOf_fine d H)]. now intros c [H1 _].
  - exact (backgroundsOf_sound d H).
  - eapply Forall_impl; [|exact (bordersOf_fine d H)]. now intros c [H1 _].
  - eapply Forall_impl; [|exact (svgColorsOf_fine d H)]. now intros c [H1 _].
  - eapply Forall_impl; [|exact (accentElementsOf_fine d H)]. now intros c [H1 _].
Qed.

Lemma sortedColors_incl (cd : ColorData) (x : string * ScoreEntry) :
  In x (sortedColors cd) -> In x (colorScores cd) /\ isValidBrandColor (fst x) = true.
Proof.
  intros Hx. apply sort_In, filter_In in Hx. destruct x as [c e]. exact Hx.
Qed.

Lemma firstn_incl {A : Type} (n : nat) (l : list A) (x : A) :
  In x (firstn n l) -> In x l.
Proof.
  intros H. rewrite <- (firstn_skipn n l). apply in_or_app. now left.
Qed.

(** X8: the colour data collected from a page is an input of the form
    [classifyColors] expects (well-formed colours, non-negative button
    areas), and every entry of the palette [extractColors] reports is a
    well-formed lower-case colour with a positive score and a nonempty
    usage list. *)
Theorem page_palette_is_sound (d : Page.Document) :
  colors_in_gamut d = true ->
  well_formed_input (colorData d) = true
  /\ Forall (fun e => well_formed (color e) = true /\ lower_case (color e)
                      /\ (0 <? score e) = true /\ usage e <> [])
       (Palette.palette (extractColors d)).
Proof.
  intros H. pose proof (colorData_well_formed d H) as Hwf.
  split; [exact Hwf|].
  pose proof (contributions_are_positive_entries _ Hwf) as Hh.
  pose proof (page_keys_well_formed d H) as Hk.
  pose proof (colorScores_lower_case (colorData d)) as Hl.
  unfold extractColors, classifyColors. cbn [Palette.palette].
  apply Forall_map. rewrite Forall_forall in *. intros x Hx.
  apply firstn_incl in Hx. apply sortedColors_incl in Hx. destruct Hx as [Hx _].
  destruct (Hh x Hx) as (Ht & Hne & _).
  cbn [paletteEntry color score usage].
  repeat split; [now apply Hk|now apply Hl|exact Ht|].
  destruct (categories (snd x)); [congruence|discriminate].
Qed.

Lemma page_palette_is_sound_witness :
  well_formed_input (colorData landing_page) = true
  /\ Forall (fun e => well_formed (color e) = true /\ lower_case (color e)
                      /\ (0 <? score e) = true /\ usage e <> [])
       (Palette.palette (extractColors landing_page)).
Proof.
  apply (page_palette_is_sound landing_page). vm_compute. reflexivity.
Defined.
(** ** Buttons of a page and the threshold of the primary rule *)

(** A button that the page collects scores at least 51: its box has an
    area of at least 1000, so the area bonus is at least 1. *)
Lemma page_buttonScore (d : Page.Document) :
  colors_in_gamut d = true ->
  Forall (fun b => (51 <=? buttonScore b) = true) (buttonsOf d).
Proof.
  intros H. destruct (gamut_parts d H) as (Hb & _).
  unfold buttonsOf. apply Forall_flat_map. eapply Forall_impl; [|exact Hb].
  intros el Hel. apply element_gamut in Hel.
  destruct (computed (Page.backgroundColor el)) as [c|] eqn:E; [|constructor].
  destruct (50 <? Page.width (Page.rect el)) eqn:Hw; [|constructor].
  destruct (20 <? Page.height (Page.rect el)) eqn:Hh; constructor; [|constructor].
  unfold buttonScore. cbn [btn_color btn_area btn_isVisible].
  apply add_lower_l; [reflexivity| |].
  - apply add_above_51.
    + now destruct ((Page.top (Page.rect el) <? Page.innerHeight d)
                    && (0 <? Page.top (Page.rect el))).
    + apply min2_lower; [reflexivity| |reflexivity].
      apply div_1000_above_1. now apply mul_above_1000.
  - apply vibrancy_bonus_nonneg; [|apply weights_In].
    now apply (computed_well_formed (Page.backgroundColor el) c).
Qed.

Lemma or_zero_nonneg (acc : option float) :
  (forall v, acc = Some v -> nonneg v) -> nonneg (JS.or_zero acc).
Proof.
  intros H. destruct acc as [v|]; [|reflexivity]. cbn [JS.or_zero].
  destruct (JS.truthy v); [now apply H|reflexivity].
Qed.

(** A subtotal is at least what every call of its category adds. *)
Lemma running_subtotal_lower (cat : category) (c0 : float) (l : list ScoreCall)
    (v : float) :
  nonneg c0 ->
  Forall (fun c => in_category cat c = true -> (c0 <=? call_score c) = true) l ->
  running_subtotal cat l = Some v -> (c0 <=? v) = true.
Proof.
  intros H0. revert v. induction l as [|c l IH] using rev_ind; [discriminate|].
  intros v Hl. apply Forall_app in Hl. destruct Hl as [Hl Hc].
  apply Forall_inv in Hc. rewrite running_subtotal_snoc.
  destruct (in_category cat c) eqn:E; [|now apply IH].
  intros [= <-]. specialize (Hc eq_refl).
  apply leb_trans with (call_score c); [exact Hc|].
  apply add_ge; [|now apply leb_nonneg with c0].
  apply or_zero_nonneg. intros v' Hv'. apply leb_nonneg with c0; [exact H0|].
  now apply IH.
Qed.

(** The button calls of a page add at least 51 each. *)
Lemma page_button_calls (d : Page.Document) :
  colors_in_gamut d = true ->
  Forall (fun c => in_category button c = true -> (51 <=? call_score c) = true)
    (scoreCalls (colorData d)).
Proof.
  intros H. unfold scoreCalls. rewrite !Forall_app.
  repeat split; apply Forall_map_iff; cbn [call_category call_score colorData buttons];
    try (apply Forall_forall; intros x _; discriminate).
  eapply Forall_impl; [|exact (page_buttonScore d H)]. auto.
Qed.

(** The button subtotal of an entry of a page's score map is at least 51. *)
Lemma page_button_subtotal (d : Page.Document) (k : string) (e : ScoreEntry) (v : float) :
  colors_in_gamut d = true ->
  In (k, e) (colorScores (colorData d)) ->
  Assoc.get category_eqb button (categories e) = Some v ->
  (51 <=? v) = true.
Proof.
  intros H Hin Hv. rewrite colorScores_calls in Hin.
  destruct (applyCalls_tracks (scoreCalls (colorData d))) as [Hnd Hm].
  apply (In_get String.eqb String.eqb_eq) in Hin; [|exact Hnd].
  specialize (Hm k). rewrite Hin in Hm. destruct Hm as [_ Hcat].
  rewrite Hcat in Hv.
  apply (running_subtotal_lower button 51 (calls_for k (scoreCalls (colorData d))) v);
    [reflexivity| |exact Hv].
  apply filter_keeps_Forall. now apply page_button_calls.
Qed.

Lemma usage_get (cat : category) (e : ScoreEntry) :
  In cat (map fst (categories e)) ->
  exists v, Assoc.get category_eqb cat (categories e) = Some v.
Proof.
  intros H. destruct (Assoc.get category_eqb cat (categories e)) as [v|] eqn:E; [eauto|].
  now apply (get_None_notin category_eqb category_eqb_spec) in E.
Qed.

Lemma page_button_over_50 (d : Page.Document) (k : string) (e : ScoreEntry) :
  colors_in_gamut d = true ->
  In (k, e) (colorScores (colorData d)) ->
  In button (map fst (categories e)) ->
  (50 <? subtotal button e) = true.
Proof.
  intros H Hin Hb. destruct (usage_get button e Hb) as (v & Hv).
  unfold subtotal. rewrite Hv.
  apply ltb_leb_trans with 51; [reflexivity|].
  now apply (page_button_subtotal d k e v).
Qed.

(** X23: on a page whose computed colours are in gamut, a colour that took
    any score from a button has a button subtotal above 50: the test
    [categories.button > 50] of the primary rule accepts every colour the
    page saw on a button, and the usage "button" of a palette entry
    already tells that the test holds. *)
Theorem page_buttons_pass_threshold (d : Page.Document) (k : string) (e : ScoreEntry) :
  colors_in_gamut d = true ->
  In (k, e) (colorScores (colorData d)) ->
  In button (map fst (categories e)) ->
  button_over_50 e = true /\ (51 <=? subtotal button e) = true.
Proof.
  intros H Hin Hb. split.
  - rewrite button_over_50_subtotal. now apply (page_button_over_50 d k e).
  - destruct (usage_get button e Hb) as (v & Hv). unfold subtotal. rewrite Hv.
    now apply (page_button_subtotal d k e v).
Qed.

Lemma page_buttons_pass_threshold_witness :
  colors_in_gamut landing_page = true
  /\ exists k e,
       In (k, e) (colorScores (colorData landing_page))
       /\ In button (map fst (categories e))
       /\ button_over_50 e = true /\ (51 <=? subtotal button e) = true.
Proof.
  split; [vm_compute; reflexivity|].
  assert (Hx : exists x, hd_error (colorScores (colorData landing_page)) = Some x
                         /\ In button (map fst (categories (snd x)))).
  { eexists. split; [vm_compute; reflexivity|]. cbn [snd categories map fst]. now left. }
  destruct Hx as ([k e] & Hhd & Hb). cbn [snd] in Hb.
  assert (Hin : In (k, e) (colorScores (colorData landing_page))).
  { destruct (colorScores (colorData landing_page)) as [|y l]; [discriminate|].
    injection Hhd as ->. now left. }
  exists k, e. split; [exact Hin|]. split; [exact Hb|].
  apply (page_buttons_pass_threshold landing_page k e); [vm_compute; reflexivity| |];
    assumption.
Defined.

(** X24: on such a page, when some ranked colour took score from a
    button, the primary colour is chosen by one of the three predicates
    and never by the fall-back to the top-ranked entry: it is a ranked
    colour that either was seen on a button or is not neutral-or-dark. *)
Theorem page_primary_with_button (d : Page.Document) (k : string) (e : ScoreEntry) :
  colors_in_gamut d = true ->
  In (k, e) (sortedColors (colorData d)) ->
  In button (map fst (categories e)) ->
  exists p ep,
    Palette.primary (extractColors d) = Some p
    /\ Spec.primary_match (sortedColors (colorData d)) = Some p
    /\ In (p, ep) (sortedColors (colorData d))
    /\ (In button (map fst (categories ep)) \/ isNeutralOrDark p = false).
Proof.
  intros H Hin Hb.
  set (l := sortedColors (colorData d)) in *.
  pose proof (sortedColors_keys_truthy (colorData d)) as Hk. fold l in Hk.
  destruct (match_truthy l Hk) as (Hp & _ & _).
  assert (Hprim : Palette.primary (extractColors d) = Spec.orelse (Spec.primary_match l)
                                                       (key_at 0 l)).
  { unfold extractColors, classifyColors. cbn [Palette.primary]. fold l.
    rewrite primaryColor_match.
    apply or_str_orelse; [exact Hp|]. now apply (nth_key_truthy _ 0). }
  assert (Hke : button_over_50 e = true).
  { rewrite button_over_50_subtotal. apply (page_button_over_50 d k e H); [|exact Hb].
    now apply sortedColors_incl. }
  assert (Hfound : exists x, primaryColor l = Some x
                             /\ In x l
                             /\ (button_over_50 (snd x) = true
                                 \/ isNeutralOrDark (fst x) = false)).
  { unfold primaryColor.
    destruct (find (fun '(c, data) => button_over_50 data && negb (isNeutralOrDark c)) l)
      as [[c1 e1]|] eqn:E1.
    { apply find_some in E1. destruct E1 as [Hx Hc]. apply andb_prop in Hc.
      exists (c1, e1). cbn [fst snd]. split; [reflexivity|]. split; [exact Hx|].
      left. tauto. }
    destruct (find (fun '(c, data) => negb (isNeutralOrDark c) && (50 <? total data)) l)
      as [[c2 e2]|] eqn:E2.
    { apply find_some in E2. destruct E2 as [Hx Hc]. apply andb_prop in Hc.
      exists (c2, e2). cbn [fst snd]. split; [reflexivity|]. split; [exact Hx|].
      right. now apply negb_true_iff. }
    destruct (find (fun '(_, data) => button_over_50 data) l) as [[c3 e3]|] eqn:E3.
    { apply find_some in E3. destruct E3 as [Hx Hc].
      exists (c3, e3). cbn [fst snd]. split; [reflexivity|]. split; [exact Hx|].
      now left. }
    exfalso. apply (find_none _ _ E3 (k, e)) in Hin. congruence. }
  destruct Hfound as ([p ep] & Hpc & Hpin & Hor). cbn [fst snd] in Hor.
  assert (Hm : Spec.primary_match l = Some p).
  { rewrite <- primaryColor_match, Hpc. reflexivity. }
  exists p, ep. rewrite Hprim, Hm. repeat split; try assumption.
  destruct Hor as [Hbtn|Hn]; [left|now right].
  unfold button_over_50 in Hbtn.
  destruct (Assoc.get category_eqb button (categories ep)) as [v|] eqn:Ev; [|discriminate].
  clear - Ev. induction (categories ep) as [|[c w] m IH]; [discriminate|].
  cbn [Assoc.get] in Ev. cbn [map fst]. destruct (category_eqb button c) eqn:Ec.
  - left. symmetry. now apply category_eqb_spec.
  - right. now apply IH.
Qed.

Lemma page_primary_with_button_witness :
  colors_in_gamut landing_page = true
  /\ exists k e,
       In (k, e) (sortedColors (colorData landing_page))
       /\ In button (map fst (categories e))
       /\ exists p ep,
            Palette.primary (extractColors landing_page) = Some p
            /\ Spec.primary_match (sortedColors (colorData landing_page)) = Some p
            /\ In (p, ep) (sortedColors (colorData landing_page))
            /\ (In button (map fst (categories ep)) \/ isNeutralOrDark p = false).
Proof.
  split; [vm_compute; reflexivity|].
  assert (Hx : exists x, find (fun x => existsb (category_eqb button)
                                          (map fst (categories (snd x))))
                           (sortedColors (colorData landing_page)) = Some x).
  { eexists. vm_compute. reflexivity. }
  destruct Hx as ([k e] & Hf). apply find_some in Hf. destruct Hf as [Hin Hb].
  cbn [snd] in Hb. apply existsb_exists in Hb. destruct Hb as (c & Hb' & Hc).
  apply category_eqb_spec in Hc. subst c.
  exists k, e. split; [exact Hin|]. split; [exact Hb'|].
  apply (page_primary_with_button landing_page k e); [vm_compute; reflexivity| |];
    assumption.
Defined.

(** ** The two neutrality tests *)

(** X25: the test the page applies while collecting ([isNeutral],
    saturation below 0.15) is contained in the test of the role rules
    ([isNeutralOrDark], saturation below 0.25 or luminance below 0.15),
    for every string: a colour the page drops as neutral could never have
    counted as vibrant in the role rules. *)
Theorem neutral_is_neutral_or_dark (hex : string) :
  isNeutral hex = true -> isNeutralOrDark hex = true.
Proof.
  unfold isNeutral, isNeutralOrDark.
  destruct (negb (JS.truthy_str hex)); [reflexivity|]. intros H.
  now rewrite (ltb_leb_trans (saturation hex) 0.15 0.25 H eq_refl).
Qed.

Lemma neutral_is_neutral_or_dark_witness :
  isNeutral "#8a8f94" = true /\ isNeutralOrDark "#8a8f94" = true.
Proof.
  split; [vm_compute; reflexivity|].
  apply (neutral_is_neutral_or_dark "#8a8f94"). vm_compute. reflexivity.
Defined.
(** ** Roles and palette *)

Lemma or_str_cases (a b : option string) (c : string) :
  JS.or_str (JS.or_str a b) None = Some c -> a = Some c \/ b = Some c.
Proof.
  destruct a as [s|]; simpl.
  - destruct (JS.truthy_str s) eqn:E; simpl.
    + rewrite E. intros [= ->]. now left.
    + destruct b as [t|]; simpl; [|discriminate].
      destruct (JS.truthy_str t); [|discriminate]. intros [= ->]. now right.
  - destruct b as [t|]; simpl; [|discriminate].
    destruct (JS.truthy_str t); [|discriminate]. intros [= ->]. now right.
Qed.

Lemma key_of_find (f : string * ScoreEntry -> bool) (l : list (string * ScoreEntry))
    (c : string) :
  key_of (find f l) = Some c -> In c (map fst l).
Proof.
  unfold key_of. destruct (find f l) as [x|] eqn:E; [|discriminate].
  intros [= <-]. apply find_some in E. apply in_map. apply E.
Qed.

Lemma key_at_In (i : nat) (l : list (string * ScoreEntry)) (c : string) :
  key_at i l = Some c -> In c (map fst l).
Proof.
  unfold key_at. destruct (nth_error l i) as [x|] eqn:E; [|discriminate].
  intros [= <-]. apply nth_error_In in E. now apply in_map.
Qed.

Lemma primaryColor_In (l : list (string * ScoreEntry)) (c : string) :
  key_of (primaryColor l) = Some c -> In c (map fst l).
Proof.
  unfold primaryColor.
  repeat match goal with
         | |- context [match find ?f l with _ => _ end] =>
             let E := fresh "E" in destruct (find f l) eqn:E
         end;
    try (rewrite <- E; apply key_of_find);
    try (rewrite <- E0; apply key_of_find);
    apply key_of_find.
Qed.

Lemma secondaryColor_In (l : list (string * ScoreEntry)) p (c : string) :
  key_of (secondaryColor l p) = Some c -> In c (map fst l).
Proof.
  unfold secondaryColor.
  match goal with
  | |- context [match find ?f l with _ => _ end] =>
      let E := fresh "E" in destruct (find f l) eqn:E
  end; [rewrite <- E|]; apply key_of_find.
Qed.

Lemma accentColor_In (l : list (string * ScoreEntry)) p s (c : string) :
  key_of (accentColor l p s) = Some c -> In c (map fst l).
Proof. apply key_of_find. Qed.

(** X9: whatever the input, each of primary, secondary and accent is
    either null or a colour of the ranked list, hence a lower-case key of
    the score map that passed [isValidBrandColor]; and primary is null
    exactly when the ranked list is empty. *)
Theorem roles_are_ranked_colors (cd : ColorData) :
  Forall (fun role =>
            match role with
            | Some c =>
                In c (map fst (sortedColors cd))
                /\ isValidBrandColor c = true /\ lower_case c
            | None => True
            end)
    (roles (classifyColors cd))
  /\ (Palette.primary (classifyColors cd) = None <-> sortedColors cd = []).
Proof.
  assert (Hkey : forall c, In c (map fst (sortedColors cd)) ->
                           In c (map fst (sortedColors cd))
                           /\ isValidBrandColor c = true /\ lower_case c).
  { intros c Hc. split; [exact Hc|]. apply in_map_iff in Hc.
    destruct Hc as (x & <- & Hx). apply sortedColors_incl in Hx.
    destruct Hx as [Hx Hv]. split; [exact Hv|].
    pose proof (colorScores_lower_case cd) as Hl. rewrite Forall_forall in Hl.
    now apply Hl. }
  split.
  - unfold roles, classifyColors.
    cbn [Palette.primary Palette.secondary Palette.accent].
    repeat constructor.
    + destruct (JS.or_str _ None) as [c|] eqn:E; [|exact I].
      apply Hkey. apply or_str_cases in E.
      destruct E as [E|E]; [now apply primaryColor_In in E|now apply key_at_In in E].
    + destruct (JS.or_str _ None) as [c|] eqn:E; [|exact I].
      apply Hkey. apply or_str_cases in E.
      destruct E as [E|E]; [now apply secondaryColor_In in E|now apply key_at_In in E].
    + destruct (JS.or_str _ None) as [c|] eqn:E; [|exact I].
      apply Hkey. apply or_str_cases in E.
      destruct E as [E|E]; [now apply accentColor_In in E|now apply key_at_In in E].
  - pose proof (sortedColors_keys_truthy cd) as Hk.
    unfold classifyColors. cbn [Palette.primary]. split.
    + intros H. destruct (sortedColors cd) as [|[k e] l] eqn:El; [reflexivity|].
      exfalso. inversion Hk as [|? ? Hk1 _]; subst. cbn [fst] in Hk1.
      unfold key_at in H. cbn [nth_error option_map fst] in H.
      destruct (key_of (primaryColor ((k, e) :: l))) as [c|] eqn:Ep.
      * assert (Ht : JS.truthy_str c = true).
        { apply primaryColor_In in Ep. apply in_map_iff in Ep.
          destruct Ep as (x & <- & Hx). unfold keys_truthy in Hk.
          rewrite Forall_forall in Hk. now apply Hk. }
        cbn [JS.or_str] in H. rewrite ?Ht in H. cbn [JS.or_str] in H.
        rewrite ?Ht in H. discriminate.
      * cbn [JS.or_str] in H. rewrite ?Hk1 in H. cbn [JS.or_str] in H.
        rewrite ?Hk1 in H. discriminate.
    + intros ->. reflexivity.
Qed.
(** *** The score map *)

Lemma addScore_vibrancy (c : string) (sc : float) (cat : category) (m : ScoreMap) :
  Forall (fun x => vibrancy (snd x) = getColorVibrancy (fst x)) m ->
  Forall (fun x => vibrancy (snd x) = getColorVibrancy (fst x)) (addScore c sc cat m).
Proof.
  intros Hm. unfold addScore. destruct (JS.truthy_str c); cbn [negb]; [|exact Hm].
  assert (Hv : vibrancy
                 (bump sc cat
                    match Assoc.get String.eqb (JS.toLowerCase c) m with
                    | Some e => e
                    | None => {| total := 0; categories := [];
                                 vibrancy := getColorVibrancy (JS.toLowerCase c) |}
                    end) = getColorVibrancy (JS.toLowerCase c)).
  { cbn [bump vibrancy].
    destruct (Assoc.get String.eqb (JS.toLowerCase c) m) as [e|] eqn:Eg; [|reflexivity].
    destruct (get_In _ _ _ _ Eg) as (k' & Hk & Hin). apply String.eqb_eq in Hk.
    subst k'. rewrite Forall_forall in Hm. exact (Hm _ Hin). }
  apply set_Forall; [|exact Hv|exact Hm].
  intros k' Hk. apply String.eqb_eq in Hk. subst k'. exact Hv.
Qed.

Lemma colorScores_vibrancy (cd : ColorData) :
  Forall (fun x => vibrancy (snd x) = getColorVibrancy (fst x)) (colorScores cd).
Proof.
  rewrite colorScores_calls. generalize (scoreCalls cd). intros cs.
  induction cs as [|c cs IH] using rev_ind; [constructor|].
  rewrite applyCalls_snoc. now apply addScore_vibrancy.
Qed.

Lemma NoDup_keys_inj {V : Type} (m : list (string * V)) (x y : string * V) :
  NoDup (map fst m) -> In x m -> In y m -> fst x = fst y -> x = y.
Proof.
  intros Hnd Hx Hy Hk. destruct x as [k v], y as [k' v']. cbn [fst] in Hk. subst k'.
  apply (In_get String.eqb String.eqb_eq _ _ _ Hnd) in Hx, Hy. congruence.
Qed.

(** X11: the score map has one entry per colour up to letter case: its
    keys are distinct, nonempty and in lower case, so two entries never
    differ only in case, and each entry carries the vibrancy of its own
    key. *)
Theorem score_map_merges_case (cd : ColorData) :
  let m := colorScores cd in
  NoDup (map fst m)
  /\ Forall (fun x => lower_case (fst x) /\ JS.truthy_str (fst x) = true
                      /\ vibrancy (snd x) = getColorVibrancy (fst x)) m
  /\ forall x y, In x m -> In y m ->
                 JS.toLowerCase (fst x) = JS.toLowerCase (fst y) -> x = y.
Proof.
  intros m. pose proof (colorScores_NoDup cd) as Hnd.
  pose proof (colorScores_lower_case cd) as Hl.
  pose proof (colorScores_keys_truthy cd) as Ht.
  pose proof (colorScores_vibrancy cd) as Hv.
  unfold keys_truthy in Ht. rewrite Forall_forall in Hl, Ht, Hv.
  split; [exact Hnd|]. split.
  - rewrite Forall_forall. intros x Hx. auto.
  - intros x y Hx Hy Hk. apply (NoDup_keys_inj m); try assumption.
    now rewrite <- (Hl x Hx), <- (Hl y Hy).
Qed.

(** *** The palette *)

Lemma StronglySorted_app_inv {A : Type} (R : A -> A -> Prop) (l1 l2 : list A) :
  StronglySorted R (l1 ++ l2) ->
  StronglySorted R l1 /\ forall x y, In x l1 -> In y l2 -> R x y.
Proof.
  induction l1 as [|a l1 IH]; cbn [app]; intros H.
  - split; [constructor|]. intros x y [].
  - inversion H as [|? ? Hs Hf]; subst. destruct (IH Hs) as [H1 H2].
    rewrite Forall_app in Hf. destruct Hf as [Hf1 Hf2]. split.
    + now constructor.
    + intros x y [<-|Hx] Hy; [|now apply H2].
      rewrite Forall_forall in Hf2. now apply Hf2.
Qed.

Lemma NoDup_firstn {A : Type} (n : nat) (l : list A) : NoDup l -> NoDup (firstn n l).
Proof.
  intros H. rewrite <- (firstn_skipn n l) in H. now apply NoDup_app_remove_r in H.
Qed.

Lemma sortedColors_NoDup (cd : ColorData) : NoDup (map fst (sortedColors cd)).
Proof.
  pose proof (colorScores_NoDup cd) as Hnd.
  assert (Hf : NoDup (map fst (filter (fun '(c, _) => isValidBrandColor c)
                                 (colorScores cd)))).
  { induction (colorScores cd) as [|[k e] m IH]; [constructor|].
    cbn [map fst] in Hnd. inversion Hnd as [|? ? Hk Hm]; subst.
    cbn [filter]. destruct (isValidBrandColor k); [|now apply IH].
    cbn [map fst]. constructor; [|now apply IH].
    intros Hin. apply Hk. apply in_map_iff in Hin. destruct Hin as (x & Hx & Hin).
    apply filter_In in Hin. rewrite <- Hx. apply in_map. apply Hin. }
  eapply Permutation_NoDup; [|exact Hf].
  apply Permutation_map. symmetry. apply sort_perm.
Qed.

(** X10: on inputs as the page produces them the palette lists the first
    eight ranked colours: at most eight entries, no colour twice, scores in
    descending order, and every valid brand colour left out scores no more
    than any entry listed. *)
Theorem palette_is_top_eight (cd : ColorData) :
  well_formed_input cd = true ->
  let palette := Palette.palette (classifyColors cd) in
  map color palette = firstn 8 (map fst (sortedColors cd))
  /\ (List.length palette <= 8)%nat
  /\ NoDup (map color palette)
  /\ StronglySorted (fun a b => (score b <=? score a) = true) palette
  /\ forall x, In x (colorScores cd) -> isValidBrandColor (fst x) = true ->
               In (fst x) (map color palette)
               \/ Forall (fun e => (total (snd x) <=? score e) = true) palette.
Proof.
  intros Hwf palette.
  destruct (ranked_descending cd Hwf) as (Hperm & Hsorted & _).
  assert (Hp : palette = map paletteEntry (firstn 8 (sortedColors cd))) by reflexivity.
  assert (Hc : map color palette = firstn 8 (map fst (sortedColors cd))).
  { rewrite Hp, map_map, firstn_map. reflexivity. }
  rewrite <- (firstn_skipn 8 (sortedColors cd)) in Hsorted.
  apply StronglySorted_app_inv in Hsorted. destruct Hsorted as [Hs1 Hs2].
  split; [exact Hc|]. split; [|split; [|split]].
  - rewrite Hp, length_map. apply firstn_le_length.
  - rewrite Hc. apply NoDup_firstn, sortedColors_NoDup.
  - rewrite Hp. clear Hs2 Hc Hp.
    induction Hs1 as [|a l Hl IH Hf]; cbn [map]; constructor; [exact IH|].
    apply Forall_map. exact Hf.
  - intros x Hx Hv.
    assert (Hin : In x (sortedColors cd)).
    { apply sort_In, filter_In. destruct x as [k e]. now split. }
    rewrite <- (firstn_skipn 8 (sortedColors cd)) in Hin.
    apply in_app_or in Hin. destruct Hin as [Hin|Hin].
    + left. rewrite Hp, map_map. cbn [paletteEntry color].
      now apply (in_map fst) in Hin.
    + right. rewrite Hp. apply Forall_map. rewrite Forall_forall.
      intros y Hy. cbn [paletteEntry score]. now apply Hs2.
Qed.

Lemma palette_is_top_eight_witness :
  map color (Palette.palette (classifyColors (colorData landing_page)))
  = firstn 8 (map fst (sortedColors (colorData landing_page))).
Proof.
  apply (palette_is_top_eight (colorData landing_page)). vm_compute. reflexivity.
Defined.
(** ** What the page collects for [extractLogo] *)

Lemma prefix_app (p a b : string) :
  String.prefix p a = true -> String.prefix p (a ++ b) = true.
Proof.
  revert a. induction p as [|c p IH]; intros a.
  - intros _. destruct a; [destruct b|]; reflexivity.
  - destruct a as [|c' a]; [discriminate|]. cbn [String.prefix append].
    destruct (ascii_dec c c'); [apply IH|discriminate].
Qed.

Lemma prefix_truthy (p s : string) :
  JS.truthy_str p = true -> String.prefix p s = true -> JS.truthy_str s = true.
Proof. destruct p; [discriminate|]. now destruct s. Qed.

(** An address that already is absolute is returned as it is. *)
Lemma getAbsoluteUrl_fixed (origin u : string) :
  (JSString.startsWith "data:" u || JSString.startsWith "http" u) = true ->
  getAbsoluteUrl origin u = Some u.
Proof.
  intros H. unfold getAbsoluteUrl.
  assert (Ht : JS.truthy_str u = true).
  { apply orb_prop in H. destruct H as [H|H];
      eapply prefix_truthy; try exact H; reflexivity. }
  rewrite Ht. cbn [negb].
  destruct (JSString.startsWith "data:" u); [reflexivity|].
  cbn [orb] in H. now rewrite H.
Qed.

Lemma getAbsoluteUrl_absolute (origin src : string) :
  JSString.startsWith "http" origin = true ->
  match getAbsoluteUrl origin src with
  | None => src = ""
  | Some u =>
      src <> "" /\ JS.truthy_str u = true
      /\ (JSString.startsWith "data:" u || JSString.startsWith "http" u) = true
  end.
Proof.
  intros Ho. unfold getAbsoluteUrl.
  destruct src as [|c src]; [reflexivity|]. cbn [JS.truthy_str negb].
  set (s := String c src).
  assert (Hne : s <> "") by discriminate.
  destruct (JSString.startsWith "data:" s) eqn:E1;
    [repeat split; try exact Hne; rewrite ?E1; reflexivity|].
  destruct (JSString.startsWith "http" s) eqn:E2.
  { repeat split; try exact Hne; rewrite ?E2, ?orb_true_r; reflexivity. }
  assert (Hpre : forall t, JSString.startsWith "http" (origin ++ t) = true).
  { intros t. now apply prefix_app. }
  assert (Htr : forall t, JS.truthy_str (origin ++ t) = true).
  { intros t. eapply prefix_truthy; [|apply Hpre]. reflexivity. }
  destruct (JSString.startsWith "//" s);
    [repeat split; try exact Hne; reflexivity|].
  destruct (JSString.startsWith "/" s); repeat split; try exact Hne;
    rewrite ?Htr, ?Hpre, ?orb_true_r; reflexivity.
Qed.

(** X12: on a page served over http or https, [getAbsoluteUrl] returns
    null only for an empty address, and otherwise an address that starts
    with [data:] or [http] and that it maps to itself. *)
Theorem getAbsoluteUrl_is_absolute (origin src : string) :
  JSString.startsWith "http" origin = true ->
  match getAbsoluteUrl origin src with
  | None => src = ""
  | Some u =>
      src <> ""
      /\ (JSString.startsWith "data:" u || JSString.startsWith "http" u) = true
      /\ getAbsoluteUrl origin u = Some u
  end.
Proof.
  intros Ho. pose proof (getAbsoluteUrl_absolute origin src Ho) as H.
  destruct (getAbsoluteUrl origin src) as [u|]; [|exact H].
  destruct H as (Hne & _ & Ha). repeat split; try assumption.
  now apply getAbsoluteUrl_fixed.
Qed.

Lemma getAbsoluteUrl_is_absolute_witness :
  match getAbsoluteUrl "https://example.com" "//cdn.example.com/logo.svg" with
  | None => "//cdn.example.com/logo.svg" = ""
  | Some u =>
      "//cdn.example.com/logo.svg" <> ""
      /\ (JSString.startsWith "data:" u || JSString.startsWith "http" u) = true
      /\ getAbsoluteUrl "https://example.com" u = Some u
  end.
Proof.
  apply (getAbsoluteUrl_is_absolute "https://example.com" "//cdn.example.com/logo.svg").
  reflexivity.
Defined.
(** The head of the scored list is a candidate of highest score. *)
Lemma scored_head_is_top (logoData : list LogoCandidate) :
  match scored logoData with
  | [] => logoData = []
  | (best, _) :: _ =>
      In best logoData
      /\ Forall (fun l => (LogoSpec.score l <= LogoSpec.score best)%Z) logoData
  end.
Proof.
  pose proof (scored_well_scored logoData) as Hw.
  assert (Hperm : Permutation (map fst (scored logoData)) logoData).
  { unfold scored. rewrite sort_perm, map_map. simpl. now rewrite map_id. }
  assert (Hs : StronglySorted (JS.in_order byScoreDesc) (scored logoData)).
  { apply (sort_sorted byScoreDesc well_scored).
    - intros x y Hx Hy. rewrite !byScoreDesc_spec by assumption. lia.
    - intros x y z Hx Hy Hz. rewrite !byScoreDesc_spec by assumption. lia.
    - eapply Permutation_Forall; [apply sort_perm|exact Hw]. }
  destruct (scored logoData) as [|[best sc] rest].
  - cbn [map] in Hperm. now apply Permutation_nil in Hperm.
  - split.
    + apply (Permutation_in _ Hperm). now left.
    + apply (Permutation_Forall Hperm). cbn [map fst].
      inversion Hs as [|? ? _ Hbest]; subst.
      inversion Hw as [|? ? Hwb Hwr]; subst.
      constructor; [lia|]. apply Forall_map. rewrite Forall_forall in *.
      intros x Hx. specialize (Hbest x Hx). unfold JS.in_order in Hbest.
      rewrite byScoreDesc_spec in Hbest by auto. cbn [fst] in Hbest. lia.
Qed.

Lemma scored_In (logoData : list LogoCandidate) (x : LogoCandidate * float) :
  In x (scored logoData) -> In (fst x) logoData.
Proof.
  intros H. unfold scored in H. apply sort_In, in_map_iff in H.
  destruct H as (l & <- & Hl). exact Hl.
Qed.

(** Every candidate the page collects carries an absolute address, or
    none at all. *)
Lemma logoData_absolute (d : Page.Document) :
  JSString.startsWith "http" (Page.origin d) = true ->
  Forall (fun c => absolute (logo_src c)) (logoData d).
Proof.
  intros Ho. unfold logoData. rewrite !Forall_app. repeat split.
  - apply Forall_flat_map. rewrite Forall_forall. intros img _.
    unfold imageCandidate.
    destruct (JS.or_str (Some (Page.src img)) (Page.dataSrc img)) as [src|];
      [|constructor].
    match goal with |- context [if ?b then _ else _] => destruct b end;
      constructor; [|constructor].
    cbn [logo_src]. pose proof (getAbsoluteUrl_absolute (Page.origin d) src Ho) as H.
    destruct (getAbsoluteUrl (Page.origin d) src); [|exact I]. apply H.
  - apply Forall_flat_map. rewrite Forall_forall. intros s _. unfold svgCandidate.
    match goal with |- context [if ?b then _ else _] => destruct b end;
      constructor; [|constructor].
    cbn [logo_src absolute]. split; reflexivity.
  - destruct (Page.favicon d) as [href|]; constructor; [|constructor].
    cbn [faviconCandidate logo_src].
    pose proof (getAbsoluteUrl_absolute (Page.origin d) href Ho) as H.
    destruct (getAbsoluteUrl (Page.origin d) href); [|exact I]. apply H.
Qed.

Lemma slice_list_incl {A : Type} (i j : nat) (l : list A) (x : A) :
  In x (JS.slice_list i j l) -> In x l.
Proof.
  unfold JS.slice_list. intros H. apply firstn_incl in H.
  rewrite <- (firstn_skipn i l). apply in_or_app. now right.
Qed.

(** X13: on a page served over http or https, every address
    [extractLogo] reports, for the logo and for each alternative, is either
    null or a nonempty address starting with [data:] or [http]. *)
Theorem logo_urls_are_absolute (d : Page.Document) :
  JSString.startsWith "http" (Page.origin d) = true ->
  absolute (Logo.url (extractLogoOf d))
  /\ Forall (fun a => absolute (alt_url a)) (Logo.alternatives (extractLogoOf d)).
Proof.
  intros Ho. pose proof (logoData_absolute d Ho) as Ha. rewrite Forall_forall in Ha.
  unfold extractLogoOf, extractLogo. cbn [Logo.url Logo.alternatives]. split.
  - destruct (nth_error (scored (logoData d)) 0) as [[l sc]|] eqn:E; [|exact I].
    apply nth_error_In, scored_In in E. specialize (Ha _ E). cbn [fst] in Ha.
    destruct (logo_src l) as [u|]; [|exact I]. cbn [JS.or_str].
    destruct Ha as [Ht Hu]. rewrite Ht. now split.
  - apply Forall_map. rewrite Forall_forall. intros x Hx. cbn [alt_url].
    apply slice_list_incl, scored_In in Hx. now apply Ha.
Qed.

Lemma logo_urls_are_absolute_witness :
  absolute (Logo.url (extractLogoOf landing_page))
  /\ Forall (fun a => absolute (alt_url a))
       (Logo.alternatives (extractLogoOf landing_page)).
Proof. apply (logo_urls_are_absolute landing_page). reflexivity. Defined.

Lemma score_in_header (l : LogoCandidate) :
  (120 <= LogoSpec.score l)%Z -> logo_inHeader l = true.
Proof.
  unfold LogoSpec.score, LogoSpec.formatBonus, LogoSpec.areaBonus,
    LogoSpec.headerBonus, LogoSpec.keywordBonus.
  destruct (logo_format l), (logo_inHeader l), (logo_hasLogoKeyword l);
    cbv zeta;
    destruct ((500 <? logo_width l * logo_height l)
              && (logo_width l * logo_height l <? 50000)); lia || reflexivity.
Qed.

Lemma svgCandidate_score (s : Page.HeaderSvg) (c : LogoCandidate) :
  In c (svgCandidate s) -> (120 <= LogoSpec.score c)%Z.
Proof.
  unfold svgCandidate.
  destruct ((20 <? Page.width (Page.svgRect s)) && (20 <? Page.height (Page.svgRect s)));
    [|intros []].
  intros [<-|[]].
  unfold LogoSpec.score, LogoSpec.formatBonus, LogoSpec.areaBonus,
    LogoSpec.headerBonus, LogoSpec.keywordBonus.
  cbn [logo_format logo_inHeader logo_hasLogoKeyword logo_width logo_height].
  cbv zeta.
  match goal with |- context [if ?b then _ else _] => destruct b end; lia.
Qed.

(** A candidate in a header comes from an image or an inline [svg], and
    its address is not null. *)
Lemma header_candidate (d : Page.Document) (c : LogoCandidate) :
  In c (logoData d) -> logo_inHeader c = true ->
  logo_type c <> kind_favicon
  /\ exists u, logo_src c = Some u /\ JS.truthy_str u = true.
Proof.
  unfold logoData. intros H Hh.
  apply in_app_or in H. destruct H as [H|H]; [|apply in_app_or in H; destruct H as [H|H]].
  - apply in_flat_map in H. destruct H as (img & _ & H). unfold imageCandidate in H.
    destruct (JS.or_str (Some (Page.src img)) (Page.dataSrc img)) as [src|]; [|destruct H].
    match type of H with context [if ?b then _ else _] => destruct b eqn:E end;
      [|destruct H].
    destruct H as [<-|[]]. cbn [logo_type logo_src]. split; [discriminate|].
    apply andb_prop in E. destruct E as [_ Et].
    unfold getAbsoluteUrl. rewrite Et. cbn [negb].
    assert (Happ : forall a b, JS.truthy_str b = true -> JS.truthy_str (a ++ b) = true).
    { intros a b Hb. destruct a; [exact Hb|reflexivity]. }
    repeat match goal with |- context [if ?b then _ else _] => destruct b end;
      eexists; (split; [reflexivity|]); auto.
  - apply in_flat_map in H. destruct H as (s & _ & H). unfold svgCandidate in H.
    match type of H with context [if ?b then _ else _] => destruct b end; [|destruct H].
    destruct H as [<-|[]]. cbn [logo_type logo_src]. split; [discriminate|].
    eexists. split; reflexivity.
  - destruct (Page.favicon d) as [href|]; [|destruct H].
    destruct H as [<-|[]]. discriminate Hh.
Qed.

(** X14: when a header or navigation container holds an [svg] wider and
    taller than 20, the winning candidate scores at least 120, lies in a
    header, is never the favicon, and the reported logo address and format
    are its own and not null. *)
Theorem winner_with_header_svg (d : Page.Document) (s : Page.HeaderSvg) :
  In s (List.concat (Page.headerNav d)) -> qualifies s = true ->
  exists best u,
    In best (logoData d)
    /\ (120 <= LogoSpec.score best)%Z
    /\ logo_inHeader best = true
    /\ logo_type best <> kind_favicon
    /\ Logo.url (extractLogoOf d) = Some u
    /\ logo_src best = Some u
    /\ Logo.format (extractLogoOf d) = Some (logo_format best).
Proof.
  intros Hs Hq.
  assert (Hc : exists c, In c (logoData d) /\ (120 <= LogoSpec.score c)%Z).
  { unfold qualifies in Hq.
    exists {| logo_type := kind_svg;
              logo_src := Some ("data:image/svg+xml," ++ Page.encoded s)%string;
              logo_width := Page.width (Page.svgRect s);
              logo_height := Page.height (Page.svgRect s);
              logo_inHeader := true;
              logo_hasLogoKeyword := true;
              logo_format := fmt_svg |}.
    assert (Hin : In {| logo_type := kind_svg;
                        logo_src := Some ("data:image/svg+xml," ++ Page.encoded s)%string;
                        logo_width := Page.width (Page.svgRect s);
                        logo_height := Page.height (Page.svgRect s);
                        logo_inHeader := true;
                        logo_hasLogoKeyword := true;
                        logo_format := fmt_svg |} (svgCandidate s)).
    { unfold svgCandidate. rewrite Hq. now left. }
    split; [|now apply (svgCandidate_score s)].
    unfold logoData. apply in_or_app. right. apply in_or_app. left.
    apply in_flat_map. now exists s. }
  destruct Hc as (c & Hc & Hsc).
  pose proof (scored_head_is_top (logoData d)) as Htop.
  unfold extractLogoOf, extractLogo. cbn [Logo.url Logo.format].
  destruct (scored (logoData d)) as [|[best sc] rest]; [now rewrite Htop in Hc|].
  destruct Htop as [Hb Hmax]. rewrite Forall_forall in Hmax.
  pose proof (Hmax c Hc) as Hle.
  assert (H120 : (120 <= LogoSpec.score best)%Z) by lia.
  pose proof (score_in_header best H120) as Hh.
  destruct (header_candidate d best Hb Hh) as (Hty & u & Hu & Ht).
  exists best, u. cbn [nth_error option_map fst]. rewrite Hu. cbn [JS.or_str].
  rewrite Ht. repeat split; assumption.
Qed.

Lemma winner_with_header_svg_witness :
  exists best u,
    In best (logoData landing_page)
    /\ (120 <= LogoSpec.score best)%Z
    /\ logo_inHeader best = true
    /\ logo_type best <> kind_favicon
    /\ Logo.url (extractLogoOf landing_page) = Some u
    /\ logo_src best = Some u
    /\ Logo.format (extractLogoOf landing_page) = Some (logo_format best).
Proof.
  apply (winner_with_header_svg landing_page
           {| Page.svgRect := box 40 40 10; Page.encoded := "%3Csvg%3E" |});
    [left; reflexivity|reflexivity].
Defined.
(** ** Hero content and the keyword analysis *)

Lemma skip_spaces_head (s : string) : no_leading_space (JS.skip_spaces s).
Proof.
  induction s as [|c s IH]; cbn [JS.skip_spaces]; [exact I|].
  destruct (JS.is_space c) eqn:E; [exact IH|exact E].
Qed.

Lemma trimEnd_head (s : string) : no_leading_space s -> no_leading_space (JSString.trimEnd s).
Proof.
  destruct s as [|c s]; [trivial|]. cbn [no_leading_space JSString.trimEnd].
  intros Hc. rewrite Hc. now destruct (JSString.trimEnd s).
Qed.

Lemma trim_head (s : string) : no_leading_space (JSString.trim s).
Proof. apply trimEnd_head, skip_spaces_head. Qed.

Lemma slice_head (n : nat) (s : string) :
  no_leading_space s -> no_leading_space (JS.slice 0 n s).
Proof.
  unfold JS.slice. rewrite Nat.sub_0_r.
  destruct s as [|c s]; destruct n; cbn [substring no_leading_space]; trivial.
Qed.

Lemma slice_length (n : nat) (s : string) :
  (String.length (JS.slice 0 n s) <= n)%nat.
Proof.
  unfold JS.slice. rewrite Nat.sub_0_r. revert s.
  induction n as [|n IH]; intros [|c s]; cbn [substring String.length]; try lia.
  specialize (IH s). lia.
Qed.

Lemma trimmedText_head (t : option string) : no_leading_space (trimmedText t).
Proof. destruct t; [apply trim_head|exact I]. Qed.

(** X15: the hero content is bounded and trimmed at the front: headline,
    tagline and meta description hold at most 200, 500 and 300 characters,
    and neither headline nor tagline begins with white space. *)
Theorem hero_content_is_bounded (d : Page.Document) :
  let h := extractHeroContent d in
  (String.length (headline h) <= 200)%nat
  /\ (String.length (tagline h) <= 500)%nat
  /\ (String.length (metaDescription h) <= 300)%nat
  /\ no_leading_space (headline h)
  /\ no_leading_space (tagline h).
Proof.
  intros h. unfold h, extractHeroContent.
  set (hl := trimmedText (option_map Page.textContent (Page.h1 d))).
  set (tl := match Page.h1 d with
             | Some h0 =>
                 match Page.next h0 with
                 | Some (tagName, text) =>
                     if String.eqb tagName "P" || String.eqb tagName "H2"
                     then JSString.trim text else ""
                 | None => ""
                 end
             | None => ""
             end).
  assert (Hhl : no_leading_space hl) by apply trimmedText_head.
  assert (Htl : no_leading_space tl).
  { unfold tl. destruct (Page.h1 d) as [h0|]; [|exact I].
    destruct (Page.next h0) as [[tagName text]|]; [|exact I].
    destruct (String.eqb tagName "P" || String.eqb tagName "H2"); [apply trim_head|exact I]. }
  cbv zeta.
  destruct (match Page.heroSection d with
            | Some hero =>
                if negb (JS.truthy_str hl)
                then (trimmedText (Page.heroHeading hero),
                      trimmedText (Page.heroParagraph hero))
                else (hl, tl)
            | None => (hl, tl)
            end) as [hl' tl'] eqn:E.
  assert (H' : no_leading_space hl' /\ no_leading_space tl').
  { destruct (Page.heroSection d) as [hero|]; [|now injection E as <- <-].
    destruct (negb (JS.truthy_str hl)); injection E as <- <-;
      split; trivial; apply trimmedText_head. }
  cbn [headline tagline metaDescription].
  repeat split; try apply slice_length; apply slice_head; apply H'.
Qed.

Lemma toLowerCase_app (a b : string) :
  JS.toLowerCase (a ++ b) = (JS.toLowerCase a ++ JS.toLowerCase b)%string.
Proof. induction a as [|c a IH]; simpl; [reflexivity|]. now rewrite IH. Qed.

Lemma includes_app_l (w a b : string) :
  JSString.includes w a = true -> JSString.includes w (a ++ b) = true.
Proof.
  induction a as [|c a IH]; cbn [JSString.includes append].
  - rewrite orb_false_r. intros H. destruct w; [|now destruct b].
    destruct b; reflexivity.
  - intros H. apply orb_prop in H. destruct H as [H|H].
    + change (String c (a ++ b)) with (String c a ++ b)%string.
      now rewrite (prefix_app _ _ b H).
    + rewrite (IH H). apply orb_true_r.
Qed.

Lemma includes_app_r (w a b : string) :
  JSString.includes w b = true -> JSString.includes w (a ++ b) = true.
Proof.
  intros H. induction a as [|c a IH]; cbn [JSString.includes append]; [exact H|].
  rewrite IH. apply orb_true_r.
Qed.

(** A word found in a field is found in the text that is analysed. *)
Lemma field_in_text (h : HeroContent) (f w : string) :
  In f (analysed_fields h) -> JSString.test_i w f = true ->
  JSString.includes w
    (JS.toLowerCase (headline h ++ " " ++ tagline h ++ " " ++ metaDescription h))
  = true.
Proof.
  unfold analysed_fields, JSString.test_i. rewrite !toLowerCase_app.
  intros [<-|[<-|[<-|[]]]] H.
  - now apply includes_app_l.
  - apply includes_app_r, includes_app_r. now apply includes_app_l.
  - now do 4 apply includes_app_r.
Qed.

(** X17: the keyword analysis always returns one of five tone and
    audience pairs and one of four vibes. *)
Theorem fallbackAnalysis_labels (h : HeroContent) :
  In (tone (fallbackAnalysis h), audience (fallbackAnalysis h))
    [("Corporate", "Enterprise Teams"); ("Technical", "Developers");
     ("Innovative", "Tech-Forward Teams"); ("Friendly", "Small Businesses");
     ("Professional", "General")]
  /\ In (vibe (fallbackAnalysis h))
       ["Tech Forward"; "Premium"; "Startup Energy"; "Modern"].
Proof.
  unfold fallbackAnalysis. cbv zeta.
  repeat match goal with
         | |- context [if ?b then _ else _] => destruct b
         end;
    cbn [tone audience vibe In]; tauto.
Qed.

(** X18: the keyword analysis depends only on headline, tagline and meta
    description, and only up to letter case: the page title is never
    read. *)
Theorem fallbackAnalysis_ignores_case (h h' : HeroContent) :
  map JS.toLowerCase (analysed_fields h) = map JS.toLowerCase (analysed_fields h') ->
  fallbackAnalysis h = fallbackAnalysis h'.
Proof.
  unfold analysed_fields. cbn [map]. intros [= H1 H2 H3].
  unfold fallbackAnalysis. rewrite !toLowerCase_app, H1, H2, H3. reflexivity.
Qed.

Lemma fallbackAnalysis_ignores_case_witness :
  fallbackAnalysis (extractHeroContent landing_page) = fallbackAnalysis shouted.
Proof.
  apply (fallbackAnalysis_ignores_case (extractHeroContent landing_page) shouted).
  reflexivity.
Defined.

(** X19: keywords are matched as substrings of any of the three fields,
    in any mix of cases.  A field containing [enterprise], [business] or
    [solution] makes the tone Corporate whatever else is said; a field
    containing the letters [ai], even inside another word, makes the vibe
    Tech Forward and the tone Corporate, Technical or Innovative. *)
Theorem fallbackAnalysis_keywords (h : HeroContent) (f : string) :
  In f (analysed_fields h) ->
  (JSString.test_i "enterprise" f || JSString.test_i "business" f
   || JSString.test_i "solution" f = true ->
   tone (fallbackAnalysis h) = "Corporate"
   /\ audience (fallbackAnalysis h) = "Enterprise Teams")
  /\ (JSString.test_i "ai" f = true ->
      vibe (fallbackAnalysis h) = "Tech Forward"
      /\ In (tone (fallbackAnalysis h)) ["Corporate"; "Technical"; "Innovative"]).
Proof.
  intros Hf. pose proof (field_in_text h f) as Ht. specialize (fun w => Ht w Hf).
  unfold fallbackAnalysis. cbv zeta.
  set (text := JS.toLowerCase _) in *.
  split.
  - intros H.
    assert (Hc : JSString.includes "enterprise" text || JSString.includes "business" text
                 || JSString.includes "solution" text = true).
    { apply orb_prop in H. destruct H as [H|H];
        [apply orb_prop in H; destruct H as [H|H]|];
        rewrite (Ht _ H), ?orb_true_r; reflexivity. }
    rewrite Hc. cbn [tone audience]. now split.
  - intros H. rewrite (Ht _ H). cbn [orb].
    repeat match goal with
           | |- context [if ?b then _ else _] => destruct b
           end;
      cbn [tone vibe In]; tauto.
Qed.

Lemma fallbackAnalysis_keywords_witness :
  vibe (fallbackAnalysis (extractHeroContent landing_page)) = "Tech Forward"
  /\ In (tone (fallbackAnalysis (extractHeroContent landing_page)))
       ["Corporate"; "Technical"; "Innovative"].
Proof.
  apply (fallbackAnalysis_keywords (extractHeroContent landing_page)
           "Email made simple");
    [left; reflexivity|reflexivity].
Defined.
(** ** Counting occurrences *)

Lemma tally_nonneg (n : nat) : nonneg (tally_value n).
Proof.
  induction n as [|n IH]; [reflexivity|].
  change (tally_value (S n)) with (tally_value n + 1).
  apply leb_nonneg with 1; [reflexivity|]. now apply add_ge.
Qed.

Lemma tally_ge_one (n : nat) : (1 <=? tally_value (S n)) = true.
Proof.
  change (tally_value (S n)) with (tally_value n + 1).
  apply add_ge; [apply tally_nonneg|reflexivity].
Qed.

Lemma tally_truthy (n : nat) : JS.truthy (tally_value (S n)) = true.
Proof.
  apply positive_truthy. apply ltb_leb_trans with 1; [reflexivity|apply tally_ge_one].
Qed.

Lemma rising_iter (fuel : nat) (x : float) :
  rising fuel x = true ->
  forall n, (n < fuel)%nat ->
    (Nat.iter n (fun x => x + 1) x <? Nat.iter (S n) (fun x => x + 1) x) = true.
Proof.
  revert x. induction fuel as [|fuel IH]; intros x H n Hn; [lia|].
  cbn [rising] in H. apply andb_prop in H. destruct H as [H1 H2].
  destruct n as [|n]; [exact H1|].
  rewrite (Nat.iter_succ_r (S n)), (Nat.iter_succ_r n). apply IH; [exact H2|lia].
Qed.

Lemma tally_step (n : nat) :
  (n < tally_bound)%nat -> (tally_value n <? tally_value (S n)) = true.
Proof.
  apply (rising_iter tally_bound 0). vm_compute. reflexivity.
Qed.

(** From here on the bound is only compared, never computed. *)
#[global] Opaque tally_bound.

Lemma ltb_leb (x y : float) : nonneg x -> nonneg y -> (x <? y) = true -> (x <=? y) = true.
Proof.
  intros Hx Hy H. rewrite (leb_ltb x y Hx Hy). now rewrite (ltb_asym x y H).
Qed.

Lemma tally_lt (n m : nat) :
  (n < m)%nat -> (m <= tally_bound)%nat -> (tally_value n <? tally_value m) = true.
Proof.
  intros Hnm. induction Hnm as [|m Hnm IH]; intros Hm.
  - apply tally_step. lia.
  - apply ltb_leb_trans with (tally_value m); [apply IH; lia|].
    apply ltb_leb; try apply tally_nonneg. apply tally_step. lia.
Qed.

(** Within the bound, comparing counts compares numbers of occurrences. *)
Lemma tally_le (n m : nat) :
  (n <= tally_bound)%nat -> (m <= tally_bound)%nat ->
  (tally_value n <=? tally_value m) = (n <=? m)%nat.
Proof.
  intros Hn Hm. destruct (Nat.leb_spec n m) as [H|H].
  - destruct (Nat.eq_dec n m) as [->|Hne].
    + rewrite leb_ltb by apply tally_nonneg.
      destruct (tally_value m <? tally_value m) eqn:E; [|reflexivity].
      now rewrite (ltb_asym _ _ E) in E.
    + apply ltb_leb; try apply tally_nonneg. apply tally_lt; lia.
  - rewrite leb_ltb by apply tally_nonneg. now rewrite tally_lt.
Qed.

Lemma tally_lt_iff (n m : nat) :
  (n <= tally_bound)%nat -> (m <= tally_bound)%nat ->
  (tally_value n <? tally_value m) = (n <? m)%nat.
Proof.
  intros Hn Hm. pose proof (tally_le m n Hm Hn) as H.
  rewrite leb_ltb in H by apply tally_nonneg.
  rewrite Nat.ltb_antisym, <- H. now rewrite negb_involutive.
Qed.

Lemma tally_eq (n m : nat) :
  (n <= tally_bound)%nat -> (m <= tally_bound)%nat ->
  tally_value n = tally_value m -> n = m.
Proof.
  intros Hn Hm H.
  pose proof (tally_lt_iff n m Hn Hm) as H1. pose proof (tally_lt_iff m n Hm Hn) as H2.
  rewrite H in H1. rewrite H in H2.
  destruct (tally_value m <? tally_value m) eqn:E.
  - now rewrite (ltb_asym _ _ E) in E.
  - symmetry in H1, H2. apply Nat.ltb_ge in H1, H2. lia.
Qed.

Lemma occurrences_le (l : list string) (c : string) :
  (occurrences l c <= List.length l)%nat.
Proof. apply count_occ_bound. Qed.

(** The tally after the colours [l]: one entry per colour, holding the
    count reached after as many additions as the colour has
    occurrences. *)
Lemma countColors_get (l : list string) (c : string) :
  Assoc.get String.eqb c (countColors l)
  = match occurrences l c with
    | O => None
    | S n => Some (tally_value (S n))
    end.
Proof.
  unfold countColors.
  assert (H : forall l0 m,
             (forall c, Assoc.get String.eqb c m
                        = match occurrences l0 c with
                          | O => None
                          | S n => Some (tally_value (S n))
                          end) ->
             forall c,
               Assoc.get String.eqb c
                 (fold_left
                    (fun counts c =>
                       Assoc.set String.eqb c
                         (JS.or_zero (Assoc.get String.eqb c counts) + 1) counts) l m)
               = match occurrences (l0 ++ l) c with
                 | O => None
                 | S n => Some (tally_value (S n))
                 end).
  { induction l as [|x l IH]; intros l0 m Hm c0.
    - rewrite app_nil_r. apply Hm.
    - cbn [fold_left].
      replace (l0 ++ x :: l) with ((l0 ++ [x]) ++ l) by (now rewrite <- app_assoc).
      apply IH. intros k. unfold occurrences. rewrite count_occ_app. cbn [count_occ].
      destruct (string_dec x k) as [->|Hne].
      + rewrite (get_set_same String.eqb String.eqb_eq). rewrite Hm.
        unfold occurrences. destruct (count_occ string_dec l0 k) as [|n] eqn:E.
        * reflexivity.
        * cbn [JS.or_zero]. rewrite tally_truthy.
          replace (S n + 1)%nat with (S (S n)) by lia. reflexivity.
      + rewrite (get_set_other String.eqb String.eqb_eq) by congruence.
        rewrite Hm. unfold occurrences. now rewrite Nat.add_0_r. }
  apply (H [] []). intros k. reflexivity.
Qed.

Lemma distinct_snoc (l : list string) (c : string) :
  JS.distinct (l ++ [c])
  = if in_dec string_dec c l then JS.distinct l else JS.distinct l ++ [c].
Proof.
  induction l as [|x l IH]; cbn [app JS.distinct].
  - destruct (in_dec string_dec c []) as [[]|_]. reflexivity.
  - rewrite IH. destruct (in_dec string_dec c l) as [Hin|Hn];
      destruct (in_dec string_dec c (x :: l)) as [Hin'|Hn']; try reflexivity.
    + exfalso. apply Hn'. now right.
    + destruct Hin' as [->|Hin']; [|contradiction].
      rewrite filter_app. cbn [filter]. rewrite String.eqb_refl. cbn [negb].
      now rewrite app_nil_r.
    + rewrite filter_app. cbn [filter].
      destruct (String.eqb x c) eqn:E;
        [apply String.eqb_eq in E; subst; exfalso; apply Hn'; now left|].
      reflexivity.
Qed.

(** The keys of the tally are the distinct colours in the order in which
    each is first seen. *)
Lemma countColors_keys (l : list string) : map fst (countColors l) = JS.distinct l.
Proof.
  unfold countColors.
  assert (H : forall l0 m,
             map fst m = JS.distinct l0 ->
             map fst
               (fold_left
                  (fun counts c =>
                     Assoc.set String.eqb c
                       (JS.or_zero (Assoc.get String.eqb c counts) + 1) counts) l m)
             = JS.distinct (l0 ++ l)).
  { induction l as [|x l IH]; intros l0 m Hm.
    - now rewrite app_nil_r.
    - cbn [fold_left].
      replace (l0 ++ x :: l) with ((l0 ++ [x]) ++ l) by (now rewrite <- app_assoc).
      apply IH. rewrite (keys_set String.eqb), distinct_snoc, Hm. unfold Assoc.has.
      destruct (in_dec string_dec x l0) as [Hin|Hn].
      + apply distinct_In in Hin. rewrite <- Hm in Hin.
        destruct (Assoc.get String.eqb x m) eqn:E; [reflexivity|].
        now apply (get_None_notin String.eqb String.eqb_eq) in E.
      + destruct (Assoc.get String.eqb x m) eqn:E; [|reflexivity].
        exfalso. apply Hn. apply distinct_In. rewrite <- Hm.
        destruct (get_In _ _ _ _ E) as (k' & Hk & Hin).
        apply String.eqb_eq in Hk. subst k'. now apply (in_map fst) in Hin. }
  apply (H [] []). reflexivity.
Qed.

Lemma distinct_id (l : list string) : NoDup l -> JS.distinct l = l.
Proof.
  induction 1 as [|x l Hx Hl IH]; cbn [JS.distinct]; [reflexivity|].
  rewrite IH. f_equal. apply forallb_filter_id. apply forallb_forall.
  intros y Hy. apply negb_true_iff, String.eqb_neq. congruence.
Qed.

Lemma StronglySorted_map {A B : Type} (f : A -> B) (R : B -> B -> Prop) (l : list A) :
  StronglySorted (fun a b => R (f a) (f b)) l -> StronglySorted R (map f l).
Proof.
  induction 1 as [|a l Hs IH Ha]; cbn [map]; constructor; [exact IH|].
  now apply Forall_map.
Qed.

Lemma filter_map_comm {A B : Type} (f : A -> B) (p : B -> bool) (l : list A) :
  filter p (map f l) = map f (filter (fun a => p (f a)) l).
Proof.
  induction l as [|a l IH]; cbn [map filter]; [reflexivity|].
  destruct (p (f a)); cbn [map]; now rewrite IH.
Qed.

(** Every entry of the tally holds the count of its colour. *)
Lemma countColors_entries (l : list string) (x : string * float) :
  In x (countColors l) ->
  snd x = tally_value (occurrences l (fst x)) /\ (1 <= occurrences l (fst x))%nat.
Proof.
  intros Hx. destruct x as [c v]. cbn [fst snd].
  assert (Hnd : NoDup (map fst (countColors l)))
    by (rewrite countColors_keys; apply distinct_NoDup).
  apply (In_get String.eqb String.eqb_eq _ _ _ Hnd) in Hx.
  rewrite countColors_get in Hx.
  destruct (occurrences l c) as [|n]; [discriminate|].
  injection Hx as <-. split; [reflexivity|lia].
Qed.

(** *** Ranking by count *)

Section Ranking.
Context {A : Type} (key : A -> string) (cnt : A -> float).
Variables (names : list string) (items : list A).
Hypothesis within_bound : (List.length names <= tally_bound)%nat.
Hypothesis counted :
  forall x, In x items -> cnt x = tally_value (occurrences names (key x)).
Hypothesis keyed : map key items = JS.distinct names.

Let after (a b : A) : bool := 0 <? cnt b - cnt a.

Lemma after_spec (x y : A) :
  In x items -> In y items ->
  after x y = (occurrences names (key x) <? occurrences names (key y))%nat.
Proof.
  intros Hx Hy. unfold after. rewrite (counted x Hx), (counted y Hy).
  rewrite sub_sign by apply tally_nonneg.
  apply tally_lt_iff; (eapply Nat.le_trans; [apply occurrences_le|exact within_bound]).
Qed.

Lemma in_order_occurrences (s : list A) :
  Forall (fun x => In x items) s ->
  StronglySorted (JS.in_order after) s ->
  StronglySorted
    (fun a b => (occurrences names (key b) <= occurrences names (key a))%nat) s.
Proof.
  intros Hin Hs. induction Hs as [|a s Hs IH Ha]; constructor.
  - apply IH. now inversion Hin.
  - inversion Hin as [|? ? Hia His]; subst. rewrite Forall_forall in *.
    intros b Hb. specialize (Ha b Hb). unfold JS.in_order in Ha.
    rewrite after_spec in Ha by auto. apply Nat.ltb_ge in Ha. exact Ha.
Qed.

(** Sorting counted items by descending count ranks their keys by
    frequency. *)
Lemma sort_by_frequency : by_frequency names (map key (JS.sort after items)).
Proof.
  assert (Hdom : Forall (fun x => In x items) items) by (rewrite Forall_forall; auto).
  split; [|split].
  - rewrite <- keyed. apply Permutation_map, sort_perm.
  - apply StronglySorted_map. apply in_order_occurrences.
    + eapply Permutation_Forall; [symmetry; apply sort_perm|exact Hdom].
    + apply (sort_sorted after (fun x => In x items)); [| |exact Hdom].
      * intros x y Hx Hy. rewrite !after_spec by assumption.
        intros H. apply Nat.ltb_lt in H. apply Nat.ltb_ge. lia.
      * intros x y z Hx Hy Hz. rewrite !after_spec by assumption.
        rewrite !Nat.ltb_lt. lia.
  - intros n. rewrite <- keyed, !filter_map_comm. f_equal.
    apply sort_stable. intros x y Hx Hy Hpx Hpy. rewrite after_spec by assumption.
    apply Nat.eqb_eq in Hpx, Hpy. apply Nat.ltb_ge. lia.
Qed.
End Ranking.

(** A ranked list has no name twice. *)
Lemma by_frequency_NoDup (names ranked : list string) :
  by_frequency names ranked -> NoDup ranked.
Proof.
  intros (Hp & _). eapply Permutation_NoDup; [symmetry; exact Hp|apply distinct_NoDup].
Qed.

Lemma rgbToHex_hash_key (style c : string) :
  rgbToHex style = Some c -> hash_key c = true.
Proof.
  unfold rgbToHex.
  destruct (negb (JS.truthy_str style) || String.eqb style "transparent"
            || String.eqb style "rgba(0, 0, 0, 0)"); [discriminate|].
  destruct (rgb_match style) as [[[r g] b]|]; [|discriminate].
  intros [= <-]. reflexivity.
Qed.

(** Every text colour that the page hands over starts with [#], whatever
    the document. *)
Lemma page_text_keys (d : Page.Document) :
  Forall (fun c => hash_key c = true) (text (colorData d)).
Proof.
  unfold colorData. cbn [text]. unfold textOf. apply Forall_flat_map.
  apply Forall_forall. intros el _.
  destruct (computed (Page.color el)) as [c|] eqn:E; constructor; [|constructor].
  apply computed_spec in E. now apply (rgbToHex_hash_key (Page.color el)).
Qed.

(** X20: for up to a million text colours, each starting with [#] as the
    colours of a page do ([page_text_keys]), the text colours are ranked
    by how often each occurs, colours that occur equally often in the
    order in which they are first seen; the two first are reported, and
    [text] is the first of them, or "#000000" when there is none. *)
Theorem text_colors_by_frequency (cd : ColorData) :
  Forall (fun c => hash_key c = true) (text cd) ->
  (List.length (text cd) <= tally_bound)%nat ->
  let ranked := map fst (JS.sort byCountDesc (countColors (text cd))) in
  by_frequency (text cd) ranked
  /\ Palette.textColors (classifyColors cd) = firstn 2 ranked
  /\ Palette.text (classifyColors cd) = hd "#000000" ranked.
Proof.
  intros Hk Hl ranked.
  assert (Hr : by_frequency (text cd) ranked).
  { apply (sort_by_frequency fst snd (text cd) (countColors (text cd)) Hl).
    - intros x Hx. now apply countColors_entries.
    - apply countColors_keys. }
  split; [exact Hr|]. split.
  - unfold classifyColors. cbn [Palette.textColors]. unfold textColors, JS.slice_list.
    cbn [skipn Nat.sub]. rewrite <- firstn_map. apply distinct_id.
    apply NoDup_firstn. exact (by_frequency_NoDup _ _ Hr).
  - assert (Hhead : forall c, hd_error ranked = Some c -> JS.truthy_str c = true).
    { intros c Hc. destruct Hr as (Hp & _).
      assert (Hin : In c (text cd)).
      { apply distinct_In. apply (Permutation_in c Hp).
        destruct ranked as [|c' r]; [discriminate|]. injection Hc as ->. now left. }
      rewrite Forall_forall in Hk. specialize (Hk c Hin). now destruct c. }
    unfold classifyColors. cbn [Palette.text]. unfold textColors, JS.slice_list, or_default.
    cbn [skipn Nat.sub]. unfold ranked in *.
    destruct (JS.sort byCountDesc (countColors (text cd))) as [|[c v] [|y rest]];
      cbn in *; try reflexivity; now rewrite (Hhead c eq_refl).
Qed.

Lemma text_colors_by_frequency_witness :
  Forall (fun c => hash_key c = true) (text (colorData landing_page))
  /\ (List.length (text (colorData landing_page)) <= tally_bound)%nat
  /\ Palette.textColors (classifyColors (colorData landing_page))
     = firstn 2 (map fst (JS.sort byCountDesc
                            (countColors (text (colorData landing_page))))).
Proof.
  assert (Hk : Forall (fun c => hash_key c = true) (text (colorData landing_page)))
    by (apply forallb_Forall; vm_compute; reflexivity).
  assert (Hl : (List.length (text (colorData landing_page)) <= tally_bound)%nat)
    by (apply Nat.leb_le; vm_compute; reflexivity).
  split; [exact Hk|]. split; [exact Hl|].
  now apply (text_colors_by_frequency (colorData landing_page)).
Defined.
(** ** Typography *)

Lemma headingsMap_calls (d : Page.Document) : headingsMap d = fontMap (headingCalls d).
Proof.
  unfold headingsMap, fontMap, headingCalls. generalize (@nil (string * FontEntry)).
  induction (Page.headings d) as [|h l IH]; intros m; [reflexivity|].
  cbn [map fold_left fontCall]. apply IH.
Qed.

Lemma bodyMap_calls (d : Page.Document) : bodyMap d = fontMap (bodyCalls d).
Proof.
  unfold bodyMap, fontMap, bodyCalls. generalize (@nil (string * FontEntry)).
  induction (Page.bodyElements d) as [|h l IH]; intros m; [reflexivity|].
  cbn [filter fold_left]. destruct (text_sized h); [|apply IH].
  cbn [map fold_left fontCall]. apply IH.
Qed.

Lemma fontMap_snoc (cs : list (string * string * string)) (k s w : string) :
  fontMap (cs ++ [(k, s, w)]) = addFont k s w (fontMap cs).
Proof. unfold fontMap. now rewrite fold_left_app. Qed.

Lemma filter_absent (cs : list (string * string * string)) (k : string) :
  count_occ string_dec (map call_name cs) k = O ->
  filter (fun c => String.eqb (call_name c) k) cs = [].
Proof.
  induction cs as [|c cs IH]; [reflexivity|]. cbn [map count_occ filter].
  destruct (string_dec (call_name c) k) as [->|Hne]; [discriminate|].
  apply String.eqb_neq in Hne. rewrite Hne. exact IH.
Qed.

(** The map after the calls [cs]: one entry per family name, counting its
    calls and listing their weights. *)
Lemma fontMap_get (cs : list (string * string * string)) (k : string) :
  match Assoc.get String.eqb k (fontMap cs) with
  | Some e =>
      exists n, occurrences (map call_name cs) k = S n
                /\ count e = tally_value (S n)
                /\ weights e = weights_of cs k
  | None => occurrences (map call_name cs) k = O
  end.
Proof.
  induction cs as [|[[k0 s] w] cs IH] using rev_ind; [reflexivity|].
  rewrite fontMap_snoc. unfold addFont, occurrences, weights_of in *.
  rewrite map_app, count_occ_app, filter_app, map_app.
  cbn [map count_occ call_name fst snd filter].
  destruct (string_dec k0 k) as [->|Hne].
  - rewrite (get_set_same String.eqb String.eqb_eq). rewrite String.eqb_refl.
    cbn [map call_weight snd count weights].
    destruct (Assoc.get String.eqb k (fontMap cs)) as [e|].
    + destruct IH as (n & Hn & Hc & Hw). exists (S n). rewrite Hn, Hc, Hw.
      repeat split. lia.
    + exists O. rewrite IH, (filter_absent cs k IH). repeat split.
  - rewrite (get_set_other String.eqb String.eqb_eq) by congruence.
    apply String.eqb_neq in Hne. rewrite Hne. cbn [map]. rewrite app_nil_r, Nat.add_0_r.
    exact IH.
Qed.

Lemma fontMap_keys (cs : list (string * string * string)) :
  map fst (fontMap cs) = JS.distinct (map call_name cs).
Proof.
  induction cs as [|[[k s] w] cs IH] using rev_ind; [reflexivity|].
  rewrite fontMap_snoc, map_app. cbn [map call_name fst]. unfold addFont.
  rewrite (keys_set String.eqb), distinct_snoc, IH. unfold Assoc.has.
  pose proof (fontMap_get cs k) as Hg.
  destruct (in_dec string_dec k (map call_name cs)) as [Hin|Hn].
  - destruct (Assoc.get String.eqb k (fontMap cs)); [reflexivity|].
    unfold occurrences in Hg. apply (count_occ_In string_dec) in Hin. lia.
  - destruct (Assoc.get String.eqb k (fontMap cs)); [|reflexivity].
    destruct Hg as (n & Hn' & _). unfold occurrences in Hn'.
    apply (count_occ_not_In string_dec) in Hn. lia.
Qed.

Lemma fontMap_NoDup (cs : list (string * string * string)) :
  NoDup (map fst (fontMap cs)).
Proof. rewrite fontMap_keys. apply distinct_NoDup. Qed.

Lemma fontMap_entry (cs : list (string * string * string)) (k : string) (e : FontEntry) :
  In (k, e) (fontMap cs) ->
  count e = tally_value (occurrences (map call_name cs) k)
  /\ weights e = weights_of cs k.
Proof.
  intros H. apply (In_get String.eqb String.eqb_eq _ _ _ (fontMap_NoDup cs)) in H.
  pose proof (fontMap_get cs k) as Hg. rewrite H in Hg.
  destruct Hg as (n & -> & Hc & Hw). now split.
Qed.

(** The ranked fonts and the choice made from them, for either map;
    [size] picks the reported size, which plays no part. *)
Lemma fontChoice_spec (size : FontEntry -> option string)
    (cs : list (string * string * string)) :
  (List.length cs <= tally_bound)%nat ->
  let fonts :=
    JS.sort byFontCount
      (map (fun '(font, data) =>
              {| family := font;
                 font_count := count data;
                 avgSize := size data;
                 font_weights := JS.distinct (weights data) |})
         (fontMap cs)) in
  by_frequency (map call_name cs) (map family fonts)
  /\ chosen cs (map family fonts) (fontChoice fonts).
Proof.
  intros Hl fonts.
  set (info := fun x : string * FontEntry =>
                 let '(font, data) := x in
                 {| family := font;
                    font_count := count data;
                    avgSize := size data;
                    font_weights := JS.distinct (weights data) |}) in *.
  assert (Hinfo : forall x, In x (map info (fontMap cs)) ->
                    font_count x
                    = tally_value (occurrences (map call_name cs) (family x))
                    /\ font_weights x = JS.distinct (weights_of cs (family x))).
  { intros x Hx. apply in_map_iff in Hx. destruct Hx as ([k e] & <- & Hin).
    destruct (fontMap_entry cs k e Hin) as [Hc Hw]. cbn [info family font_count font_weights].
    now rewrite Hc, Hw. }
  assert (Hr : by_frequency (map call_name cs) (map family fonts)).
  { apply (sort_by_frequency family font_count (map call_name cs) (map info (fontMap cs))).
    - rewrite length_map. exact Hl.
    - intros x Hx. now apply Hinfo.
    - rewrite map_map, <- fontMap_keys. apply map_ext. now intros [k e]. }
  split; [exact Hr|].
  assert (Hin : forall x, In x fonts -> In x (map info (fontMap cs))).
  { intros x Hx. unfold fonts in Hx. now apply sort_In in Hx. }
  unfold chosen, fontChoice.
  cbn [Typography.family Typography.weights Typography.fallback].
  destruct fonts as [|top rest] eqn:Ef.
  - cbn. repeat split.
  - cbn [map nth_error option_map or_default]. repeat split.
    + unfold or_default. cbn [JS.or_str]. now destruct (JS.truthy_str (family top)).
    + apply Hinfo, Hin. now left.
    + now destruct rest.
Qed.

Lemma headingNames_calls (d : Page.Document) :
  map call_name (headingCalls d) = headingNames d.
Proof. unfold headingCalls, headingNames. rewrite map_map. reflexivity. Qed.

Lemma bodyNames_calls (d : Page.Document) :
  map call_name (bodyCalls d) = bodyNames d.
Proof. unfold bodyCalls, bodyNames. rewrite map_map. reflexivity. Qed.

Lemma filter_length_le {A : Type} (f : A -> bool) (l : list A) :
  (List.length (filter f l) <= List.length l)%nat.
Proof.
  induction l as [|a l IH]; cbn [filter List.length]; [lia|].
  destruct (f a); cbn [List.length]; lia.
Qed.

(** X21: for up to a million elements, heading and body fonts are ranked
    by how many elements use each family name (body elements count only
    when their font size parses to between 12 and 24), names used equally
    often in the order in which they are first seen.  The reported family
    is the first name, or "System Default" when there is none or it is
    empty; the weights are the distinct weights of the elements of that
    family, or ["400"]; the fallback is the second name; and [all] lists
    the heading names, then the body names, each once. *)
Theorem typography_by_frequency (d : Page.Document) :
  (List.length (Page.headings d) <= tally_bound)%nat ->
  (List.length (Page.bodyElements d) <= tally_bound)%nat ->
  let t := extractTypography d in
  let heading_families := map family (headingFonts d) in
  let body_families := map family (bodyFonts d) in
  by_frequency (headingNames d) heading_families
  /\ chosen (headingCalls d) heading_families (Typography.heading t)
  /\ by_frequency (bodyNames d) body_families
  /\ chosen (bodyCalls d) body_families (Typography.body t)
  /\ Typography.all t = JS.distinct (heading_families ++ body_families).
Proof.
  intros Hh Hb t hf bf.
  assert (Hlh : (List.length (headingCalls d) <= tally_bound)%nat).
  { unfold headingCalls. rewrite length_map. exact Hh. }
  assert (Hlb : (List.length (bodyCalls d) <= tally_bound)%nat).
  { unfold bodyCalls. rewrite length_map.
    eapply Nat.le_trans; [apply filter_length_le|exact Hb]. }
  destruct (fontChoice_spec (fun data => nth_error (sizes data) 0) (headingCalls d) Hlh)
    as [H1 H2].
  destruct (fontChoice_spec
              (fun data => nth_error (sizes data) (List.length (sizes data) / 2))
              (bodyCalls d) Hlb) as [H3 H4].
  rewrite <- headingsMap_calls, headingNames_calls in *.
  rewrite <- bodyMap_calls, bodyNames_calls in *.
  split; [exact H1|]. split; [exact H2|]. split; [exact H3|]. split; [exact H4|].
  unfold t, hf, bf, extractTypography. cbn [Typography.all]. now rewrite map_app.
Qed.

Lemma every_impl (p q : ascii -> bool) (s : string) :
  (forall c, p c = true -> q c = true) -> every p s = true -> every q s = true.
Proof.
  intros H. induction s as [|c s IH]; cbn [every]; [trivial|].
  intros Hs. apply andb_prop in Hs. destruct Hs as [Hc Hs].
  now rewrite (H c Hc), IH.
Qed.

Lemma unquote_every (p : ascii -> bool) (s : string) :
  every p s = true ->
  every (fun c => p c && negb (is_quote c)) (unquote s) = true.
Proof.
  induction s as [|c s IH]; cbn [every unquote]; [trivial|].
  intros Hs. apply andb_prop in Hs. destruct Hs as [Hc Hs].
  destruct (is_quote c) eqn:E; [now apply IH|].
  cbn [every]. now rewrite Hc, E, IH.
Qed.

Lemma skip_spaces_every (p : ascii -> bool) (s : string) :
  every p s = true -> every p (JS.skip_spaces s) = true.
Proof.
  induction s as [|c s IH]; cbn [every JS.skip_spaces]; [trivial|].
  intros Hs. destruct (JS.is_space c); [|exact Hs].
  apply andb_prop in Hs. now apply IH.
Qed.

Lemma trimEnd_every (p : ascii -> bool) (s : string) :
  every p s = true -> every p (JSString.trimEnd s) = true.
Proof.
  induction s as [|c s IH]; cbn [every JSString.trimEnd]; [trivial|].
  intros Hs. apply andb_prop in Hs. destruct Hs as [Hc Hs]. specialize (IH Hs).
  destruct (JSString.trimEnd s) as [|a t].
  - destruct (JS.is_space c); [reflexivity|]. cbn [every]. now rewrite Hc.
  - cbn [every] in *. now rewrite Hc, IH.
Qed.

Lemma skip_spaces_fixed (s : string) : no_leading_space s -> JS.skip_spaces s = s.
Proof. destruct s as [|c s]; [reflexivity|]. cbn. now intros ->. Qed.

Lemma trimEnd_idempotent (s : string) :
  JSString.trimEnd (JSString.trimEnd s) = JSString.trimEnd s.
Proof.
  induction s as [|c s IH]; [reflexivity|]. cbn [JSString.trimEnd].
  destruct (JSString.trimEnd s) as [|a t] eqn:E.
  - destruct (JS.is_space c) eqn:Ec; [reflexivity|].
    cbn [JSString.trimEnd]. now rewrite Ec.
  - cbn [JSString.trimEnd]. cbn [JSString.trimEnd] in IH. now rewrite IH.
Qed.

Lemma trim_idempotent (s : string) : JSString.trim (JSString.trim s) = JSString.trim s.
Proof.
  unfold JSString.trim at 1. rewrite (skip_spaces_fixed _ (trim_head s)).
  unfold JSString.trim. apply trimEnd_idempotent.
Qed.

Lemma firstFamily_clean (s : string) : clean_name (firstFamily s).
Proof.
  unfold clean_name, firstFamily. split; [|apply trim_idempotent].
  unfold JSString.trim. apply trimEnd_every, skip_spaces_every.
  destruct (JSString.span (fun c => negb (is_comma c)) s) as [run rest] eqn:E.
  apply span_spec in E. destruct E as [_ He]. cbn [fst].
  now apply unquote_every.
Qed.

Lemma fontMap_keys_clean (cs : list (string * string * string)) :
  Forall (fun c => clean_name (call_name c)) cs ->
  Forall (fun x => clean_name (fst x)) (fontMap cs).
Proof.
  intros H. apply Forall_map. rewrite fontMap_keys.
  rewrite Forall_forall in *. intros k Hk. apply distinct_In, in_map_iff in Hk.
  destruct Hk as (c & <- & Hc). now apply H.
Qed.

Lemma fontCalls_clean (l : list Page.Font) :
  Forall (fun c => clean_name (call_name c)) (map fontCall l).
Proof.
  apply Forall_map. rewrite Forall_forall. intros el _. apply firstFamily_clean.
Qed.

Lemma fontChoice_weights_NoDup (size : FontEntry -> option string) (m : FontMap) :
  NoDup (Typography.weights
           (fontChoice
              (JS.sort byFontCount
                 (map (fun '(font, data) =>
                         {| family := font;
                            font_count := count data;
                            avgSize := size data;
                            font_weights := JS.distinct (weights data) |}) m)))).
Proof.
  unfold fontChoice. cbn [Typography.weights].
  destruct (nth_error _ 0) as [f|] eqn:E.
  - apply nth_error_In, sort_In, in_map_iff in E. destruct E as ([k e] & <- & _).
    apply distinct_NoDup.
  - repeat constructor. intros [].
Qed.

(** X22: every family name in [all] has no comma, no quotation mark or
    apostrophe and no white space at either end; [all] and both weight
    lists hold no value twice. *)
Theorem typography_names_are_clean (d : Page.Document) :
  let t := extractTypography d in
  Forall clean_name (Typography.all t)
  /\ NoDup (Typography.all t)
  /\ NoDup (Typography.weights (Typography.heading t))
  /\ NoDup (Typography.weights (Typography.body t)).
Proof.
  intros t. unfold t, extractTypography.
  cbn [Typography.all Typography.heading Typography.body].
  split; [|split; [apply distinct_NoDup|split; apply fontChoice_weights_NoDup]].
  pose proof (fontMap_keys_clean (headingCalls d) (fontCalls_clean _)) as Hh.
  pose proof (fontMap_keys_clean (bodyCalls d) (fontCalls_clean _)) as Hb.
  rewrite <- headingsMap_calls in Hh. rewrite <- bodyMap_calls in Hb.
  rewrite Forall_forall in *. intros k Hk.
  apply distinct_In, in_map_iff in Hk. destruct Hk as (f & <- & Hf).
  apply in_app_or in Hf.
  destruct Hf as [Hf|Hf]; apply sort_In, in_map_iff in Hf;
    destruct Hf as ([k e] & <- & Hin); [exact (Hh _ Hin)|exact (Hb _ Hin)].
Qed.

Lemma typography_by_frequency_witness :
  by_frequency (headingNames landing_page) (map family (headingFonts landing_page)).
Proof.
  apply (typography_by_frequency landing_page);
    apply Nat.leb_le; vm_compute; reflexivity.
Defined.
